(** * Event placer: the scheduling engine

    A shallow embedding of [event_placer_v2/js/schedule.js] (classes [Random]
    and [Schedule]) and of the parts of [event_placer_v2/js/models.js] the
    engine reads ([Event], [Location], [Time]), followed by the properties of
    the engine that the specification states.

    Conventions of the embedding.
    - A JavaScript number that holds a count of minutes, a slot index, a seat
      count or a capacity is an integer far below 2^53 and is modelled by [Z];
      the quotients by the slot interval can be infinite or NaN when the
      interval is 0 and are modelled by [num].  The textual parsing
      ([parseInt], [timeToMinutes]) is outside the model: the numeric inputs
      are the parsed integers, and NaN inputs are not modelled.
    - The generator state is an integer-valued double; products beyond 2^53
      are rounded as IEEE-754 binary64 does ([fl53], [fl64]).
    - Objects have identity: an event is a reference [nat] into the [heap] of
      the [world]; a location is a position in [locations].
    - An exception is a [Throw] completion; the state reached when it is
      raised is kept. *)

From Stdlib Require Import ZArith QArith Qround Lia String Ascii DecimalString DecimalNat.
From stdpp Require Import base option list gmap strings sorting.

Local Open Scope Z_scope.

(** ** JavaScript numbers *)

Module JSNum.

(** The values a quotient of two integers can take in JavaScript. *)
Inductive num : Type :=
| Fin (z : Z)
| PInf
| NInf
| NaN.

#[global] Instance num_eq_dec : EqDecision num.
Proof. solve_decision. Defined.

(** [Math.floor(x / y)] for integers [x], [y]. *)
Definition div_floor (x y : Z) : num :=
  if y =? 0 then (if 0 <? x then PInf else if x <? 0 then NInf else NaN)
  else Fin (x / y).

(** [Math.ceil(x / y)] for integers [x], [y]. *)
Definition div_ceil (x y : Z) : num :=
  if y =? 0 then (if 0 <? x then PInf else if x <? 0 then NInf else NaN)
  else Fin (- ((- x) / y)).

Definition add (a b : num) : num :=
  match a, b with
  | Fin x, Fin y => Fin (x + y)
  | NaN, _ | _, NaN => NaN
  | PInf, NInf | NInf, PInf => NaN
  | PInf, _ | _, PInf => PInf
  | NInf, _ | _, NInf => NInf
  end.

Definition mul (a b : num) : num :=
  match a, b with
  | Fin x, Fin y => Fin (x * y)
  | NaN, _ | _, NaN => NaN
  | Fin x, PInf | PInf, Fin x =>
      if 0 <? x then PInf else if x <? 0 then NInf else NaN
  | Fin x, NInf | NInf, Fin x =>
      if 0 <? x then NInf else if x <? 0 then PInf else NaN
  | PInf, PInf | NInf, NInf => PInf
  | PInf, NInf | NInf, PInf => NInf
  end.

(** [a <= b] and [a < b]; every comparison with NaN is false. *)
Definition le (a b : num) : bool :=
  match a, b with
  | NaN, _ | _, NaN => false
  | Fin x, Fin y => x <=? y
  | NInf, _ | _, PInf => true
  | _, _ => false
  end.

Definition lt (a b : num) : bool :=
  match a, b with
  | NaN, _ | _, NaN => false
  | Fin x, Fin y => x <? y
  | PInf, _ | _, NInf => false
  | _, _ => true
  end.

(** [x !== 0]. *)
Definition nonzero (a : num) : bool :=
  match a with Fin 0 => false | _ => true end.

(** Nearest integer to [n / d] for [d > 0], ties to the even one. *)
Definition rne (n d : Z) : Z :=
  let q := n / d in
  let r := n mod d in
  if 2 * r <? d then q
  else if d <? 2 * r then q + 1
  else if Z.even q then q else q + 1.

(** binary64 rounding of an integer value (no overflow: the exponent range
    is not modelled). *)
Definition fl53 (z : Z) : Z :=
  let a := Z.abs z in
  if a <? 2 ^ 53 then z
  else let e := Z.log2 a - 52 in Z.sgn z * (rne a (2 ^ e) * 2 ^ e).

(** [floor (log2 (n / d))] for positive [n] and [d]. *)
Definition ilog2 (n d : Z) : Z :=
  let e0 := Z.log2 n - Z.log2 d in
  if (if 0 <=? e0 then d * 2 ^ e0 <=? n else d <=? n * 2 ^ (- e0))
  then e0 else e0 - 1.

(** binary64 rounding of a rational value (normal range). *)
Definition fl64 (q : Q) : Q :=
  let n := Qnum q in
  let d := Zpos (Qden q) in
  if n =? 0 then 0%Q
  else
    let a := Z.abs n in
    let sh := 52 - ilog2 a d in
    let r := if 0 <=? sh then rne (a * 2 ^ sh) d else rne a (d * 2 ^ (- sh)) in
    let v := if 0 <=? sh then Qmake r (Z.to_pos (2 ^ sh))
             else inject_Z (r * 2 ^ (- sh)) in
    Qred (if n <? 0 then Qopp v else v).

End JSNum.

Import JSNum.

(** ** Completions *)

Inductive exn : Type := TypeError | RangeError.

Inductive completion (A : Type) : Type :=
| Ret (a : A)
| Throw (e : exn).
Arguments Ret {A} a.
Arguments Throw {A} e.

(** ** Arrays of references

    [elems] are the indexed elements [0 .. length-1] ([None] is [undefined]);
    [props] are the properties written under a negative key, which are not
    elements and which [for ... of] does not visit. *)

Record jsarray : Type := mkArr {
  elems : list (option nat);
  props : list (Z * option nat)
}.

Definition arr_of (l : list nat) : jsarray := mkArr (Some <$> l) [].

Fixpoint assoc (k : Z) (l : list (Z * option nat)) : option nat :=
  match l with
  | [] => None
  | (k', v) :: l' => if k =? k' then v else assoc k l'
  end.

(** [array[k]]. *)
Definition arr_get (a : jsarray) (k : Z) : option nat :=
  if k <? 0 then assoc k (props a)
  else default None (elems a !! Z.to_nat k).

(** [array[k] = v]; a write at or beyond [length] extends the array. *)
Definition arr_set (a : jsarray) (k : Z) (v : option nat) : jsarray :=
  if k <? 0 then mkArr (elems a) ((k, v) :: props a)
  else
    let i := Z.to_nat k in
    if (i <? length (elems a))%nat then mkArr (<[i:=v]> (elems a)) (props a)
    else mkArr (elems a ++ replicate (i - length (elems a)) None ++ [v]) (props a).

(** [array.push(x)]. *)
Definition arr_push (a : jsarray) (x : nat) : jsarray :=
  mkArr (elems a ++ [Some x]) (props a).

(** ** The seeded generator (class [Random]) *)

Module Random.

Definition m : Z := 2147483648.   (* 0x80000000 *)
Definition a : Z := 1103515245.
Definition c : Z := 12345.

(** [new Random(seed)].  [seed] is [None] when the caller passes none;
    [entropy] is the integer that [Math.floor(Math.random() * (m - 1))]
    evaluates to, used when [seed] is falsy. *)
Definition new (seed : option Z) (entropy : Z) : Z :=
  match seed with
  | Some s => if s =? 0 then entropy else s
  | None => entropy
  end.

(** [nextInt]: the new state, which is also the value returned.  [%] keeps
    the sign of the dividend. *)
Definition nextInt (state : Z) : Z :=
  Z.rem (fl53 (fl53 (a * state) + c)) m.

(** [nextFloat]: the new state and the float returned. *)
Definition nextFloat (state : Z) : Z * Q :=
  let s := nextInt state in
  (s, fl64 (Qmake s (Z.to_pos (m - 1)))).

(** The body of the loop of [shuffle] at index [i]. *)
Definition shuffle_step (i : nat) (st : Z * jsarray) : Z * jsarray :=
  let '(s, f) := nextFloat (fst st) in
  let j := Qfloor (fl64 (f * inject_Z (Z.of_nat i + 1))) in
  let arr := snd st in
  let x := arr_get arr (Z.of_nat i) in
  let y := arr_get arr j in
  (s, arr_set (arr_set arr (Z.of_nat i) y) j x).

(** [for (let i = n; i > 0; i--)]. *)
Fixpoint shuffle_loop (n : nat) (st : Z * jsarray) : Z * jsarray :=
  match n with
  | O => st
  | S n' => shuffle_loop n' (shuffle_step n st)
  end.

(** [shuffle(array)], in place. *)
Definition shuffle (state : Z) (arr : jsarray) : Z * jsarray :=
  shuffle_loop (length (elems arr) - 1) (state, arr).

End Random.

(** ** Strings *)

(** [s.split(" ")]. *)
Fixpoint split_space (s : string) : list string :=
  match s with
  | EmptyString => [EmptyString]
  | String ch s' =>
      if Ascii.eqb ch " " then EmptyString :: split_space s'
      else match split_space s' with
           | h :: t => String ch h :: t
           | [] => [String ch EmptyString]
           end
  end.

Definition is_upper (ch : ascii) : bool :=
  let n := nat_of_ascii ch in ((65 <=? n) && (n <=? 90))%nat.

Fixpoint take_upper (s : string) : string :=
  match s with
  | String ch s' => if is_upper ch then String ch (take_upper s') else EmptyString
  | EmptyString => EmptyString
  end.

(** [getDept]: the first match of [/[A-Z]+/], or the empty string. *)
Fixpoint getDept (eventCode : string) : string :=
  match eventCode with
  | EmptyString => EmptyString
  | String ch s' => if is_upper ch then take_upper eventCode else getDept s'
  end.

(** The decimal text of a count, as a template literal prints it. *)
Definition decimal (n : nat) : string := NilEmpty.string_of_uint (Nat.to_uint n).

(** ** The data model ([models.js]) *)

(** class [Time]: the parsed bounds and the day codes. *)
Record Time : Type := mkTime {
  startMin : Z;
  endMin : Z;
  days : list string
}.

(** class [Event]: the fields the engine reads, and the scheduling state
    [indices], [placedLocation], [metric]. *)
Record Event : Type := mkEvent {
  eventCode : string;
  seats : Z;
  timeObj : Time;
  pastLocationString : string;
  bldgCode : string;
  roomNumber : string;
  indices : list (num * num);
  placedLocation : string;
  metric : Z;
  dept : string
}.

(** The constructor, from the parsed fields of a row. *)
Definition Event_new (code : string) (enrollment : Z) (begin_ end_ : Z)
    (day_codes : list string) (bldg room : string) : Event :=
  {| eventCode := code;
     seats := enrollment;
     timeObj := mkTime begin_ end_ (filter (λ d, d ≠ EmptyString) day_codes);
     pastLocationString := bldg +:+ " " +:+ room;
     bldgCode := bldg;
     roomNumber := room;
     indices := [];
     placedLocation := EmptyString;
     metric := 0;
     dept := getDept code |}.

Definition set_indices (ix : list (num * num)) (e : Event) : Event :=
  mkEvent (eventCode e) (seats e) (timeObj e) (pastLocationString e) (bldgCode e)
    (roomNumber e) ix (placedLocation e) (metric e) (dept e).

Definition set_placedLocation (l : string) (e : Event) : Event :=
  mkEvent (eventCode e) (seats e) (timeObj e) (pastLocationString e) (bldgCode e)
    (roomNumber e) (indices e) l (metric e) (dept e).

Definition set_metric (x : Z) (e : Event) : Event :=
  mkEvent (eventCode e) (seats e) (timeObj e) (pastLocationString e) (bldgCode e)
    (roomNumber e) (indices e) (placedLocation e) x (dept e).

(** [updateIndices]: the new object and the value returned. *)
Definition updateIndices (newIndices : list (num * num)) (e : Event) : Event * bool :=
  if negb (length (indices e) =? 0)%nat then (e, false)
  else (set_indices newIndices e, true).

(** [reset]. *)
Definition reset (e : Event) : Event :=
  set_metric 0 (set_placedLocation EmptyString (set_indices [] e)).

(** class [Location]; [building] is the part of the name before its first
    space. *)
Record Location : Type := mkLocation {
  name : string;
  capacity : Z
}.

Definition building (l : Location) : string :=
  default EmptyString (head (split_space (name l))).

(** ** The schedule (class [Schedule]) *)

(** An element of a grid array: [0], a reference to an event, or a hole. *)
Inductive cell : Type :=
| Zero
| Occ (e : nat)
| Undef.

#[global] Instance cell_eq_dec : EqDecision cell.
Proof. solve_decision. Defined.

Record Schedule : Type := mkSchedule {
  locations : list Location;
  interval : Z;
  timeGap : Z;
  schStartMin : Z;
  schEndMin : Z;
  shortDays : list string;
  dayIntervals : num;
  weekIntervals : num;
  dayOffsets : gmap string num;
  scheduleGrid : gmap string (list cell);
  locationPreferences : gmap string (list string);
  metrics : Z * Z * Z * Z;
  unscheduledCount : nat
}.

Definition set_locations (ls : list Location) (s : Schedule) : Schedule :=
  mkSchedule ls (interval s) (timeGap s) (schStartMin s) (schEndMin s) (shortDays s)
    (dayIntervals s) (weekIntervals s) (dayOffsets s) (scheduleGrid s)
    (locationPreferences s) (metrics s) (unscheduledCount s).

Definition set_scheduleGrid (g : gmap string (list cell)) (s : Schedule) : Schedule :=
  mkSchedule (locations s) (interval s) (timeGap s) (schStartMin s) (schEndMin s)
    (shortDays s) (dayIntervals s) (weekIntervals s) (dayOffsets s) g
    (locationPreferences s) (metrics s) (unscheduledCount s).

Definition set_metrics (x : Z * Z * Z * Z) (s : Schedule) : Schedule :=
  mkSchedule (locations s) (interval s) (timeGap s) (schStartMin s) (schEndMin s)
    (shortDays s) (dayIntervals s) (weekIntervals s) (dayOffsets s) (scheduleGrid s)
    (locationPreferences s) x (unscheduledCount s).

Definition set_unscheduledCount (n : nat) (s : Schedule) : Schedule :=
  mkSchedule (locations s) (interval s) (timeGap s) (schStartMin s) (schEndMin s)
    (shortDays s) (dayIntervals s) (weekIntervals s) (dayOffsets s) (scheduleGrid s)
    (locationPreferences s) (metrics s) n.

(** [setLocationPreferences]. *)
Definition setLocationPreferences (prefObj : gmap string (list string))
    (s : Schedule) : Schedule :=
  mkSchedule (locations s) (interval s) (timeGap s) (schStartMin s) (schEndMin s)
    (shortDays s) (dayIntervals s) (weekIntervals s) (dayOffsets s) (scheduleGrid s)
    prefObj (metrics s) (unscheduledCount s).

Definition dayMap (d : string) : option string :=
  if String.eqb d "Sunday" then Some "Su"%string
  else if String.eqb d "Monday" then Some "M"%string
  else if String.eqb d "Tuesday" then Some "T"%string
  else if String.eqb d "Wednesday" then Some "W"%string
  else if String.eqb d "Thursday" then Some "R"%string
  else if String.eqb d "Friday" then Some "F"%string
  else if String.eqb d "Saturday" then Some "Sa"%string
  else None.

(** [new Array(n).fill(0)]: a length that is not an integer in [0, 2^32)
    raises a RangeError. *)
Definition new_array (n : num) : completion (list cell) :=
  match n with
  | Fin z => if (0 <=? z) && (z <? 2 ^ 32) then Ret (replicate (Z.to_nat z) Zero)
             else Throw RangeError
  | _ => Throw RangeError
  end.

(** [shortDays.forEach((day, index) => dayOffsets[day] = index * dayIntervals)]. *)
Fixpoint fill_dayOffsets (ds : list string) (index : Z) (di : num)
    (acc : gmap string num) : gmap string num :=
  match ds with
  | [] => acc
  | d :: ds' => fill_dayOffsets ds' (index + 1) di (<[d := mul (Fin index) di]> acc)
  end.

(** [locations.forEach(loc => scheduleGrid[loc.name] = new Array(weekIntervals).fill(0))]. *)
Fixpoint fill_grid (ls : list Location) (wi : num)
    (acc : gmap string (list cell)) : completion (gmap string (list cell)) :=
  match ls with
  | [] => Ret acc
  | l :: ls' =>
      match new_array wi with
      | Ret arr => fill_grid ls' wi (<[name l := arr]> acc)
      | Throw x => Throw x
      end
  end.

(** The constructor.  The bounds are the parsed minutes; [activeDays] are the
    full day names; a day name the table does not know is kept under the key
    its [undefined] entry prints as. *)
Definition Schedule_new (locs : list Location) (startMin_ endMin_ : Z)
    (activeDays : list string) (interval_ timeGap_ : Z) : completion Schedule :=
  let sd := (λ d, default "undefined"%string (dayMap d)) <$> activeDays in
  let di := div_floor (endMin_ - startMin_) interval_ in
  let wi := mul di (Fin (Z.of_nat (length sd))) in
  match fill_grid locs wi ∅ with
  | Throw x => Throw x
  | Ret g =>
      Ret {| locations := locs; interval := interval_; timeGap := timeGap_;
             schStartMin := startMin_; schEndMin := endMin_; shortDays := sd;
             dayIntervals := di; weekIntervals := wi;
             dayOffsets := fill_dayOffsets sd 0 di ∅;
             scheduleGrid := g; locationPreferences := ∅;
             metrics := (0, 0, 0, 0); unscheduledCount := 0 |}
  end.

(** [getIndicesForEvent]: one [start, end) pair for each day of the event
    that is a key of [dayOffsets], starts inside the schedule and fits in the
    day. *)
Definition getIndicesForEvent (s : Schedule) (t : Time) : list (num * num) :=
  let durationMin := endMin t - startMin t in
  let slotsNeeded := div_ceil durationMin (interval s) in
  flat_map (λ day,
    match dayOffsets s !! day with
    | None => []
    | Some off =>
        let timeOffsetMin := startMin t - schStartMin s in
        if timeOffsetMin <? 0 then []
        else
          let startSlotInfo := div_floor timeOffsetMin (interval s) in
          let startIdx := add off startSlotInfo in
          let endIdx := add startIdx slotsNeeded in
          if le endIdx (add off (dayIntervals s)) then [(startIdx, endIdx)] else []
    end) (days t).

(** ** The placement primitive *)

(** The state of a run: the schedule object and the event objects. *)
Record world : Type := mkWorld {
  sched : Schedule;
  heap : list Event
}.

Definition upd_event (e : nat) (f : Event → Event) (w : world) : world :=
  mkWorld (sched w) (alter f e (heap w)).

Definition upd_sched (f : Schedule → Schedule) (w : world) : world :=
  mkWorld (f (sched w)) (heap w).

(** [arr[k] !== 0]: an index outside the array reads [undefined]. *)
Definition grid_nonzero (arr : list cell) (k : num) : bool :=
  match k with
  | Fin z =>
      if z <? 0 then true
      else match arr !! Z.to_nat z with Some Zero => false | _ => true end
  | _ => true
  end.

(** The same read through the grid variable, which is [undefined] when the
    location has no grid: reading an element of [undefined] is a TypeError. *)
Definition rd (g : option (list cell)) (k : num) : completion bool :=
  match g with
  | None => Throw TypeError
  | Some arr => Ret (grid_nonzero arr k)
  end.

(** A loop that returns at its first test that holds, or when a test throws. *)
Fixpoint first_hit (tests : list (completion bool)) : completion bool :=
  match tests with
  | [] => Ret false
  | Ret false :: ts => first_hit ts
  | r :: _ => r
  end.

(** The values of [i] in a loop of [count] iterations starting at [from].
    [count] is infinite only when the interval is 0; inside [placeEvent] the
    range is then [Infinity, Infinity) (lemma [getIndices_shape]) and the first
    iteration of the first loop of [checkTimeGap] returns, so that iteration
    is the one kept. *)
Definition iterations (from : Z) (count : num) : list Z :=
  match count with
  | Fin n => seqZ from n
  | PInf => [from]
  | _ => []
  end.

(** The values of [k] in [for (let k = start; k < end; k++)]; with a bound
    that is not finite the body does not run for the pairs that
    [getIndicesForEvent] yields (lemma [getIndices_shape]). *)
Definition slots (r : num * num) : list Z :=
  match r with
  | (Fin a, Fin b) => seqZ a (b - a)
  | _ => []
  end.

(** [checkTimeGap(locationArr, start, end)]. *)
Definition checkTimeGap (s : Schedule) (g : option (list cell))
    (start end_ : num) : completion bool :=
  if timeGap s =? 0 then Ret false
  else
    let gapSlots := div_ceil (timeGap s) (interval s) in
    first_hit
      (((λ i, let k := add start (Fin (- i)) in
              if le (Fin 0) k then rd g k else Ret false)
          <$> iterations 1 gapSlots)
       ++
       ((λ i, let k := add end_ (Fin i) in
              match g with
              | None => Throw TypeError
              | Some arr =>
                  Ret (lt k (Fin (Z.of_nat (length arr))) && grid_nonzero arr k)
              end)
          <$> iterations 0 gapSlots)).

(** The gap test of [placeEvent] for one range:
    [start !== 0 && this.checkTimeGap(grid, start, end)]. *)
Definition gap_test (s : Schedule) (g : option (list cell))
    (r : num * num) : completion bool :=
  if nonzero (fst r) then checkTimeGap s g (fst r) (snd r) else Ret false.

(** The tests of the collision and gap loop for one range, in program order:
    the gap test, then [grid[k] !== 0] for each slot of the range. *)
Definition range_tests (s : Schedule) (g : option (list cell))
    (r : num * num) : list (completion bool) :=
  gap_test s g r :: ((λ k, rd g (Fin k)) <$> slots r).

(** [grid[k] = event]: a write at or beyond [length] extends the array with
    holes.  A write under a negative key creates a property that is not an
    element; the engine reads such a key only in a [!== 0] test, which holds
    with and without the property, so the property is not recorded. *)
Definition arr_write (v : cell) (arr : list cell) (k : Z) : list cell :=
  if k <? 0 then arr
  else
    let i := Z.to_nat k in
    if (i <? length arr)%nat then <[i:=v]> arr
    else arr ++ replicate (i - length arr) Undef ++ [v].

(** [placeEvent(event, location, force)]. *)
Definition placeEvent (w : world) (e : nat) (loc : Location) (force : bool)
    : world * completion bool :=
  match heap w !! e with
  | None => (w, Throw TypeError)
  | Some ev =>
      let s := sched w in
      if (startMin (timeObj ev) <? schStartMin s) || (schEndMin s <? endMin (timeObj ev))
      then (w, Ret false)
      else
        let ranges := getIndicesForEvent s (timeObj ev) in
        let w1 := upd_event e (λ x, fst (updateIndices ranges x)) w in
        if (length ranges =? 0)%nat then (w1, Ret false)
        else
          let locName := name loc in
          let grid := scheduleGrid s !! locName in
          let rollback := upd_event e (set_indices []) w1 in
          let place :=
            match flat_map slots ranges, grid with
            | [], _ => (upd_event e (set_placedLocation locName) w1, Ret true)
            | _ :: _, None => (w1, Throw TypeError)
            | ks, Some arr =>
                (upd_event e (set_placedLocation locName)
                   (upd_sched (set_scheduleGrid
                      (<[locName := foldl (arr_write (Occ e)) arr ks]> (scheduleGrid s))) w1),
                 Ret true)
            end in
          if force then place
          else if capacity loc <? seats ev then (rollback, Ret false)
          else
            match first_hit (flat_map (range_tests s grid) ranges) with
            | Ret false => place
            | Ret true => (rollback, Ret false)
            | Throw x => (w1, Throw x)
            end
  end.

(** ** The phased algorithm ([createSchedule]) *)

(** [for (const x of l) body]: the loop stops at the first exception. *)
Fixpoint for_of {A S : Type} (body : A → S → S * completion unit)
    (l : list A) (s : S) : S * completion unit :=
  match l with
  | [] => (s, Ret tt)
  | x :: l' =>
      match body x s with
      | (s', Ret _) => for_of body l' s'
      | (s', Throw ex) => (s', Throw ex)
      end
  end.

(** [findLoc(name)]: the first location with the cleaned name. *)
Definition findLoc (s : Schedule) (nm : string) : option Location :=
  let parts := split_space nm in
  let cleanName :=
    match parts !! 1%nat with
    | Some p =>
        if String.eqb p "00" || String.eqb p "000"
        then default "undefined"%string (head parts) +:+ " 0"
        else nm
    | None => nm
    end in
  head (filter (λ l, name l = cleanName) (locations s)).

(** [findLocsByBldg(bldg)]: the positions, in [locations], of the locations
    whose name starts with [bldg]. *)
Definition findLocsByBldg (s : Schedule) (bldg : string) : list nat :=
  fst <$> filter (λ il, String.prefix bldg (name il.2) = true)
            (imap (λ i l, (i, l)) (locations s)).

Definition locs_at (s : Schedule) (ix : list nat) : list Location :=
  omap (λ i, locations s !! i) ix.

(** The candidate loops of phases 2 and 3: the locations are tried in order
    until [placeEvent] succeeds. *)
Fixpoint try_locs (w : world) (e : nat) (ls : list Location) : world * completion bool :=
  match ls with
  | [] => (w, Ret false)
  | l :: ls' =>
      match placeEvent w e l false with
      | (w', Ret false) => try_locs w' e ls'
      | r => r
      end
  end.

(** The variables of the run next to the objects. *)
Record pools : Type := mkPools {
  failures : Z;
  waitingList : jsarray;
  finalList : jsarray;
  unscheduled : list nat
}.

Definition fail_to_waiting (e : nat) (p : pools) : pools :=
  mkPools (failures p + 1) (arr_push (waitingList p) e) (finalList p) (unscheduled p).

Definition is_unknown (s : string) : bool :=
  String.eqb s "undefined" || String.eqb s "nan".

(** Phase 1, the body of the loop over [events]. *)
Definition phase1_body (x : option nat) (st : world * pools) : (world * pools) * completion unit :=
  let '(w, p) := st in
  match x ≫= (λ e, (λ ev, (e, ev)) <$> heap w !! e) with
  | None => (st, Throw TypeError)
  | Some (e, ev) =>
      if is_unknown (bldgCode ev)
      then ((w, mkPools (failures p) (waitingList p) (arr_push (finalList p) e) (unscheduled p)), Ret tt)
      else if is_unknown (roomNumber ev)
      then ((w, mkPools (failures p) (arr_push (waitingList p) e) (finalList p) (unscheduled p)), Ret tt)
      else
        match findLoc (sched w) (pastLocationString ev) with
        | Some loc =>
            match placeEvent w e loc false with
            | (w', Ret true) => ((w', p), Ret tt)
            | (w', Ret false) => ((w', fail_to_waiting e p), Ret tt)
            | (w', Throw ex) => ((w', p), Throw ex)
            end
        | None => ((w, fail_to_waiting e p), Ret tt)
        end
  end.

(** Phase 2, the body of the loop over [waitingList]. *)
Definition phase2_body (x : option nat) (st : world * pools) : (world * pools) * completion unit :=
  let '(w, p) := st in
  match x ≫= (λ e, (λ ev, (e, ev)) <$> heap w !! e) with
  | None => (st, Throw TypeError)
  | Some (e, ev) =>
      let bldgLocs := findLocsByBldg (sched w) (bldgCode ev) in
      if (length bldgLocs =? 0)%nat
      then ((w, mkPools (failures p) (waitingList p) (arr_push (finalList p) e) (unscheduled p)), Ret tt)
      else
        match try_locs w e (locs_at (sched w) bldgLocs) with
        | (w', Ret true) => ((w', p), Ret tt)
        | (w', Ret false) =>
            ((w', mkPools (failures p + 1) (waitingList p) (arr_push (finalList p) e) (unscheduled p)), Ret tt)
        | (w', Throw ex) => ((w', p), Throw ex)
        end
  end.

(** The candidates of phase 3: the locations of the preferred buildings of
    the department, then every location that is not among them. *)
Definition potentialLocs (s : Schedule) (ev : Event) : list nat :=
  let preferred :=
    match locationPreferences s !! dept ev with
    | Some prefBldgs => flat_map (findLocsByBldg s) prefBldgs
    | None => []
    end in
  preferred ++ filter (λ i, i ∉ preferred) (seq 0 (length (locations s))).

(** Phase 3, the body of the loop over [finalList]. *)
Definition phase3_body (x : option nat) (st : world * pools) : (world * pools) * completion unit :=
  let '(w, p) := st in
  match x ≫= (λ e, (λ ev, (e, ev)) <$> heap w !! e) with
  | None => (st, Throw TypeError)
  | Some (e, ev) =>
      match try_locs w e (locs_at (sched w) (potentialLocs (sched w) ev)) with
      | (w', Ret true) => ((w', p), Ret tt)
      | (w', Ret false) =>
          ((w', mkPools (failures p + 1) (waitingList p) (finalList p) (unscheduled p ++ [e])), Ret tt)
      | (w', Throw ex) => ((w', p), Throw ex)
      end
  end.

(** [addUnscheduledLocation]: the location is pushed before the grid is
    allocated. *)
Definition addUnscheduledLocation (s : Schedule) : Schedule * completion unit :=
  let nm := ("UN " +:+ decimal (unscheduledCount s))%string in
  let loc := mkLocation nm 9999 in
  let s1 := set_locations (locations s ++ [loc]) s in
  match new_array (weekIntervals s) with
  | Throw ex => (s1, Throw ex)
  | Ret arr =>
      (set_unscheduledCount (S (unscheduledCount s))
         (set_scheduleGrid (<[nm := arr]> (scheduleGrid s)) s1), Ret tt)
  end.

(** Phase 4, the body of the loop over [currentBatch]. *)
Definition phase4_body (newLoc : Location) (e : nat) (st : world * list nat)
    : (world * list nat) * completion unit :=
  let '(w, uns) := st in
  match placeEvent w e newLoc false with
  | (w', Ret true) => ((w', filter (λ x, x ≠ e) uns), Ret tt)
  | (w', Ret false) => ((w', uns), Ret tt)
  | (w', Throw ex) => ((w', uns), Throw ex)
  end.

(** Phase 4, one iteration of the [while] loop: a new room is added and every
    event of the pool is tried in it; the pool that is left is returned. *)
Definition overflow_body (w : world) (uns : list nat) : world * completion (list nat) :=
  match addUnscheduledLocation (sched w) with
  | (s1, Throw ex) => (mkWorld s1 (heap w), Throw ex)
  | (s1, Ret _) =>
      let currentBatch := uns in
      match last (locations s1) with
      | None => (mkWorld s1 (heap w), Throw TypeError)
      | Some newLoc =>
          match for_of (phase4_body newLoc) currentBatch (mkWorld s1 (heap w), uns) with
          | ((w', _), Throw ex) => (w', Throw ex)
          | ((w', uns'), Ret _) => (w', Ret uns')
          end
      end
  end.

(** Phase 4, the [while] loop: the state reached, how the loop completed
    with the pool that is left, and the number of iterations started.
    [None] if [fuel] iterations did not end the loop. *)
Fixpoint overflow_loop (fuel : nat) (w : world) (uns : list nat)
    : option (world * completion (list nat) * nat) :=
  match uns with
  | [] => Some (w, Ret [], O)
  | _ :: _ =>
      match fuel with
      | O => None
      | S fuel' =>
          match overflow_body w uns with
          | (w', Throw ex) => Some (w', Throw ex, 1%nat)
          | (w', Ret uns') =>
              if (length uns =? length uns')%nat
              then Some (w', Ret uns', 1%nat)
              else
                match overflow_loop fuel' w' uns' with
                | Some (w'', r, n) => Some (w'', r, S n)
                | None => None
                end
          end
      end
  end.

(** The tier of a placed event, in the order of the tests of
    [calculateMetrics]. *)
Definition tier (s : Schedule) (ev : Event) : Z :=
  let parts := split_space (placedLocation ev) in
  let placedBldg := default EmptyString (head parts) in
  let placedRoom := parts !! 1%nat in
  if String.eqb (bldgCode ev) "nan" || String.eqb (bldgCode ev) "" then 1
  else if String.eqb (bldgCode ev) placedBldg
          && bool_decide (Some (roomNumber ev) = placedRoom) then 1
  else if String.eqb (bldgCode ev) placedBldg
          && (String.eqb (roomNumber ev) "nan" || String.eqb (roomNumber ev) "") then 1
  else if String.eqb (bldgCode ev) placedBldg then 2
  else if match locationPreferences s !! dept ev with
          | Some bs => bool_decide (placedBldg ∈ bs)
          | None => false
          end then 3
  else 4.

Definition count_tier (t : Z) (c : Z * Z * Z * Z) : Z * Z * Z * Z :=
  let '(d, sm, pf, wr) := c in
  if t =? 1 then (d + 1, sm, pf, wr)
  else if t =? 2 then (d, sm + 1, pf, wr)
  else if t =? 3 then (d, sm, pf + 1, wr)
  else (d, sm, pf, wr + 1).

(** [calculateMetrics], the body of [events.forEach]. *)
Definition metrics_body (x : option nat) (st : world * (Z * Z * Z * Z))
    : (world * (Z * Z * Z * Z)) * completion unit :=
  let '(w, c) := st in
  match x ≫= (λ e, (λ ev, (e, ev)) <$> heap w !! e) with
  | None => (st, Throw TypeError)
  | Some (e, ev) =>
      if String.eqb (placedLocation ev) "" then (st, Ret tt)
      else
        let t := tier (sched w) ev in
        ((upd_event e (set_metric t) w, count_tier t c), Ret tt)
  end.

Definition calculateMetrics (w : world) (events : jsarray) : world * completion unit :=
  match for_of metrics_body (elems events) (w, (0, 0, 0, 0)) with
  | ((w', c), Ret _) => (upd_sched (set_metrics c) w', Ret tt)
  | ((w', _), Throw ex) => (w', Throw ex)
  end.

(** What a completed run returns: [{ failures, events }]. *)
Record result : Type := mkResult {
  res_failures : Z;
  res_events : jsarray
}.

(** [events.forEach(e => e.reset())]. *)
Definition reset_body (e : nat) (w : world) : world * completion unit :=
  match heap w !! e with
  | None => (w, Throw TypeError)
  | Some _ => (upd_event e reset w, Ret tt)
  end.

(** [createSchedule(events, seed)].  [events] is the array of the references
    passed in; [entropy] is what [Math.random] contributes when the seed is
    falsy.  [None] only if the overflow loop did not end within as many
    iterations as there were unscheduled events when it started. *)
Definition createSchedule (w : world) (events : list nat) (seed : option Z)
    (entropy : Z) : option (world * completion result) :=
  let rng := Random.new seed entropy in
  match for_of reset_body events w with
  | (w0, Throw ex) => Some (w0, Throw ex)
  | (w0, Ret _) =>
  let '(rng1, evs) := Random.shuffle rng (arr_of events) in
  match for_of phase1_body (elems evs) (w0, mkPools 0 (arr_of []) (arr_of []) []) with
  | ((w1, _), Throw ex) => Some (w1, Throw ex)
  | ((w1, p1), Ret _) =>
  let '(rng2, wl) := Random.shuffle rng1 (waitingList p1) in
  match for_of phase2_body (elems wl) (w1, mkPools (failures p1) wl (finalList p1) (unscheduled p1)) with
  | ((w2, _), Throw ex) => Some (w2, Throw ex)
  | ((w2, p2), Ret _) =>
  let '(rng3, fl) := Random.shuffle rng2 (finalList p2) in
  match for_of phase3_body (elems fl) (w2, mkPools (failures p2) (waitingList p2) fl (unscheduled p2)) with
  | ((w3, _), Throw ex) => Some (w3, Throw ex)
  | ((w3, p3), Ret _) =>
  match overflow_loop (length (unscheduled p3)) w3 (unscheduled p3) with
  | None => None
  | Some (w4, Throw ex, _) => Some (w4, Throw ex)
  | Some (w4, Ret _, _) =>
  match calculateMetrics w4 evs with
  | (w5, Throw ex) => Some (w5, Throw ex)
  | (w5, Ret _) => Some (w5, Ret (mkResult (failures p3) evs))
  end end end end end end.

(** ** What a run is observed by

    The outcome of a run as the specification describes it: for each
    activity its [indices], [placedLocation] and [metric]; how the call
    completed and with which failure count; the metrics tuple. *)

Definition assignment (w : world) : list (list (num * num) * string * Z) :=
  (λ ev, (indices ev, placedLocation ev, metric ev)) <$> heap w.

Definition observe (r : option (world * completion result))
    : option (list (list (num * num) * string * Z) * completion Z * (Z * Z * Z * Z)) :=
  match r with
  | None => None
  | Some (w, c) =>
      Some (assignment w,
            match c with Ret x => Ret (res_failures x) | Throw ex => Throw ex end,
            metrics (sched w))
  end.

(** A new engine and the event objects of a run, as [generateSchedule]
    builds them. *)
Definition fresh_world (locs : list Location) (startMin_ endMin_ : Z)
    (activeDays : list string) (interval_ timeGap_ : Z) (evs : list Event)
    : completion world :=
  match Schedule_new locs startMin_ endMin_ activeDays interval_ timeGap_ with
  | Ret s => Ret (mkWorld s evs)
  | Throw ex => Throw ex
  end.

(** The slots an activity is recorded to occupy in the grid of the resource
    [r]: those of its recorded ranges, when [r] is where it is placed. *)
Definition occupies (ev : Event) (r : string) (k : Z) : Prop :=
  placedLocation ev ≠ EmptyString ∧ placedLocation ev = r ∧ k ∈ flat_map slots (indices ev).

(** No-overlap: no slot of a grid is occupied by two distinct activities. *)
Definition no_overlap (w : world) : Prop :=
  ∀ (e1 e2 : nat) (ev1 ev2 : Event) (r : string) (k : Z),
    heap w !! e1 = Some ev1 → heap w !! e2 = Some ev2 →
    occupies ev1 r k → occupies ev2 r k → e1 = e2.

(** The candidates of phase 2 in the words of the specification: the
    positions of the resources whose building code is [bldg]. *)
Definition same_building_locs (s : Schedule) (bldg : string) : list nat :=
  fst <$> filter (λ il, building il.2 = bldg) (imap (λ i l, (i, l)) (locations s)).

(** The gap scan in the words of the specification: [ceil(gap / interval)]
    slots before the range, skipped when the range begins at index 0, and as
    many slots after the range, scanned in every case. *)
Definition gap_scan_before (s : Schedule) (arr : list cell) (start : Z) : bool :=
  existsb (λ i, (0 <=? start - i) && grid_nonzero arr (Fin (start - i)))
    (seqZ 1 (- ((- timeGap s) / interval s))).

Definition gap_scan_after (s : Schedule) (arr : list cell) (end_ : Z) : bool :=
  existsb (λ i, (end_ + i <? Z.of_nat (length arr)) && grid_nonzero arr (Fin (end_ + i)))
    (seqZ 0 (- ((- timeGap s) / interval s))).

Definition gap_scan_claimed (s : Schedule) (arr : list cell) (start end_ : Z) : bool :=
  (negb (start =? 0) && gap_scan_before s arr start) || gap_scan_after s arr end_.

(** ** Concrete runs *)

Module Fixtures.

Local Open Scope string_scope.

(** The world a constructor call built. *)
Definition built (c : completion world) : world :=
  match c with
  | Ret w => w
  | Throw _ => mkWorld (mkSchedule [] 0 0 0 0 [] NaN NaN ∅ ∅ ∅ (0, 0, 0, 0) 0) []
  end.

Definition is_built (c : completion world) : bool :=
  match c with Ret _ => true | Throw _ => false end.

(** One room "R 1" for ten, Monday 8:00 to 10:00 in slots of an hour, no
    gap; two activities that both ask for "R 1" on Monday at 8:00. *)
Definition two_for_one_room : completion world :=
  fresh_world [mkLocation "R 1" 10] 480 600 ["Monday"] 60 0
    [Event_new "CS 1" 5 480 540 ["M"] "R" "1";
     Event_new "CS 2" 5 480 540 ["M"] "R" "1"].

(** The same two activities when the only room supplied is named "UN 0". *)
Definition room_named_like_overflow : completion world :=
  fresh_world [mkLocation "UN 0" 10] 480 600 ["Monday"] 60 0
    [Event_new "CS 1" 5 480 540 ["M"] "UN" "0";
     Event_new "CS 2" 5 480 540 ["M"] "UN" "0"].

(** One room "SCIENCE 5"; an activity whose historical room is "SCI 101". *)
Definition prefix_building : completion world :=
  fresh_world [mkLocation "SCIENCE 5" 10] 480 600 ["Monday"] 60 0
    [Event_new "CS 1" 5 480 540 ["M"] "SCI" "101"].

(** One room, Monday 8:00 to 11:00 in slots of an hour, a gap of an hour;
    activity 0 lasts from 8:00 to 10:00, activity 1 from 10:00 to 11:00. *)
Definition back_to_back : completion world :=
  fresh_world [mkLocation "R 1" 10] 480 660 ["Monday"] 60 60
    [Event_new "CS 1" 5 480 600 ["M"] "R" "1";
     Event_new "CS 2" 5 600 660 ["M"] "R" "1"].

(** Two rooms and one activity. *)
Definition two_rooms : completion world :=
  fresh_world [mkLocation "R 1" 10; mkLocation "R 2" 10] 480 600 ["Monday"] 60 0
    [Event_new "CS 1" 5 480 540 ["M"] "R" "1"].

(** A negative interval and no active day. *)
Definition negative_interval : completion world :=
  fresh_world [mkLocation "R 1" 10] 480 1020 [] (-10) 10
    [Event_new "CS 1" 5 480 540 ["M"] "R" "1"].

(** A zero interval and no room. *)
Definition zero_interval : completion world :=
  fresh_world [] 480 1020 ["Monday"] 0 10
    [Event_new "CS 1" 5 480 540 ["M"] "R" "1"].

End Fixtures.

(** ** Well-formed schedules

    What the constructor establishes about the fields that no method
    changes afterwards. *)

Definition wf_config (s : Schedule) : Prop :=
  dayIntervals s = div_floor (schEndMin s - schStartMin s) (interval s)
  ∧ ∀ (d : string) (off : num),
      dayOffsets s !! d = Some off → ∃ i : Z, 0 ≤ i ∧ off = mul (Fin i) (dayIntervals s).

(** ** The bookkeeping behind no-overlap *)

(** An activity that waits in a pool: not placed, no recorded range. *)
Definition idle (w : world) (e : nat) : Prop :=
  ∃ ev, heap w !! e = Some ev ∧ placedLocation ev = EmptyString ∧ indices ev = [].

(** Every slot that a placed activity is recorded to occupy holds that
    activity in the grid of its resource. *)
Definition grid_inv (w : world) : Prop :=
  ∀ (e : nat) (ev : Event) (k : Z),
    heap w !! e = Some ev →
    placedLocation ev ≠ EmptyString →
    k ∈ flat_map slots (indices ev) →
    ∃ arr, scheduleGrid (sched w) !! placedLocation ev = Some arr
           ∧ 0 ≤ k ∧ arr !! Z.to_nat k = Some (Occ e).

(** The name of the [n]-th overflow room. *)
Definition overflow_name (n : nat) : string := "UN " +:+ decimal n.

(** No grid exists under the name of an overflow room still to be made. *)
Definition fresh_names (s : Schedule) : Prop :=
  ∀ n : nat, (unscheduledCount s ≤ n)%nat → scheduleGrid s !! overflow_name n = None.

(** An array of references seen as a function of its keys: no reference
    under two keys, and the references it holds. *)
Definition arr_inj (a : jsarray) : Prop :=
  ∀ (k1 k2 : Z) (v : nat), arr_get a k1 = Some v → arr_get a k2 = Some v → k1 = k2.

Definition arr_val (a : jsarray) (v : nat) : Prop :=
  ∃ k : Z, arr_get a k = Some v.

(** The references among the elements of an array. *)
Definition defined (l : list (option nat)) : list nat := omap id l.

(** The invariant of a run next to its pool [P] of waiting activities. *)
Definition run_inv (w : world) (P : list nat) : Prop :=
  grid_inv w ∧ fresh_names (sched w) ∧ ∀ e, e ∈ P → idle w e.

(** The invariants of the loops of the four phases: the pools hold the
    activities that wait, each of them once. *)
Definition phase1_inv (l : list (option nat)) (st : world * pools) : Prop :=
  ∃ W F : list nat,
    waitingList st.2 = arr_of W ∧ finalList st.2 = arr_of F ∧ unscheduled st.2 = []
    ∧ run_inv st.1 (defined l ++ W ++ F) ∧ NoDup (defined l ++ W ++ F).

Definition phase2_inv (l : list (option nat)) (st : world * pools) : Prop :=
  ∃ F : list nat,
    finalList st.2 = arr_of F ∧ unscheduled st.2 = []
    ∧ run_inv st.1 (defined l ++ F) ∧ NoDup (defined l ++ F).

Definition phase3_inv (l : list (option nat)) (st : world * pools) : Prop :=
  run_inv st.1 (defined l ++ unscheduled st.2) ∧ NoDup (defined l ++ unscheduled st.2).

Definition phase4_inv (l : list nat) (st : world * list nat) : Prop :=
  run_inv st.1 st.2 ∧ NoDup st.2 ∧ NoDup l ∧ ∀ x, x ∈ l → x ∈ st.2.

(** ** Notions used by the further properties of the engine *)

(** [e.placedLocation] is truthy for the element [x] of an array of
    references. *)
Definition is_placed (w : world) (x : option nat) : bool :=
  match x ≫= (λ e, heap w !! e) with
  | Some ev => negb (String.eqb (placedLocation ev) "")
  | None => false
  end.

Definition total (c : Z * Z * Z * Z) : Z :=
  let '(d, sm, pf, wr) := c in d + sm + pf + wr.

(** The string holds a space. *)
Fixpoint has_space (s : string) : bool :=
  match s with
  | EmptyString => false
  | String ch s' => Ascii.eqb ch " " || has_space s'
  end.

(** The event [ev'] is [ev] in another scheduling state: the two differ in
    [indices], [placedLocation] and [metric] at most. *)
Definition same_request (ev ev' : Event) : Prop :=
  ev' = set_metric (metric ev')
          (set_placedLocation (placedLocation ev') (set_indices (indices ev') ev)).

(** An activity that no location can take: its window leaves the window of
    the schedule, or it has no range (no day of its own among the active
    days, or a slot run that does not fit in the day). *)
Definition unplaceable (s : Schedule) (ev : Event) : Prop :=
  startMin (timeObj ev) < schStartMin s
  ∨ schEndMin s < endMin (timeObj ev)
  ∨ getIndicesForEvent s (timeObj ev) = [].

(** The activity [e] is the request [ev], is unplaceable and is not placed. *)
Definition stuck (ev : Event) (e : nat) (w : world) : Prop :=
  ∃ ev', heap w !! e = Some ev' ∧ same_request ev ev'
         ∧ placedLocation ev' = EmptyString ∧ unplaceable (sched w) ev.









(** Every character of the string passes the test. *)
Fixpoint all_chars (p : ascii → bool) (s : string) : bool :=
  match s with
  | EmptyString => true
  | String ch s' => p ch && all_chars p s'
  end.

(** The first character of the string, if it has one, passes the test. *)
Definition first_char (p : ascii → bool) (s : string) : bool :=
  match s with
  | EmptyString => true
  | String ch _ => p ch
  end.

(** ** The chart ([getPlotlyData])

    One bar for each maximal run of slots of a grid that hold the same
    activity.  The columns [y], [base], [x], [text] and [marker.color] of the
    trace are modelled, a row being one bar; [hovertext], which is built from
    the title and the placed location of the same event object, is not.  The
    names are sorted as [sort()] sorts them: by code units, here bytes. *)

Record bar : Type := mkBar {
  bar_y : string;
  bar_base : Z;
  bar_x : Z;
  bar_event : nat;
  bar_text : string;
  bar_color : string
}.

Definition name_le (a b : string) : Prop := String.leb a b = true.

#[global] Instance name_le_dec (a b : string) : Decision (name_le a b).
Proof. unfold name_le. apply _. Defined.

(** [this.locations.map(l => l.name).sort()]. *)
Definition sortedLocs (s : Schedule) : list string :=
  merge_sort name_le (name <$> locations s).

Definition metric_color (m : Z) : string :=
  if m =? 1 then "#2ecc71"
  else if m =? 2 then "#3498db"
  else if m =? 3 then "#f1c40f"
  else "#e74c3c".

(** The body of [if (currentEvent !== 0 && currentEvent !== null)], for the
    segment [startIdx, i) of [currentEvent]; [None] is [null].  Reading a
    property of a hole throws. *)
Definition close_segment (w : world) (locName : string) (cur : option cell)
    (startIdx i : Z) (rows : list bar) : completion (list bar) :=
  match cur with
  | None | Some Zero => Ret rows
  | Some Undef => Throw TypeError
  | Some (Occ e) =>
      match heap w !! e with
      | None => Throw TypeError
      | Some ev =>
          Ret (rows ++ [mkBar locName (startIdx * interval (sched w))
                          ((i - startIdx) * interval (sched w)) e (eventCode ev)
                          (metric_color (metric ev))])
      end
  end.

(** [for (let i = 0; i <= grid.length; i++)], from index [i] on, [cells]
    being the slots from [i] on. *)
Fixpoint scan (w : world) (locName : string) (cells : list cell) (i : Z)
    (cur : option cell) (startIdx : Z) (rows : list bar) : completion (list bar) :=
  match cells with
  | [] =>
      match cur with
      | None => Ret rows
      | Some _ => close_segment w locName cur startIdx i rows
      end
  | c :: cells' =>
      if decide (Some c = cur) then scan w locName cells' (i + 1) cur startIdx rows
      else
        match close_segment w locName cur startIdx i rows with
        | Ret rows' => scan w locName cells' (i + 1) (Some c) i rows'
        | Throw ex => Throw ex
        end
  end.

(** The body of [sortedLocs.forEach]. *)
Definition plot_location (w : world) (locName : string) (rows : list bar)
    : completion (list bar) :=
  match scheduleGrid (sched w) !! locName with
  | None => Ret rows
  | Some grid => scan w locName grid 0 None (-1) rows
  end.

Fixpoint plot_locations (w : world) (names : list string) (rows : list bar)
    : completion (list bar) :=
  match names with
  | [] => Ret rows
  | nm :: names' =>
      match plot_location w nm rows with
      | Ret rows' => plot_locations w names' rows'
      | Throw ex => Throw ex
      end
  end.

(** [getPlotlyData()]: the bars of the one trace it returns. *)
Definition getPlotlyData (w : world) : completion (list bar) :=
  plot_locations w (sortedLocs (sched w)) [].

(** The length drawn for the activity [e] in the row of [nm]. *)
Definition drawn (e : nat) (nm : string) (rows : list bar) : Z :=
  foldr (λ b acc, if decide (bar_y b = nm ∧ bar_event b = e) then bar_x b + acc else acc)
    0 rows.

(** The number of slots of a grid that hold the activity [e]. *)
Definition held (e : nat) (grid : list cell) : Z :=
  Z.of_nat (length (filter (λ c, c = Occ e) grid)).

(** The bar [b] draws a maximal run of the grid for the interval [iv]: the
    slots [i] to [j - 1] hold the activity of the bar, the slot before [i]
    and the slot [j], where there is one, do not. *)
Definition is_run (iv : Z) (grid : list cell) (b : bar) : Prop :=
  ∃ i j : nat, (i < j ≤ length grid)%nat
    ∧ bar_base b = Z.of_nat i * iv
    ∧ bar_x b = (Z.of_nat j - Z.of_nat i) * iv
    ∧ (∀ k, (i ≤ k < j)%nat → grid !! k = Some (Occ (bar_event b)))
    ∧ (∀ k, S k = i → grid !! k ≠ Some (Occ (bar_event b)))
    ∧ grid !! j ≠ Some (Occ (bar_event b)).

(** The state of the scan of [grid] at index [n]: before the first slot
    there is no current value; after it the current value [c] fills the
    slots from [startIdx] to [n - 1] and not the slot before [startIdx]. *)
Definition seg_inv (grid : list cell) (n : nat) (cur : option cell) (startIdx : Z) : Prop :=
  match cur with
  | None => n = 0%nat
  | Some c =>
      ∃ s : nat, startIdx = Z.of_nat s ∧ (s < n)%nat
        ∧ (∀ k, (s ≤ k < n)%nat → grid !! k = Some c)
        ∧ (∀ k, S k = s → grid !! k ≠ Some c)
  end.

(** Every slot of every grid holds 0 or an activity that exists: no
    hole. *)
Definition tidy (w : world) : Prop :=
  ∀ nm grid c, scheduleGrid (sched w) !! nm = Some grid → c ∈ grid →
    c = Zero ∨ ∃ e, c = Occ e ∧ is_Some (heap w !! e).

(** ** Times of day ([timeToMinutes], [minutesToTime])

    A string holds the UTF-8 bytes of the text.  [None] is NaN.  A number
    is printed as a template literal prints an integer below 10^21. *)

(** [s.split(sep)] for a separator of one character. *)
Fixpoint split_on (sep : ascii) (s : string) : list string :=
  match s with
  | EmptyString => [EmptyString]
  | String ch s' =>
      if Ascii.eqb ch sep then EmptyString :: split_on sep s'
      else match split_on sep s' with
           | h :: t => String ch h :: t
           | [] => [String ch EmptyString]
           end
  end.

(** The character occurs in the string. *)
Fixpoint occurs (c : ascii) (s : string) : bool :=
  match s with
  | EmptyString => false
  | String ch s' => Ascii.eqb ch c || occurs c s'
  end.

(** The white space and line terminators that [parseInt] skips: TAB, LF,
    VT, FF, CR, SP, and in two or three bytes U+00A0, U+1680,
    U+2000..U+200A, U+2028, U+2029, U+202F, U+205F, U+3000, U+FEFF. *)
Fixpoint skip_ws (s : string) : string :=
  match s with
  | EmptyString => s
  | String c s1 =>
      let n := nat_of_ascii c in
      if ((9 <=? n) && (n <=? 13) || (n =? 32))%nat then skip_ws s1
      else if negb ((n =? 194) || (n =? 225) || (n =? 226) || (n =? 227) || (n =? 239))%nat
      then s
      else
        match s1 with
        | EmptyString => s
        | String c2 s2 =>
            let n2 := nat_of_ascii c2 in
            if ((n =? 194) && (n2 =? 160))%nat then skip_ws s2
            else
              match s2 with
              | EmptyString => s
              | String c3 s3 =>
                  let n3 := nat_of_ascii c3 in
                  if ((n =? 225) && (n2 =? 154) && (n3 =? 128)
                      || (n =? 226) && (n2 =? 128)
                         && ((128 <=? n3) && (n3 <=? 138) || (n3 =? 168) || (n3 =? 169)
                             || (n3 =? 175))
                      || (n =? 226) && (n2 =? 129) && (n3 =? 159)
                      || (n =? 227) && (n2 =? 128) && (n3 =? 128)
                      || (n =? 239) && (n2 =? 187) && (n3 =? 191))%nat
                  then skip_ws s3 else s
              end
        end
  end.

(** The value of a character as a digit of a radix up to 16. *)
Definition digit_val (ch : ascii) : option Z :=
  let n := Z.of_nat (nat_of_ascii ch) in
  if (48 <=? n) && (n <=? 57) then Some (n - 48)
  else if (97 <=? n) && (n <=? 102) then Some (n - 87)
  else if (65 <=? n) && (n <=? 70) then Some (n - 55)
  else None.

(** The value of the longest prefix of digits of the radix; [acc] is [None]
    as long as no digit was read. *)
Fixpoint digits (radix : Z) (s : string) (acc : option Z) : option Z :=
  match s with
  | EmptyString => acc
  | String ch s' =>
      match digit_val ch with
      | Some d => if d <? radix then digits radix s' (Some (default 0 acc * radix + d))
                  else acc
      | None => acc
      end
  end.

(** [parseInt(s)], no radix given.  The value of a long run of digits is
    rounded to a double. *)
Definition parseInt (s : string) : option Z :=
  let s1 := skip_ws s in
  let '(sign, s2) :=
    match s1 with
    | String "-" r => (-1, r)
    | String "+" r => (1, r)
    | _ => (1, s1)
    end in
  let '(radix, s3) :=
    match s2 with
    | String "0" (String "x" r) => (16, r)
    | String "0" (String "X" r) => (16, r)
    | _ => (10, s2)
    end in
  match digits radix s3 None with
  | None => None
  | Some v => Some (sign * fl53 v)
  end.

(** [timeToMinutes(timeStr)]; [None] as argument is [undefined]. *)
Definition timeToMinutes (timeStr : option string) : option Z :=
  match timeStr with
  | None => Some 0
  | Some s =>
      if String.eqb s "" then Some 0
      else
        let parts := split_on ":" s in
        match parseInt (default "undefined"%string (head parts)),
              parseInt (default "undefined"%string (parts !! 1%nat)) with
        | Some a, Some b => Some (fl53 (fl53 (a * 60) + b))
        | _, _ => None
        end
  end.

(** The text of an integer in a template literal. *)
Definition show_int (z : Z) : string :=
  if z <? 0 then "-" +:+ decimal (Z.to_nat (- z)) else decimal (Z.to_nat z).

(** [minutesToTime(minutes)]. *)
Definition minutesToTime (minutes : Z) : string :=
  let h := minutes / 60 in
  let m := Z.rem minutes 60 in
  show_int h +:+ ":" +:+ (if m <? 10 then "0" else "") +:+ show_int m.

(** * Properties *)

Import Fixtures.

(** ** The generator *)

Lemma new_truthy_seed (s r : Z) : s ≠ 0 → Random.new (Some s) r = s.
Proof. intros Hs. unfold Random.new. destruct (Z.eqb_spec s 0); congruence. Qed.

(** With a seed other than 0 the run does not depend on [Math.random]. *)
Lemma createSchedule_truthy_seed (w : world) (events : list nat) (s r1 r2 : Z) :
  s ≠ 0 → createSchedule w events (Some s) r1 = createSchedule w events (Some s) r2.
Proof. intros Hs. unfold createSchedule. by rewrite !new_truthy_seed. Qed.

(** Two runs on the same input with seed 0: [Math.random] decides which of
    the two activities gets the room. *)
Lemma seed_zero_runs :
  match two_for_one_room with
  | Ret w0 =>
      observe (createSchedule w0 [0; 1]%nat (Some 0) 1)
      = Some ([([(Fin 0, Fin 1)], "R 1"%string, 1); ([(Fin 0, Fin 1)], "UN 0"%string, 4)],
              Ret 3, (1, 0, 0, 1))
      ∧ observe (createSchedule w0 [0; 1]%nat (Some 0) 2)
      = Some ([([(Fin 0, Fin 1)], "UN 0"%string, 4); ([(Fin 0, Fin 1)], "R 1"%string, 1)],
              Ret 3, (1, 0, 0, 1))
  | Throw _ => False
  end.
Proof. vm_compute. split; reflexivity. Qed.

(** C2, at the failing input: seed 0 is supplied, the input is the same, and
    two runs give the room "R 1" to different activities.  (For every seed
    other than 0 the runs agree: [createSchedule_truthy_seed].) *)
Theorem createSchedule_seed_zero_not_reproducible :
  ∃ (w0 : world) (r1 r2 : Z),
    two_for_one_room = Ret w0 ∧
    (placedLocation <$> heap (default w0 (fst <$> createSchedule w0 [0; 1]%nat (Some 0) r1)) !! 0%nat)
      = Some "R 1"%string ∧
    (placedLocation <$> heap (default w0 (fst <$> createSchedule w0 [0; 1]%nat (Some 0) r2)) !! 0%nat)
      = Some "UN 0"%string ∧
    observe (createSchedule w0 [0; 1]%nat (Some 0) r1)
      ≠ observe (createSchedule w0 [0; 1]%nat (Some 0) r2).
Proof.
  pose proof seed_zero_runs as H.
  destruct two_for_one_room as [w0|] eqn:E; [|done].
  destruct H as [H1 H2].
  exists w0, 1, 2. split; [done|].
  split; [by vm_compute in E; injection E as <-; vm_compute|].
  split; [by vm_compute in E; injection E as <-; vm_compute|].
  rewrite H1, H2. discriminate.
Qed.

(** C10: with seed 0 the state of the generator is the value drawn from
    [Math.random], as when no seed is passed, and two runs with seed 0 on the
    same input can differ. *)
Theorem seed_zero_falls_back_to_entropy :
  (∀ r : Z, Random.new (Some 0) r = r ∧ Random.new (Some 0) r = Random.new None r)
  ∧ ∃ (w0 : world) (events : list nat) (r1 r2 : Z),
      observe (createSchedule w0 events (Some 0) r1)
      ≠ observe (createSchedule w0 events (Some 0) r2).
Proof.
  split; [done|].
  pose proof seed_zero_runs as H.
  destruct two_for_one_room as [w0|]; [|done].
  destruct H as [H1 H2].
  exists w0, [0; 1]%nat, 1, 2. rewrite H1, H2. discriminate.
Qed.

(** C9, at the failing input: from the seed -1 the first value of [nextInt]
    is negative, and so is the float. *)
Theorem nextFloat_negative_seed :
  ∀ r : Z,
    fst (Random.nextFloat (Random.new (Some (-1)) r)) = -1103502900
    ∧ Qlt (snd (Random.nextFloat (Random.new (Some (-1)) r))) 0%Q.
Proof. intros r. split; [reflexivity|]. vm_compute. reflexivity. Qed.

(** ** Phase 2 *)

(** C5, at the failing input: the room "SCIENCE 5" is in building "SCIENCE",
    the activity asks for building "SCI", and the room is a candidate of
    phase 2, where the activity is placed: one failure (phase 1) is counted
    and the tier is 4. *)
Theorem phase2_candidate_of_other_building :
  match prefix_building with
  | Ret w0 =>
      findLocsByBldg (sched w0) "SCI" = [0%nat]
      ∧ (building <$> locations (sched w0) !! 0%nat) = Some "SCIENCE"%string
      ∧ same_building_locs (sched w0) "SCI" = []
      ∧ observe (createSchedule w0 [0%nat] (Some 7) 0)
        = Some ([([(Fin 0, Fin 1)], "SCIENCE 5"%string, 4)], Ret 1, (0, 0, 0, 1))
  | Throw _ => False
  end.
Proof. vm_compute. repeat split; reflexivity. Qed.

(** ** The placement primitive *)

Lemma set_indices_same (ev : Event) : set_indices (indices ev) ev = ev.
Proof. by destruct ev. Qed.

Lemma alter_lookup_same {A : Type} (f : A → A) (l : list A) (i : nat) (x : A) :
  l !! i = Some x → f x = x → alter f i l = l.
Proof.
  intros Hl Hf. apply list_eq. intros j.
  destruct (decide (i = j)) as [->|Hne].
  - rewrite list_lookup_alter_eq, Hl. simpl. by rewrite Hf.
  - by rewrite list_lookup_alter_ne.
Qed.

Lemma upd_event_same (w : world) (e : nat) (ev : Event) (f : Event → Event) :
  heap w !! e = Some ev → f ev = ev → upd_event e f w = w.
Proof.
  intros Hl Hf. destruct w as [s h]. unfold upd_event. simpl in *.
  f_equal. by eapply alter_lookup_same.
Qed.

Lemma upd_event_twice (w : world) (e : nat) (f g : Event → Event) :
  upd_event e f (upd_event e g w) = upd_event e (f ∘ g) w.
Proof. unfold upd_event. simpl. f_equal. apply list_alter_alter_eq. Qed.

Lemma updateIndices_empty (ranges : list (num * num)) (ev : Event) :
  indices ev = [] → fst (updateIndices ranges ev) = set_indices ranges ev.
Proof. intros H. unfold updateIndices. by rewrite H. Qed.

Lemma updateIndices_recorded (ranges : list (num * num)) (ev : Event) :
  indices ev ≠ [] → fst (updateIndices ranges ev) = ev.
Proof. intros H. unfold updateIndices. by destruct (indices ev). Qed.

(** A refused placement of an activity without recorded ranges changes
    nothing. *)
Lemma placeEvent_false_unchanged
    (w w' : world) (e : nat) (ev : Event) (loc : Location) (force : bool) :
  heap w !! e = Some ev →
  indices ev = [] →
  placeEvent w e loc force = (w', Ret false) →
  w' = w.
Proof.
  intros Hev Hix Hp.
  unfold placeEvent in Hp. rewrite Hev in Hp.
  destruct (_ || _); [by injection Hp|].
  set (ranges := getIndicesForEvent (sched w) (timeObj ev)) in *.
  assert (Hrb : ∀ rs, upd_event e (set_indices [])
                        (upd_event e (λ x, fst (updateIndices rs x)) w) = w).
  { intros rs. rewrite upd_event_twice. apply (upd_event_same _ _ ev); [done|].
    simpl. rewrite updateIndices_empty by done. destruct ev; simpl in *; by subst. }
  destruct (length ranges =? 0)%nat eqn:Hlen.
  - injection Hp as <-. apply Nat.eqb_eq, nil_length_inv in Hlen. rewrite Hlen.
    apply (upd_event_same _ _ ev); [done|].
    rewrite updateIndices_empty by done. destruct ev; simpl in *; by subst.
  - destruct force.
    + exfalso. revert Hp.
      destruct (flat_map slots ranges) as [|k ks], (scheduleGrid (sched w) !! name loc);
        discriminate.
    + destruct (capacity loc <? seats ev).
      * injection Hp as <-. apply Hrb.
      * destruct (first_hit _) as [[|]|ex].
        -- injection Hp as <-. apply Hrb.
        -- exfalso. revert Hp.
           destruct (flat_map slots ranges) as [|k ks], (scheduleGrid (sched w) !! name loc);
             discriminate.
        -- discriminate.
Qed.

(** C6: a call of [placeEvent] that returns [false] on an activity with no
    recorded range leaves the grid of every resource, the [placedLocation]
    of the activity and its (empty) list of ranges as they were; indeed the
    whole state is unchanged. *)
Theorem placeEvent_failure_is_transactional
    (w w' : world) (e : nat) (ev : Event) (loc : Location) (force : bool) :
  heap w !! e = Some ev →
  indices ev = [] →
  placeEvent w e loc force = (w', Ret false) →
  scheduleGrid (sched w') = scheduleGrid (sched w)
  ∧ (placedLocation <$> heap w' !! e) = Some (placedLocation ev)
  ∧ (indices <$> heap w' !! e) = Some []
  ∧ w' = w.
Proof.
  intros Hev Hix Hp.
  assert (w' = w) as -> by (by eapply placeEvent_false_unchanged).
  rewrite Hev; simpl; by rewrite Hix.
Qed.

(** The witness: in the room of [two_for_one_room] the second activity is
    refused once the first one holds the slot. *)
Lemma placeEvent_failure_is_transactional_witness :
  let w := fst (placeEvent (built two_for_one_room) 0 (mkLocation "R 1" 10) false) in
  let ev := Event_new "CS 2" 5 480 540 ["M"%string] "R" "1" in
  heap w !! 1%nat = Some ev ∧ indices ev = [] ∧
  placeEvent w 1 (mkLocation "R 1" 10) false = (w, Ret false) ∧
  (scheduleGrid (sched w) = scheduleGrid (sched w)
   ∧ (placedLocation <$> heap w !! 1%nat) = Some (placedLocation ev)
   ∧ (indices <$> heap w !! 1%nat) = Some []
   ∧ w = w).
Proof.
  intros w ev.
  assert (Hev : heap w !! 1%nat = Some ev) by (vm_compute; reflexivity).
  assert (Hp : placeEvent w 1 (mkLocation "R 1" 10) false = (w, Ret false))
    by (vm_compute; reflexivity).
  split; [exact Hev|]. split; [reflexivity|]. split; [exact Hp|].
  exact (placeEvent_failure_is_transactional w w 1 ev (mkLocation "R 1" 10) false
           Hev eq_refl Hp).
Defined.

Lemma heap_upd_event (w : world) (e : nat) (f : Event → Event) :
  heap (upd_event e f w) !! e = f <$> heap w !! e.
Proof. unfold upd_event. simpl. apply list_lookup_alter_eq. Qed.

Lemma heap_upd_event_ne (w : world) (e e' : nat) (f : Event → Event) :
  e ≠ e' → heap (upd_event e f w) !! e' = heap w !! e'.
Proof. intros. unfold upd_event. simpl. by apply list_lookup_alter_ne. Qed.

(** C7, the claim as stated fails: the activity of [two_rooms] is placed in
    "R 1" and holds a recorded range; a second call for "R 2" is not refused
    as a violation, it returns [true] and writes the activity into the grid
    of "R 2" as well. *)
Lemma placeEvent_proceeds_on_recorded_ranges :
  let w1 := fst (placeEvent (built two_rooms) 0 (mkLocation "R 1" 10) false) in
  let r := placeEvent w1 0 (mkLocation "R 2" 10) false in
  (indices <$> heap w1 !! 0%nat) = Some [(Fin 0, Fin 1)]
  ∧ snd r = Ret true
  ∧ scheduleGrid (sched (fst r)) !! "R 1"%string = Some [Occ 0; Zero]
  ∧ scheduleGrid (sched (fst r)) !! "R 2"%string = Some [Occ 0; Zero]
  ∧ (placedLocation <$> heap (fst r) !! 0%nat) = Some "R 2"%string.
Proof. vm_compute. repeat split; reflexivity. Qed.

(** C7, as amended: when the activity already holds recorded ranges the
    recording is skipped and its result ignored; the call returns the same
    value, and leaves the same schedule and the same [placedLocation], as the
    call made after clearing the ranges, and on success the ranges recorded
    before are kept. *)
Theorem placeEvent_ignores_recorded_ranges
    (w : world) (e : nat) (ev : Event) (loc : Location) (force : bool) :
  heap w !! e = Some ev →
  indices ev ≠ [] →
  let w0 := upd_event e (set_indices []) w in
  snd (placeEvent w e loc force) = snd (placeEvent w0 e loc force)
  ∧ sched (fst (placeEvent w e loc force)) = sched (fst (placeEvent w0 e loc force))
  ∧ (placedLocation <$> heap (fst (placeEvent w e loc force)) !! e)
    = (placedLocation <$> heap (fst (placeEvent w0 e loc force)) !! e)
  ∧ (snd (placeEvent w e loc force) = Ret true →
     (indices <$> heap (fst (placeEvent w e loc force)) !! e) = Some (indices ev)).
Proof.
  intros Hev Hix w0.
  assert (Hev0 : heap w0 !! e = Some (set_indices [] ev)).
  { subst w0. by rewrite heap_upd_event, Hev. }
  assert (Hsw : sched w0 = sched w) by done.
  clearbody w0.
  unfold placeEvent. rewrite Hev, Hev0, Hsw. simpl.
  destruct (_ || _).
  { simpl. rewrite Hev, Hev0. by repeat split. }
  set (ranges := getIndicesForEvent (sched w) (timeObj ev)).
  set (w1 := upd_event e (λ x, fst (updateIndices ranges x)) w).
  set (w1' := upd_event e (λ x, fst (updateIndices ranges x)) w0).
  assert (H1 : heap w1 !! e = Some ev).
  { subst w1. rewrite heap_upd_event, Hev.
    change (Some (fst (updateIndices ranges ev)) = Some ev).
    by rewrite updateIndices_recorded. }
  assert (H1' : heap w1' !! e = Some (set_indices ranges ev)).
  { subst w1'. rewrite heap_upd_event, Hev0.
    change (Some (fst (updateIndices ranges (set_indices [] ev))) = Some (set_indices ranges ev)).
    by rewrite updateIndices_empty. }
  assert (Hs : sched w1 = sched w) by done.
  assert (Hs' : sched w1' = sched w) by (subst w1'; simpl; exact Hsw).
  clearbody w1 w1'.
  destruct (length ranges =? 0)%nat.
  { cbn [fst snd]. rewrite H1, H1'. by rewrite Hs, Hs'. }
  assert (Hroll :
    let p1 : world * completion bool := (upd_event e (set_indices []) w1, Ret false) in
    let p2 : world * completion bool := (upd_event e (set_indices []) w1', Ret false) in
    snd p1 = snd p2 ∧ sched (fst p1) = sched (fst p2)
    ∧ (placedLocation <$> heap (fst p1) !! e) = (placedLocation <$> heap (fst p2) !! e)
    ∧ (snd p1 = Ret true → (indices <$> heap (fst p1) !! e) = Some (indices ev))).
  { cbn [fst snd]. rewrite !heap_upd_event, H1, H1'.
    cbn [upd_event sched]. by rewrite Hs, Hs'. }
  destruct force; [|destruct (capacity loc <? seats ev); [exact Hroll|];
                    destruct (first_hit _) as [[|]|ex]; [exact Hroll| |]].
  1,2: destruct (flat_map slots ranges) as [|k ks'],
         (scheduleGrid (sched w) !! name loc) as [arr|]; cbn [fst snd];
       rewrite ?heap_upd_event; cbn [upd_sched upd_event heap sched];
       rewrite ?H1, ?H1', ?Hs, ?Hs'; repeat split; done.
  cbn [fst snd]. rewrite H1, H1'. by rewrite Hs, Hs'.
Qed.

(** The witness: the second call of [placeEvent_proceeds_on_recorded_ranges]. *)
Lemma placeEvent_ignores_recorded_ranges_witness :
  let w := fst (placeEvent (built two_rooms) 0 (mkLocation "R 1" 10) false) in
  let ev := set_placedLocation "R 1"
              (set_indices [(Fin 0, Fin 1)] (Event_new "CS 1" 5 480 540 ["M"%string] "R" "1")) in
  let loc := mkLocation "R 2" 10 in
  heap w !! 0%nat = Some ev ∧ indices ev ≠ [] ∧
  (let w0 := upd_event 0 (set_indices []) w in
   snd (placeEvent w 0 loc false) = snd (placeEvent w0 0 loc false)
   ∧ sched (fst (placeEvent w 0 loc false)) = sched (fst (placeEvent w0 0 loc false))
   ∧ (placedLocation <$> heap (fst (placeEvent w 0 loc false)) !! 0%nat)
     = (placedLocation <$> heap (fst (placeEvent w0 0 loc false)) !! 0%nat)
   ∧ (snd (placeEvent w 0 loc false) = Ret true →
      (indices <$> heap (fst (placeEvent w 0 loc false)) !! 0%nat) = Some (indices ev))).
Proof.
  intros w ev loc.
  assert (Hev : heap w !! 0%nat = Some ev) by (vm_compute; reflexivity).
  assert (Hix : indices ev ≠ []) by discriminate.
  split; [exact Hev|]. split; [exact Hix|].
  exact (placeEvent_ignores_recorded_ranges w 0 ev loc false Hev Hix).
Defined.

(** *** The gap check *)

Lemma first_hit_app (l1 l2 : list (completion bool)) :
  first_hit (l1 ++ l2)
  = match first_hit l1 with Ret false => first_hit l2 | r => r end.
Proof.
  induction l1 as [|[[|]|ex] l1 IH]; simpl; done.
Qed.

Lemma first_hit_fmap {A : Type} (f : A → completion bool) (t : A → bool) (l : list A) :
  (∀ i, f i = Ret (t i)) → first_hit (f <$> l) = Ret (existsb t l).
Proof.
  intros Hf. induction l as [|x l IH]; simpl; [done|].
  rewrite Hf. destruct (t x); simpl; done.
Qed.

Lemma first_hit_false (tests : list (completion bool)) :
  first_hit tests = Ret false ↔ ∀ t, t ∈ tests → t = Ret false.
Proof.
  induction tests as [|[[|]|ex] ts IH]; simpl.
  - split; [intros _ t Ht; by apply elem_of_nil in Ht|done].
  - split; [done|]. intros H. apply (H (Ret true)). by left.
  - rewrite IH. split.
    + intros H t [->|Ht]%elem_of_cons; auto.
    + intros H t Ht. apply H. by right.
  - split; [done|]. intros H. apply (H (Throw ex)). by left.
Qed.

(** C3, the claim as stated fails: activity 1 of [back_to_back] holds slot 2;
    the range of activity 0 is [0, 2) and the gap is one slot.  The scan the
    claim describes finds slot 2, right after the range; the gap test of
    [placeEvent] does not, and the activity is placed. *)
Lemma gap_check_skipped_at_index_zero :
  let w1 := fst (placeEvent (built back_to_back) 1 (mkLocation "R 1" 10) false) in
  let arr := [Zero; Zero; Occ 1] in
  scheduleGrid (sched w1) !! "R 1"%string = Some arr
  ∧ (getIndicesForEvent (sched w1) <$> (timeObj <$> heap w1 !! 0%nat)) = Some [(Fin 0, Fin 2)]
  ∧ div_ceil (timeGap (sched w1)) (interval (sched w1)) = Fin 1
  ∧ gap_scan_claimed (sched w1) arr 0 2 = true
  ∧ gap_test (sched w1) (Some arr) (Fin 0, Fin 2) = Ret false
  ∧ snd (placeEvent w1 0 (mkLocation "R 1" 10) false) = Ret true.
Proof. vm_compute. repeat split; reflexivity. Qed.

(** C3, as amended: for a range [start, end) checked without override, with a
    slot interval other than 0, the gap test scans the [ceil(gap / interval)]
    slots before and the as many slots after the range when [start] is not 0,
    and scans nothing at all (neither before nor after the range) when the
    range begins at index 0. *)
Theorem gap_test_scans (s : Schedule) (arr : list cell) (start end_ : Z) :
  interval s ≠ 0 →
  gap_test s (Some arr) (Fin start, Fin end_)
  = Ret (negb (start =? 0)
         && (gap_scan_before s arr start || gap_scan_after s arr end_)).
Proof.
  intros Hi. unfold gap_test, gap_scan_before, gap_scan_after. cbn [fst snd].
  assert (Hnz : nonzero (Fin start) = negb (start =? 0)) by (by destruct start).
  rewrite Hnz. destruct (start =? 0); [done|]. cbn [negb andb].
  unfold checkTimeGap, div_ceil.
  destruct (Z.eqb_spec (interval s) 0) as [|_]; [done|].
  destruct (Z.eqb_spec (timeGap s) 0) as [Hg|_].
  { rewrite Hg. by rewrite Z.div_0_l. }
  cbn [iterations]. rewrite first_hit_app.
  cbn [rd add le lt].
  rewrite (first_hit_fmap _
    (λ i, (0 <=? start - i) && grid_nonzero arr (Fin (start - i)))).
  2: { intros i. unfold Z.sub. by destruct (0 <=? start + - i). }
  rewrite (first_hit_fmap _
    (λ i, (end_ + i <? Z.of_nat (length arr)) && grid_nonzero arr (Fin (end_ + i)))).
  2: done.
  by destruct (existsb _ _).
Qed.

(** The witness: the schedule and the grid of [gap_check_skipped_at_index_zero]. *)
Lemma gap_test_scans_witness :
  let s := sched (built back_to_back) in
  interval s ≠ 0
  ∧ gap_test s (Some [Zero; Zero; Occ 1]) (Fin 1, Fin 2)
    = Ret (negb (1 =? 0)
           && (gap_scan_before s [Zero; Zero; Occ 1] 1
               || gap_scan_after s [Zero; Zero; Occ 1] 2)).
Proof.
  intros s.
  assert (Hi : interval s ≠ 0) by (vm_compute; discriminate).
  split; [exact Hi|].
  exact (gap_test_scans s [Zero; Zero; Occ 1] 1 2 Hi).
Defined.

(** ** The configuration *)

(** C4, the claim as stated fails: with the interval -10 and no active day
    the engine is built and the run goes through the placement phases and
    returns three failures; with the interval 0 and no room the engine is
    built and the run ends in phase 4, on the allocation of the first
    overflow grid. *)
Lemma nonpositive_interval_accepted :
  is_built negative_interval = true
  ∧ observe (createSchedule (built negative_interval) [0%nat] (Some 7) 0)
    = Some ([([], EmptyString, 0)], Ret 3, (0, 0, 0, 0))
  ∧ is_built zero_interval = true
  ∧ observe (createSchedule (built zero_interval) [0%nat] (Some 7) 0)
    = Some ([([], EmptyString, 0)], Throw RangeError, (0, 0, 0, 0))
  ∧ (name <$> locations (sched (default (built zero_interval)
       (fst <$> createSchedule (built zero_interval) [0%nat] (Some 7) 0))))
    = ["UN 0"%string].
Proof. vm_compute. repeat split; reflexivity. Qed.

(** C4, as amended: no test of the interval is made; with an interval that
    is 0 or negative the constructor fails, on the allocation of the first
    grid, when there is at least one room, at least one active day and the
    schedule ends after it starts. *)
Theorem Schedule_new_nonpositive_interval
    (locs : list Location) (startMin_ endMin_ : Z) (activeDays : list string)
    (interval_ timeGap_ : Z) :
  interval_ ≤ 0 → locs ≠ [] → activeDays ≠ [] → startMin_ < endMin_ →
  Schedule_new locs startMin_ endMin_ activeDays interval_ timeGap_ = Throw RangeError.
Proof.
  intros Hi Hl Hd Hse. unfold Schedule_new.
  destruct locs as [|l ls]; [done|].
  destruct activeDays as [|d ds]; [done|].
  cbn [fill_grid fmap list_fmap length].
  set (n := Z.of_nat (S (length _))).
  assert (Hn : 0 < n) by (subst n; lia).
  assert (Hw : new_array (mul (div_floor (endMin_ - startMin_) interval_) (Fin n))
               = Throw RangeError).
  { unfold div_floor. destruct (Z.eqb_spec interval_ 0) as [->|Hne].
    - destruct (Z.ltb_spec 0 (endMin_ - startMin_)); [|lia].
      cbn [mul]. destruct (Z.ltb_spec 0 n); [done|lia].
    - cbn [mul new_array].
      assert ((endMin_ - startMin_) / interval_ < 0).
      { pose proof (Z.div_mod (endMin_ - startMin_) interval_ Hne).
        pose proof (Z.mod_neg_bound (endMin_ - startMin_) interval_ ltac:(lia)).
        nia. }
      destruct (Z.leb_spec 0 ((endMin_ - startMin_) / interval_ * n)); [nia|done]. }
  by rewrite Hw.
Qed.

(** The witness: one room, Monday, 8:00 to 17:00, an interval of 0. *)
Lemma Schedule_new_nonpositive_interval_witness :
  0 ≤ 0 ∧ [mkLocation "R 1" 10] ≠ [] ∧ ["Monday"%string] ≠ [] ∧ 480 < 1020
  ∧ Schedule_new [mkLocation "R 1" 10] 480 1020 ["Monday"%string] 0 10 = Throw RangeError.
Proof.
  assert (H1 : 0 ≤ 0) by lia.
  assert (H2 : [mkLocation "R 1" 10] ≠ []) by discriminate.
  assert (H3 : ["Monday"%string] ≠ []) by discriminate.
  assert (H4 : 480 < 1020) by lia.
  split; [exact H1|]. split; [exact H2|]. split; [exact H3|]. split; [exact H4|].
  exact (Schedule_new_nonpositive_interval _ _ _ _ 0 10 H1 H2 H3 H4).
Defined.

(** ** The shape of the ranges *)

Lemma fill_dayOffsets_values (ds : list string) (index : Z) (di : num)
    (acc : gmap string num) (d : string) (off : num) :
  0 ≤ index →
  (∀ d' off', acc !! d' = Some off' → ∃ i, 0 ≤ i ∧ off' = mul (Fin i) di) →
  fill_dayOffsets ds index di acc !! d = Some off →
  ∃ i, 0 ≤ i ∧ off = mul (Fin i) di.
Proof.
  revert index acc. induction ds as [|d0 ds IH]; intros index acc Hi Hacc; simpl.
  - apply Hacc.
  - apply IH; [lia|]. intros d' off'.
    destruct (decide (d0 = d')) as [->|Hne].
    + rewrite lookup_insert_eq. intros [= <-]. eauto.
    + rewrite lookup_insert_ne by done. apply Hacc.
Qed.

Lemma Schedule_new_wf (locs : list Location) (startMin_ endMin_ : Z)
    (activeDays : list string) (interval_ timeGap_ : Z) (s : Schedule) :
  Schedule_new locs startMin_ endMin_ activeDays interval_ timeGap_ = Ret s →
  wf_config s.
Proof.
  unfold Schedule_new. destruct (fill_grid _ _ _); [|done].
  intros [= <-]. split; [done|]. simpl. intros d off.
  apply fill_dayOffsets_values; [lia|]. intros d' off'. by rewrite lookup_empty.
Qed.

(** The pairs that [getIndicesForEvent] yields are finite when the interval
    is not 0, and are all [Infinity, Infinity) when it is 0: the loops of
    [placeEvent] over a pair run as [slots] and [iterations] say. *)
Lemma getIndices_shape (s : Schedule) (t : Time) (r : num * num) :
  wf_config s →
  r ∈ getIndicesForEvent s t →
  (interval s ≠ 0 ∧ ∃ a b, r = (Fin a, Fin b)) ∨ (interval s = 0 ∧ r = (PInf, PInf)).
Proof.
  intros [Hdi Hoff] Hr. unfold getIndicesForEvent in Hr.
  apply list_elem_of_In, in_flat_map in Hr. destruct Hr as (day & _ & Hr).
  destruct (dayOffsets s !! day) as [off|] eqn:Hday; [|done].
  destruct (Hoff _ _ Hday) as (i & Hi & ->).
  destruct (Z.ltb_spec (startMin t - schStartMin s) 0) as [|Hge]; [done|].
  rewrite Hdi in Hr. unfold div_floor, div_ceil in Hr.
  destruct (Z.eqb_spec (interval s) 0) as [Hz|Hnz].
  - right. split; [done|].
    repeat (match type of Hr with
            | context [if ?b then _ else _] => destruct b eqn:?
            end; simpl in Hr);
    try done; try (by destruct Hr as [<-|[]]);
    cbn [mul] in *;
    repeat match goal with
           | H1 : ?b = _, H : context [if ?b then _ else _] |- _ => rewrite H1 in H
           end;
    simpl in *; try done;
    repeat match goal with H : (_ <? _) = true |- _ => apply Z.ltb_lt in H end; lia.
  - left. split; [done|]. simpl in Hr.
    destruct (_ <=? _); [|done]. destruct Hr as [<-|[]]. eauto.
Qed.

(** ** Phase 4 *)

Lemma for_of_phase4_length (newLoc : Location) (batch : list nat)
    (w w' : world) (uns uns' : list nat) (c : completion unit) :
  for_of (phase4_body newLoc) batch (w, uns) = ((w', uns'), c) →
  (length uns' ≤ length uns)%nat.
Proof.
  revert w uns. induction batch as [|e batch IH]; intros w uns; simpl.
  - by intros [= _ <- _].
  - unfold phase4_body at 1.
    destruct (placeEvent w e newLoc false) as [w1 [[|]|ex]].
    + intros H%IH. etrans; [exact H|]. apply length_filter.
    + apply IH.
    + by intros [= _ <- _].
Qed.

Lemma overflow_body_length (w w' : world) (uns uns' : list nat) :
  overflow_body w uns = (w', Ret uns') → (length uns' ≤ length uns)%nat.
Proof.
  unfold overflow_body.
  destruct (addUnscheduledLocation (sched w)) as [s1 [[]|ex]]; [|done].
  destruct (last (locations s1)) as [newLoc|]; [|done].
  destruct (for_of _ _ _) as [[w1 uns1] [[]|ex]] eqn:Hf; [|done].
  intros [= <- <-]. by eapply for_of_phase4_length.
Qed.

Lemma overflow_loop_fuel (fuel : nat) (w : world) (uns : list nat) :
  (length uns ≤ fuel)%nat →
  ∃ w' r n, overflow_loop fuel w uns = Some (w', r, n) ∧ (n ≤ length uns)%nat.
Proof.
  revert w uns. induction fuel as [|fuel IH]; intros w uns Hlen.
  - destruct uns; [|simpl in Hlen; lia]. simpl. eauto.
  - destruct uns as [|e uns0] eqn:Hu; [simpl; eauto|]. rewrite <- Hu in *.
    assert (Hpos : (1 ≤ length uns)%nat) by (rewrite Hu; simpl; lia).
    replace (overflow_loop (S fuel) w uns) with
      (match overflow_body w uns with
       | (w', Throw ex) => Some (w', Throw ex, 1%nat)
       | (w', Ret uns') =>
           if (length uns =? length uns')%nat then Some (w', Ret uns', 1%nat)
           else match overflow_loop fuel w' uns' with
                | Some (w'', r, n) => Some (w'', r, S n)
                | None => None
                end
       end) by (by rewrite Hu).
    destruct (overflow_body w uns) as [w1 [uns1|ex]] eqn:Hb; [|eauto].
    apply overflow_body_length in Hb.
    destruct (Nat.eqb_spec (length uns) (length uns1)) as [|Hneq]; [eauto|].
    destruct (IH w1 uns1) as (w2 & r & n & -> & Hn); [lia|].
    exists w2, r, (S n). split; [done|lia].
Qed.

(** C8: the overflow loop ends within [U] iterations, [U] the number of
    activities in the pool when it starts, whatever the fuel beyond [U]; an
    iteration that completes leaves a pool that is no longer, and the loop
    goes on only if the pool is shorter; and [createSchedule] returns or
    throws on every input. *)
Theorem overflow_loop_terminates :
  (∀ (w : world) (uns : list nat) (extra : nat),
     ∃ w' r n, overflow_loop (length uns + extra) w uns = Some (w', r, n)
               ∧ (n ≤ length uns)%nat)
  ∧ (∀ (w : world) (uns : list nat),
       match overflow_body w uns with
       | (w', Ret uns') =>
           (length uns' ≤ length uns)%nat
           ∧ ∀ fuel, length uns' = length uns → uns ≠ [] →
               overflow_loop (S fuel) w uns = Some (w', Ret uns', 1%nat)
       | (_, Throw _) => True
       end)
  ∧ (∀ (w : world) (events : list nat) (seed : option Z) (entropy : Z),
       is_Some (createSchedule w events seed entropy)).
Proof.
  split; [|split].
  - intros w uns extra. apply overflow_loop_fuel. lia.
  - intros w uns. destruct (overflow_body w uns) as [w' [uns'|ex]] eqn:Hb; [|done].
    split; [by eapply overflow_body_length|].
    intros fuel Hl Hne. destruct uns as [|e uns0]; [done|].
    cbn [overflow_loop]. rewrite Hb, Hl. by rewrite Nat.eqb_refl.
  - intros w events seed entropy. unfold createSchedule.
    destruct (for_of reset_body _ _) as [w0 [[]|ex]]; [|done].
    destruct (Random.shuffle _ _) as [rng1 evs].
    destruct (for_of phase1_body _ _) as [[w1 p1] [[]|ex]]; [|done].
    destruct (Random.shuffle _ _) as [rng2 wl].
    destruct (for_of phase2_body _ _) as [[w2 p2] [[]|ex]]; [|done].
    destruct (Random.shuffle _ _) as [rng3 fl].
    destruct (for_of phase3_body _ _) as [[w3 p3] [[]|ex]]; [|done].
    destruct (overflow_loop_fuel (length (unscheduled p3)) w3 (unscheduled p3))
      as (w4 & r & n & -> & _); [done|].
    destruct r as [u|ex]; [|done].
    by destruct (calculateMetrics w4 evs) as [w5 [[]|ex]].
Qed.

(** The witness: the pool of one activity of [two_for_one_room] after
    phase 3 is emptied by one iteration. *)
Lemma overflow_loop_terminates_witness :
  let w := built two_for_one_room in
  overflow_loop 1 w [1%nat] ≠ None
  ∧ (snd <$> overflow_loop 1 w [1%nat]) = Some 1%nat.
Proof.
  intros w.
  destruct overflow_loop_terminates as [H _].
  destruct (H w [1%nat] 0%nat) as (w' & r & n & Hl & Hn).
  change (length [1%nat] + 0)%nat with 1%nat in Hl.
  split; [by rewrite Hl|].
  vm_compute. reflexivity.
Defined.

(** ** No-overlap *)

(** C1, at the failing input: the only room supplied is named "UN 0".  The
    first activity is placed in it in phase 1; the second one is refused by
    every room and waits for phase 4, whose first overflow room is named
    "UN 0" as well; its new grid replaces the grid of the room, and the
    second activity is placed on the slot the first one is recorded to
    occupy.  Both activities end the run placed in "UN 0" on slot 0, and the
    grid holds one of them. *)
Theorem overflow_name_collision_overlaps :
  let r := createSchedule (built room_named_like_overflow) [0; 1]%nat (Some 7) 0 in
  let w := default (built room_named_like_overflow) (fst <$> r) in
  observe r
  = Some ([([(Fin 0, Fin 1)], "UN 0"%string, 1); ([(Fin 0, Fin 1)], "UN 0"%string, 1)],
          Ret 3, (2, 0, 0, 0))
  ∧ (name <$> locations (sched w)) = ["UN 0"%string; "UN 0"%string]
  ∧ scheduleGrid (sched w) !! "UN 0"%string = Some [Occ 1; Zero]
  ∧ ¬ no_overlap w.
Proof.
  intros r w.
  assert (H0 : heap w !! 0%nat
               = Some (set_metric 1 (set_placedLocation "UN 0" (set_indices [(Fin 0, Fin 1)]
                   (Event_new "CS 1" 5 480 540 ["M"%string] "UN" "0")))))
    by (vm_compute; reflexivity).
  assert (H1 : heap w !! 1%nat
               = Some (set_metric 1 (set_placedLocation "UN 0" (set_indices [(Fin 0, Fin 1)]
                   (Event_new "CS 2" 5 480 540 ["M"%string] "UN" "0")))))
    by (vm_compute; reflexivity).
  split; [vm_compute; reflexivity|].
  split; [vm_compute; reflexivity|].
  split; [vm_compute; reflexivity|].
  intros Hno.
  assert (Hocc : ∀ c, occupies (set_metric 1 (set_placedLocation "UN 0"
                   (set_indices [(Fin 0, Fin 1)]
                      (Event_new c 5 480 540 ["M"%string] "UN" "0")))) "UN 0" 0).
  { intros c. split; [discriminate|]. split; [reflexivity|]. by left. }
  specialize (Hno 0%nat 1%nat _ _ "UN 0"%string 0 H0 H1 (Hocc _) (Hocc _)).
  discriminate Hno.
Qed.

(** ** Arrays under [shuffle] *)

Lemma assoc_cons (k k' : Z) (v : option nat) (l : list (Z * option nat)) :
  assoc k' ((k, v) :: l) = if decide (k' = k) then v else assoc k' l.
Proof.
  simpl. destruct (Z.eqb_spec k' k); by case_decide.
Qed.

(** A write changes the key written and no other key. *)
Lemma arr_get_set (a : jsarray) (k k' : Z) (v : option nat) :
  arr_get (arr_set a k v) k' = if decide (k' = k) then v else arr_get a k'.
Proof.
  unfold arr_get, arr_set.
  destruct (Z.ltb_spec k 0) as [Hk|Hk]; cbn [elems props].
  - destruct (Z.ltb_spec k' 0) as [Hk'|Hk'].
    + apply assoc_cons.
    + case_decide; [lia|done].
  - destruct (Z.ltb_spec k' 0) as [Hk'|Hk'].
    + destruct (Nat.ltb_spec (Z.to_nat k) (length (elems a))); cbn [props];
        case_decide; (lia || done).
    + destruct (Nat.ltb_spec (Z.to_nat k) (length (elems a))) as [Hlt|Hge]; cbn [elems].
      * case_decide as Hd.
        -- subst. by rewrite list_lookup_insert_eq.
        -- rewrite list_lookup_insert_ne; [done|]. intros ?. apply Hd. lia.
      * case_decide as Hd.
        -- subst k'. rewrite lookup_app_r by lia.
           rewrite lookup_app_r by (rewrite length_replicate; lia).
           rewrite length_replicate.
           by replace (Z.to_nat k - length (elems a) - (Z.to_nat k - length (elems a)))%nat
             with 0%nat by lia.
        -- destruct (decide (Z.to_nat k' < length (elems a))%nat) as [Hin|Hout].
           ++ by rewrite lookup_app_l.
           ++ rewrite (lookup_ge_None_2 (elems a)) by lia.
              rewrite lookup_app_r by lia.
              destruct (decide (Z.to_nat k' < Z.to_nat k)%nat) as [Hbelow|Habove].
              ** rewrite lookup_app_l by (rewrite length_replicate; lia).
                 rewrite lookup_replicate_2 by lia. done.
              ** rewrite lookup_app_r by (rewrite length_replicate; lia).
                 rewrite length_replicate.
                 assert (Z.to_nat k' ≠ Z.to_nat k) by (intros ?; apply Hd; lia).
                 rewrite lookup_ge_None_2; [done|]. simpl. lia.
Qed.

(** A step of [shuffle] exchanges what two keys hold. *)
Lemma shuffle_step_get (i : nat) (st : Z * jsarray) :
  ∃ σ : Z → Z,
    (∀ k, σ (σ k) = k)
    ∧ ∀ k, arr_get (snd (Random.shuffle_step i st)) k = arr_get (snd st) (σ k).
Proof.
  unfold Random.shuffle_step.
  destruct (Random.nextFloat (fst st)) as [s f]. cbn [snd].
  set (j := Qfloor _).
  exists (λ k, if decide (k = j) then Z.of_nat i
               else if decide (k = Z.of_nat i) then j else k).
  split.
  - intros k. repeat case_decide; congruence.
  - intros k. rewrite !arr_get_set. repeat case_decide; congruence.
Qed.

Lemma shuffle_loop_get (n : nat) (st : Z * jsarray) :
  ∃ σ τ : Z → Z,
    (∀ k, σ (τ k) = k) ∧ (∀ k, τ (σ k) = k)
    ∧ ∀ k, arr_get (snd (Random.shuffle_loop n st)) k = arr_get (snd st) (σ k).
Proof.
  revert st. induction n as [|n IH]; intros st; simpl.
  - exists id, id. by repeat split.
  - destruct (IH (Random.shuffle_step (S n) st)) as (σ & τ & H1 & H2 & Hg).
    destruct (shuffle_step_get (S n) st) as (ρ & Hρ & Hs).
    exists (ρ ∘ σ), (τ ∘ ρ). repeat split; intros k; simpl.
    + by rewrite H1, Hρ.
    + by rewrite Hρ, H2.
    + by rewrite Hg, Hs.
Qed.

Lemma arr_get_elems (a : jsarray) (i : nat) :
  arr_get a (Z.of_nat i) = default None (elems a !! i).
Proof.
  unfold arr_get. destruct (Z.ltb_spec (Z.of_nat i) 0); [lia|].
  by rewrite Nat2Z.id.
Qed.

Lemma arr_of_inj (l : list nat) : NoDup l → arr_inj (arr_of l).
Proof.
  intros Hnd k1 k2 v. unfold arr_get, arr_of. cbn [elems props].
  destruct (Z.ltb_spec k1 0); [done|]. destruct (Z.ltb_spec k2 0); [done|].
  rewrite !list_lookup_fmap.
  destruct (l !! Z.to_nat k1) as [v1|] eqn:H1; [|done].
  destruct (l !! Z.to_nat k2) as [v2|] eqn:H2; [|done].
  simpl. intros [= ->] [= ->].
  pose proof (NoDup_lookup _ _ _ _ Hnd H1 H2). lia.
Qed.

Lemma defined_elem (l : list (option nat)) (v : nat) :
  v ∈ defined l ↔ Some v ∈ l.
Proof.
  unfold defined. rewrite list_elem_of_omap. split.
  - intros (x & Hx & Hv). simpl in Hv. by subst x.
  - intros H. by exists (Some v).
Qed.

Lemma defined_NoDup (l : list (option nat)) :
  (∀ i j v, l !! i = Some (Some v) → l !! j = Some (Some v) → i = j) →
  NoDup (defined l).
Proof.
  induction l as [|x l IH]; intros H; [constructor|].
  unfold defined. destruct x as [v|]; simpl.
  - constructor.
    + intros Hin%defined_elem. apply list_elem_of_lookup in Hin as [j Hj].
      specialize (H 0%nat (S j) v eq_refl Hj). done.
    + apply IH. intros i j v' Hi Hj. specialize (H (S i) (S j) v' Hi Hj). lia.
  - apply IH. intros i j v' Hi Hj. specialize (H (S i) (S j) v' Hi Hj). lia.
Qed.

(** [shuffle] keeps the references of an array apart and brings in none. *)
Lemma shuffle_defined (state : Z) (l : list nat) :
  NoDup l →
  NoDup (defined (elems (snd (Random.shuffle state (arr_of l)))))
  ∧ ∀ v, v ∈ defined (elems (snd (Random.shuffle state (arr_of l)))) → v ∈ l.
Proof.
  intros Hnd. unfold Random.shuffle.
  destruct (shuffle_loop_get (length (elems (arr_of l)) - 1) (state, arr_of l))
    as (σ & τ & H1 & H2 & Hg).
  set (a' := snd (Random.shuffle_loop _ _)) in *. cbn [snd] in Hg.
  split.
  - apply defined_NoDup. intros i j v Hi Hj.
    assert (Gi : arr_get a' (Z.of_nat i) = Some v) by (by rewrite arr_get_elems, Hi).
    assert (Gj : arr_get a' (Z.of_nat j) = Some v) by (by rewrite arr_get_elems, Hj).
    rewrite Hg in Gi, Gj.
    pose proof (arr_of_inj l Hnd _ _ _ Gi Gj) as Heq.
    apply (f_equal τ) in Heq. rewrite !H2 in Heq. lia.
  - intros v Hv%defined_elem. apply list_elem_of_lookup in Hv as [i Hi].
    assert (Gi : arr_get a' (Z.of_nat i) = Some v) by (by rewrite arr_get_elems, Hi).
    rewrite Hg in Gi. unfold arr_get, arr_of in Gi. cbn [elems props] in Gi.
    destruct (Z.ltb_spec (σ (Z.of_nat i)) 0); [done|].
    rewrite list_lookup_fmap in Gi.
    destruct (l !! Z.to_nat (σ (Z.of_nat i))) as [v'|] eqn:Hl; [|done].
    simpl in Gi. injection Gi as ->. by eapply list_elem_of_lookup_2.
Qed.

(** ** A placement keeps the bookkeeping *)

Lemma arr_write_in_range (v : cell) (arr : list cell) (k : Z) :
  0 ≤ k < Z.of_nat (length arr) → arr_write v arr k = <[Z.to_nat k := v]> arr.
Proof.
  intros Hk. unfold arr_write.
  destruct (Z.ltb_spec k 0); [lia|].
  destruct (Nat.ltb_spec (Z.to_nat k) (length arr)); [done|lia].
Qed.

Lemma foldl_arr_write_lookup (v : cell) (ks : list Z) (arr : list cell) (j : nat) :
  (∀ k, k ∈ ks → 0 ≤ k < Z.of_nat (length arr)) →
  foldl (arr_write v) arr ks !! j
  = if decide (Z.of_nat j ∈ ks) then
      (if decide (j < length arr)%nat then Some v else None)
    else arr !! j.
Proof.
  revert arr. induction ks as [|k ks IH]; intros arr Hks; cbn [foldl].
  - rewrite decide_False; [done|]. apply not_elem_of_nil.
  - assert (Hk : 0 ≤ k < Z.of_nat (length arr)) by (apply Hks; by left).
    rewrite arr_write_in_range by done.
    rewrite IH.
    2: { intros k' Hk'. rewrite length_insert. apply Hks. by right. }
    rewrite length_insert.
    destruct (decide (Z.of_nat j ∈ ks)) as [Hin|Hnin].
    + destruct (decide (Z.of_nat j ∈ k :: ks)) as [_|Hn]; [done|].
      exfalso. apply Hn, elem_of_cons. by right.
    + destruct (decide (Z.of_nat j = k)) as [Hjk|Hjk].
      * destruct (decide (Z.of_nat j ∈ k :: ks)) as [_|Hn].
        2: { exfalso. apply Hn, elem_of_cons. by left. }
        replace (Z.to_nat k) with j by lia.
        rewrite list_lookup_insert_eq by lia.
        destruct (decide (j < length arr)%nat); [done|lia].
      * destruct (decide (Z.of_nat j ∈ k :: ks)) as [Hy|_].
        { apply elem_of_cons in Hy as [?|?]; done. }
        rewrite list_lookup_insert_ne by lia. done.
Qed.

Lemma checks_passed (s : Schedule) (g : option (list cell))
    (ranges : list (num * num)) (k : Z) :
  first_hit (flat_map (range_tests s g) ranges) = Ret false →
  k ∈ flat_map slots ranges →
  ∃ arr, g = Some arr ∧ 0 ≤ k ∧ arr !! Z.to_nat k = Some Zero.
Proof.
  intros Hf Hk. rewrite first_hit_false in Hf.
  apply list_elem_of_In, in_flat_map in Hk. destruct Hk as (r & Hr & Hk).
  assert (Ht : rd g (Fin k) = Ret false).
  { apply Hf. apply list_elem_of_In, in_flat_map. exists r. split; [done|].
    apply list_elem_of_In. unfold range_tests. right.
    apply list_elem_of_fmap. exists k. split; [done|]. by apply list_elem_of_In. }
  destruct g as [arr|]; [|done]. exists arr. split; [done|].
  injection Ht as Ht. unfold grid_nonzero in Ht.
  destruct (Z.ltb_spec k 0); [done|]. split; [done|].
  by destruct (arr !! Z.to_nat k) as [[]|].
Qed.

Lemma grid_inv_frame (w w' : world) :
  sched w' = sched w →
  (∀ e ev', heap w' !! e = Some ev' →
     placedLocation ev' ≠ EmptyString → flat_map slots (indices ev') ≠ [] →
     heap w !! e = Some ev' ∨
     ∃ ev, heap w !! e = Some ev ∧ placedLocation ev' = placedLocation ev
           ∧ indices ev' = indices ev) →
  grid_inv w → grid_inv w'.
Proof.
  intros Hs Hh Hinv e ev' k Hev' Hpl Hk. rewrite Hs.
  destruct (Hh e ev' Hev' Hpl) as [Hsame|(ev & Hev & Hp & Hi)].
  - intros Hnil. rewrite Hnil in Hk. by apply elem_of_nil in Hk.
  - by eapply Hinv.
  - rewrite Hp. apply (Hinv e ev k Hev); [by rewrite <- Hp|by rewrite <- Hi].
Qed.

(** What one call of [placeEvent] without override does to the invariant,
    for an activity of the pool. *)
Lemma placeEvent_run_inv (w w' : world) (P : list nat) (e : nat)
    (loc : Location) (c : completion bool) :
  run_inv w P → e ∈ P →
  placeEvent w e loc false = (w', c) →
  match c with
  | Ret true => ∀ P', (∀ x, x ∈ P' → x ∈ P ∧ x ≠ e) → run_inv w' P'
  | Ret false => w' = w
  | Throw _ => grid_inv w'
  end.
Proof.
  intros (Hinv & Hfresh & Hidle) HeP Hp.
  destruct (Hidle e HeP) as (ev & Hev & Hpl & Hix).
  destruct c as [[|]|ex]; [| by eapply placeEvent_false_unchanged |].
  - (* placed *)
    intros P' HP'.
    unfold placeEvent in Hp. rewrite Hev in Hp.
    destruct (_ || _); [done|].
    set (ranges := getIndicesForEvent (sched w) (timeObj ev)) in *.
    set (w1 := upd_event e (λ x, fst (updateIndices ranges x)) w) in *.
    destruct (length ranges =? 0)%nat; [done|].
    destruct (capacity loc <? seats ev); [done|].
    destruct (first_hit _) as [[|]|ex] eqn:Hf; [done| |done].
    assert (H1 : heap w1 !! e = Some (set_indices ranges ev)).
    { subst w1. rewrite heap_upd_event, Hev.
      change (Some (fst (updateIndices ranges ev)) = Some (set_indices ranges ev)).
      by rewrite updateIndices_empty. }
    assert (Hother1 : ∀ x, x ≠ e → heap w1 !! x = heap w !! x).
    { intros x Hx. subst w1. by rewrite heap_upd_event_ne. }
    assert (Hidle' : ∀ w2, (∀ x, x ≠ e → heap w2 !! x = heap w !! x) →
                     ∀ x, x ∈ P' → idle w2 x).
    { intros w2 Hw2 x Hx. destruct (HP' x Hx) as [HxP Hne].
      destruct (Hidle x HxP) as (evx & Hevx & ?). exists evx.
      by rewrite Hw2. }
    destruct (flat_map slots ranges) as [|k0 ks0] eqn:Hks.
    + injection Hp as <-.
      split; [|split; [done|]].
      * eapply grid_inv_frame; [| |exact Hinv]; [done|].
        intros x evx Hx Hplx Hsl.
        destruct (decide (x = e)) as [->|Hne].
        -- rewrite heap_upd_event, H1 in Hx. injection Hx as <-.
           simpl in Hsl. by rewrite Hks in Hsl.
        -- left. by rewrite heap_upd_event_ne, Hother1 in Hx.
      * apply Hidle'. intros x Hx. by rewrite heap_upd_event_ne, Hother1.
    + assert (Hchk : ∀ k, k ∈ k0 :: ks0 →
                ∃ arr, scheduleGrid (sched w) !! name loc = Some arr
                       ∧ 0 ≤ k ∧ arr !! Z.to_nat k = Some Zero).
      { intros k Hk. rewrite <- Hks in Hk. by eapply checks_passed. }
      destruct (scheduleGrid (sched w) !! name loc) as [arr|] eqn:Hg.
      2: { destruct (Hchk k0) as (? & ? & _); [by left|done]. }
      injection Hp as <-.
      assert (Hrange : ∀ k, k ∈ k0 :: ks0 → 0 ≤ k < Z.of_nat (length arr)).
      { intros k Hk. destruct (Hchk k Hk) as (arr' & [= <-] & ? & Hl).
        apply lookup_lt_Some in Hl. lia. }
      split; [|split].
      * intros x evx k Hx Hplx Hk. cbn [upd_event upd_sched sched set_scheduleGrid scheduleGrid].
        destruct (decide (x = e)) as [->|Hne].
        -- rewrite heap_upd_event in Hx. cbn [upd_sched heap] in Hx.
           rewrite H1 in Hx. injection Hx as <-.
           cbn [set_placedLocation placedLocation set_indices indices] in *.
           rewrite Hks in Hk.
           exists (foldl (arr_write (Occ e)) arr (k0 :: ks0)).
           rewrite lookup_insert_eq. split; [done|].
           destruct (Hrange k Hk) as [? ?]. split; [done|].
           rewrite foldl_arr_write_lookup by done.
           rewrite decide_True by (by rewrite Z2Nat.id).
           by rewrite decide_True by lia.
        -- rewrite heap_upd_event_ne in Hx by done. cbn [upd_sched heap] in Hx.
           rewrite Hother1 in Hx by done.
           destruct (Hinv x evx k Hx Hplx Hk) as (arr0 & Harr0 & Hk0 & Hocc).
           destruct (decide (placedLocation evx = name loc)) as [Heq|Hneq].
           ++ rewrite Heq in *. rewrite Hg in Harr0. injection Harr0 as <-.
              exists (foldl (arr_write (Occ e)) arr (k0 :: ks0)).
              rewrite lookup_insert_eq. split; [done|]. split; [done|].
              rewrite foldl_arr_write_lookup by done.
              rewrite decide_False; [done|].
              rewrite Z2Nat.id by done. intros Hin.
              destruct (Hchk k Hin) as (arr' & [= <-] & _ & Hz). congruence.
           ++ exists arr0. by rewrite lookup_insert_ne.
      * intros n Hn. cbn [upd_event upd_sched sched set_scheduleGrid scheduleGrid].
        cbn [upd_event upd_sched sched set_scheduleGrid unscheduledCount] in Hn.
        specialize (Hfresh n Hn).
        destruct (decide (name loc = overflow_name n)) as [Heq|Hneq].
        -- rewrite Heq in Hg. congruence.
        -- by rewrite lookup_insert_ne.
      * apply Hidle'. intros x Hx. rewrite heap_upd_event_ne by done.
        cbn [upd_sched heap]. by apply Hother1.
  - (* an exception *)
    unfold placeEvent in Hp. rewrite Hev in Hp.
    destruct (_ || _); [done|].
    set (ranges := getIndicesForEvent (sched w) (timeObj ev)) in *.
    set (w1 := upd_event e (λ x, fst (updateIndices ranges x)) w) in *.
    assert (Hw1 : grid_inv w1).
    { eapply grid_inv_frame; [| |exact Hinv]; [done|].
      intros x evx Hx Hplx _.
      destruct (decide (x = e)) as [->|Hne].
      - subst w1. rewrite heap_upd_event, Hev in Hx.
        change (Some (fst (updateIndices ranges ev)) = Some evx) in Hx.
        rewrite updateIndices_empty in Hx by done. injection Hx as <-.
        done.
      - left. subst w1. by rewrite heap_upd_event_ne in Hx. }
    destruct (length ranges =? 0)%nat; [done|].
    destruct (capacity loc <? seats ev); [done|].
    destruct (first_hit _) as [[|]|ex'] eqn:Hf; [done| |by injection Hp as <-].
    destruct (flat_map slots ranges) as [|k0 ks0] eqn:Hks; [done|].
    destruct (scheduleGrid (sched w) !! name loc) as [arr|] eqn:Hg; [done|].
    by injection Hp as <-.
Qed.

(** ** The loops keep the bookkeeping *)

Lemma for_of_inv {A S : Type} (body : A → S → S * completion unit)
    (I : list A → S → Prop) (Q : S → Prop) :
  (∀ x l s s' c, I (x :: l) s → body x s = (s', c) →
     match c with Ret _ => I l s' | Throw _ => Q s' end) →
  ∀ l s s' c, I l s → for_of body l s = (s', c) →
    match c with Ret _ => I [] s' | Throw _ => Q s' end.
Proof.
  intros Hbody l. induction l as [|x l IH]; intros s s' c HI; simpl.
  - by intros [= <- <-].
  - destruct (body x s) as [s1 [[]|ex]] eqn:Hb.
    + specialize (Hbody x l s s1 _ HI Hb). simpl in Hbody. by apply IH.
    + intros [= <- <-]. by apply (Hbody x l s s1 (Throw ex) HI Hb).
Qed.

Lemma run_inv_subset (w : world) (P P' : list nat) :
  run_inv w P → (∀ x, x ∈ P' → x ∈ P) → run_inv w P'.
Proof. intros (? & ? & Hi) Hsub. repeat split; auto. Qed.

Lemma try_locs_run_inv (ls : list Location) (w w' : world) (P : list nat)
    (e : nat) (c : completion bool) :
  run_inv w P → e ∈ P →
  try_locs w e ls = (w', c) →
  match c with
  | Ret true => ∀ P', (∀ x, x ∈ P' → x ∈ P ∧ x ≠ e) → run_inv w' P'
  | Ret false => w' = w
  | Throw _ => grid_inv w'
  end.
Proof.
  intros Hinv He. induction ls as [|l ls IH]; simpl.
  - by intros [= <- <-].
  - destruct (placeEvent w e l false) as [w1 c1] eqn:Hp.
    pose proof (placeEvent_run_inv w w1 P e l c1 Hinv He Hp) as H1.
    destruct c1 as [[|]|ex].
    + by intros [= <- <-].
    + subst w1. apply IH.
    + by intros [= <- <-].
Qed.

Lemma arr_push_of (l : list nat) (e : nat) : arr_push (arr_of l) e = arr_of (l ++ [e]).
Proof. unfold arr_push, arr_of. simpl. by rewrite fmap_app. Qed.


Lemma perm_snoc_mid (A B C : list nat) (e : nat) :
  A ++ (B ++ [e]) ++ C ≡ₚ e :: A ++ B ++ C.
Proof.
  rewrite <- (assoc_L (++) B), !(assoc_L (++) A B). simpl.
  symmetry. apply Permutation_middle.
Qed.

Lemma perm_snoc_end (A B : list nat) (e : nat) :
  A ++ (B ++ [e]) ≡ₚ e :: A ++ B.
Proof.
  rewrite (assoc_L (++) A B). rewrite <- Permutation_cons_append. done.
Qed.

Lemma idle_lookup (w : world) (e : nat) :
  idle w e → ∃ ev, heap w !! e = Some ev.
Proof. intros (ev & ? & _). eauto. Qed.

Lemma run_inv_perm (w : world) (P P' : list nat) :
  run_inv w P → P' ≡ₚ P → run_inv w P'.
Proof.
  intros H Hp. eapply run_inv_subset; [exact H|]. intros x Hx. by rewrite <- Hp.
Qed.

Lemma phase1_body_inv (x : option nat) (l : list (option nat))
    (s s' : world * pools) (c : completion unit) :
  phase1_inv (x :: l) s → phase1_body x s = (s', c) →
  match c with Ret _ => phase1_inv l s' | Throw _ => grid_inv s'.1 end.
Proof.
  destruct s as [w p]. intros (W & F & HW & HF & HU & Hinv & Hnd) Hb.
  simpl in HW, HF, HU, Hinv, Hnd.
  unfold phase1_body in Hb.
  destruct x as [e|]; simpl in Hb.
  2: { injection Hb as <- <-. apply Hinv. }
  change (defined (Some e :: l)) with (e :: defined l) in *. simpl in Hinv, Hnd.
  assert (HeP : e ∈ e :: defined l ++ W ++ F) by (by left).
  destruct (idle_lookup w e (proj2 (proj2 Hinv) e HeP)) as (ev & Hev).
  rewrite Hev in Hb. simpl in Hb.
  assert (Hwait : phase1_inv l (w, fail_to_waiting e p)).
  { exists (W ++ [e]), F. simpl. rewrite HW, arr_push_of.
    split; [done|]. split; [done|]. split; [done|]. split.
    - eapply run_inv_perm; [exact Hinv|]. apply perm_snoc_mid.
    - by rewrite perm_snoc_mid. }
  assert (Hwait' : phase1_inv l
            (w, mkPools (failures p) (arr_push (waitingList p) e) (finalList p) (unscheduled p))).
  { destruct Hwait as (W' & F' & ? & ? & ? & ? & ?). by exists W', F'. }
  destruct (is_unknown (bldgCode ev)).
  { injection Hb as <- <-. exists W, (F ++ [e]). simpl. rewrite HF, arr_push_of.
    split; [done|]. split; [done|]. split; [done|].
    assert (Hperm : defined l ++ W ++ F ++ [e] ≡ₚ e :: defined l ++ W ++ F).
    { rewrite !(assoc_L (++)). by rewrite <- Permutation_cons_append. }
    split.
    - eapply run_inv_perm; [exact Hinv|]. exact Hperm.
    - by rewrite Hperm. }
  destruct (is_unknown (roomNumber ev)).
  { by injection Hb as <- <-. }
  destruct (findLoc (sched w) (pastLocationString ev)) as [loc|].
  2: { by injection Hb as <- <-. }
  destruct (placeEvent w e loc false) as [w1 c1] eqn:Hp.
  pose proof (placeEvent_run_inv w w1 _ e loc c1 Hinv HeP Hp) as H1.
  apply NoDup_cons in Hnd as [Hnin Hnd'].
  destruct c1 as [[|]|ex]; injection Hb as <- <-.
  - exists W, F. simpl. split; [done|]. split; [done|]. split; [done|].
    split; [|done]. apply H1. intros y Hy. split; [by right|]. by intros ->.
  - by subst w1.
  - done.
Qed.

Lemma phase2_body_inv (x : option nat) (l : list (option nat))
    (s s' : world * pools) (c : completion unit) :
  phase2_inv (x :: l) s → phase2_body x s = (s', c) →
  match c with Ret _ => phase2_inv l s' | Throw _ => grid_inv s'.1 end.
Proof.
  destruct s as [w p]. intros (F & HF & HU & Hinv & Hnd) Hb.
  simpl in HF, HU, Hinv, Hnd.
  unfold phase2_body in Hb.
  destruct x as [e|]; simpl in Hb.
  2: { injection Hb as <- <-. apply Hinv. }
  change (defined (Some e :: l)) with (e :: defined l) in *. simpl in Hinv, Hnd.
  assert (HeP : e ∈ e :: defined l ++ F) by (by left).
  destruct (idle_lookup w e (proj2 (proj2 Hinv) e HeP)) as (ev & Hev).
  rewrite Hev in Hb. simpl in Hb.
  assert (Hfinal : ∀ n, phase2_inv l
            (w, mkPools n (waitingList p) (arr_push (finalList p) e) (unscheduled p))).
  { intros n. exists (F ++ [e]). simpl. rewrite HF, arr_push_of.
    split; [done|]. split; [done|].
    assert (Hperm : defined l ++ F ++ [e] ≡ₚ e :: defined l ++ F).
    { rewrite !(assoc_L (++)). by rewrite <- Permutation_cons_append. }
    split.
    - eapply run_inv_perm; [exact Hinv|]. exact Hperm.
    - by rewrite Hperm. }
  destruct (length _ =? 0)%nat.
  { injection Hb as <- <-. apply Hfinal. }
  destruct (try_locs w e _) as [w1 c1] eqn:Hp.
  pose proof (try_locs_run_inv _ w w1 _ e c1 Hinv HeP Hp) as H1.
  apply NoDup_cons in Hnd as [Hnin Hnd'].
  destruct c1 as [[|]|ex]; injection Hb as <- <-.
  - exists F. simpl. split; [done|]. split; [done|].
    split; [|done]. apply H1. intros y Hy. split; [by right|]. by intros ->.
  - subst w1. apply Hfinal.
  - done.
Qed.

Lemma phase3_body_inv (x : option nat) (l : list (option nat))
    (s s' : world * pools) (c : completion unit) :
  phase3_inv (x :: l) s → phase3_body x s = (s', c) →
  match c with Ret _ => phase3_inv l s' | Throw _ => grid_inv s'.1 end.
Proof.
  destruct s as [w p]. intros (Hinv & Hnd) Hb. simpl in Hinv, Hnd.
  unfold phase3_body in Hb.
  destruct x as [e|]; simpl in Hb.
  2: { injection Hb as <- <-. apply Hinv. }
  change (defined (Some e :: l)) with (e :: defined l) in *. simpl in Hinv, Hnd.
  assert (HeP : e ∈ e :: defined l ++ unscheduled p) by (by left).
  destruct (idle_lookup w e (proj2 (proj2 Hinv) e HeP)) as (ev & Hev).
  rewrite Hev in Hb. simpl in Hb.
  destruct (try_locs w e _) as [w1 c1] eqn:Hp.
  pose proof (try_locs_run_inv _ w w1 _ e c1 Hinv HeP Hp) as H1.
  destruct c1 as [[|]|ex]; injection Hb as <- <-.
  - apply NoDup_cons in Hnd as [Hnin Hnd'].
    split; [|done]. simpl. apply H1. intros y Hy. split; [by right|]. by intros ->.
  - subst w1. unfold phase3_inv. simpl.
    assert (Hperm : defined l ++ unscheduled p ++ [e] ≡ₚ e :: defined l ++ unscheduled p).
    { rewrite !(assoc_L (++)). by rewrite <- Permutation_cons_append. }
    split.
    + eapply run_inv_perm; [exact Hinv|]. exact Hperm.
    + by rewrite Hperm.
  - done.
Qed.

Lemma phase4_body_inv (newLoc : Location) (e : nat) (l : list nat)
    (s s' : world * list nat) (c : completion unit) :
  phase4_inv (e :: l) s → phase4_body newLoc e s = (s', c) →
  match c with Ret _ => phase4_inv l s' | Throw _ => grid_inv s'.1 end.
Proof.
  destruct s as [w u]. intros (Hinv & Hndu & Hndl & Hsub) Hb.
  simpl in Hinv, Hndu, Hsub.
  unfold phase4_body in Hb.
  assert (HeP : e ∈ u) by (apply Hsub; by left).
  apply NoDup_cons in Hndl as [Hnin Hndl'].
  destruct (placeEvent w e newLoc false) as [w1 c1] eqn:Hp.
  pose proof (placeEvent_run_inv w w1 _ e newLoc c1 Hinv HeP Hp) as H1.
  destruct c1 as [[|]|ex]; injection Hb as <- <-.
  - split; [|split; [|split]]; simpl.
    + apply H1. intros y [Hy1 Hy2]%list_elem_of_filter. done.
    + by apply NoDup_filter.
    + done.
    + intros y Hy. apply list_elem_of_filter. split.
      * by intros ->.
      * apply Hsub. by right.
  - subst w1. split; [done|]. split; [done|]. split; [done|].
    intros y Hy. apply Hsub. by right.
  - done.
Qed.

(** *** The overflow rooms *)

Lemma overflow_name_inj (n1 n2 : nat) : overflow_name n1 = overflow_name n2 → n1 = n2.
Proof.
  unfold overflow_name, decimal. intros H. simpl in H. injection H as H.
  change (NilEmpty.string_of_uint (Nat.to_uint n1)
          = NilEmpty.string_of_uint (Nat.to_uint n2)) in H.
  apply (f_equal NilEmpty.uint_of_string) in H.
  rewrite !NilEmpty.usu in H. injection H as H.
  apply (f_equal Nat.of_uint) in H. by rewrite !DecimalNat.Unsigned.of_to in H.
Qed.

Lemma addUnscheduledLocation_run_inv (w : world) (P : list nat)
    (s1 : Schedule) (c : completion unit) :
  run_inv w P →
  addUnscheduledLocation (sched w) = (s1, c) →
  match c with
  | Ret _ => run_inv (mkWorld s1 (heap w)) P
  | Throw _ => grid_inv (mkWorld s1 (heap w))
  end.
Proof.
  intros (Hg & Hfr & Hidle). unfold addUnscheduledLocation.
  fold (overflow_name (unscheduledCount (sched w))).
  destruct (new_array (weekIntervals (sched w))) as [arr|ex]; intros [= <- <-].
  - split; [|split].
    + intros e ev k Hev Hpl Hk. simpl in Hev.
      destruct (Hg e ev k Hev Hpl Hk) as (arr0 & Ha & ? & ?).
      exists arr0. split; [|done]. simpl.
      rewrite lookup_insert_ne; [done|].
      intros Heq. rewrite <- Heq in Ha. by rewrite Hfr in Ha.
    + intros n Hn. simpl in *.
      rewrite lookup_insert_ne.
      * apply Hfr. lia.
      * intros Heq%overflow_name_inj. lia.
    + intros e He. destruct (Hidle e He) as (ev & ? & ? & ?). by exists ev.
  - intros e ev k Hev Hpl Hk. simpl in Hev.
    destruct (Hg e ev k Hev Hpl Hk) as (arr0 & Ha & ? & ?). by exists arr0.
Qed.

Lemma overflow_body_run_inv (w w' : world) (uns : list nat) (c : completion (list nat)) :
  run_inv w uns → NoDup uns →
  overflow_body w uns = (w', c) →
  match c with
  | Ret uns' => run_inv w' uns' ∧ NoDup uns'
  | Throw _ => grid_inv w'
  end.
Proof.
  intros Hinv Hnd. unfold overflow_body.
  destruct (addUnscheduledLocation (sched w)) as [s1 c1] eqn:Ha.
  pose proof (addUnscheduledLocation_run_inv w uns s1 c1 Hinv Ha) as H1.
  destruct c1 as [[]|ex]; [|by intros [= <- <-]].
  destruct (last (locations s1)) as [newLoc|]; [|intros [= <- <-]; apply H1].
  destruct (for_of _ _ _) as [[w1 uns1] c2] eqn:Hf.
  assert (H0 : phase4_inv uns (mkWorld s1 (heap w), uns)).
  { split; [exact H1|]. split; [exact Hnd|]. split; [exact Hnd|]. done. }
  pose proof (for_of_inv (phase4_body newLoc) phase4_inv (λ s, grid_inv s.1)
                (phase4_body_inv newLoc) uns _ _ c2 H0 Hf) as H2.
  destruct c2 as [[]|ex]; intros [= <- <-].
  - destruct H2 as (? & ? & _). done.
  - exact H2.
Qed.

Lemma overflow_loop_run_inv (fuel : nat) (w w' : world) (uns : list nat)
    (c : completion (list nat)) (n : nat) :
  run_inv w uns → NoDup uns →
  overflow_loop fuel w uns = Some (w', c, n) →
  grid_inv w'.
Proof.
  revert w w' uns c n. induction fuel as [|fuel IH]; intros w w' uns c n Hinv Hnd.
  - destruct uns; [|done]. intros [= <- _ _]. apply Hinv.
  - destruct uns as [|e uns0]; [intros [= <- _ _]; apply Hinv|].
    cbn [overflow_loop].
    destruct (overflow_body w (e :: uns0)) as [w1 c1] eqn:Hb.
    pose proof (overflow_body_run_inv w w1 _ c1 Hinv Hnd Hb) as H1.
    destruct c1 as [uns1|ex]; [|by intros [= <- _ _]].
    destruct H1 as [H1 H1'].
    destruct (length (e :: uns0) =? length uns1)%nat.
    + intros [= <- _ _]. apply H1.
    + destruct (overflow_loop fuel w1 uns1) as [[[w2 c2] n2]|] eqn:Hl; [|done].
      intros [= <- <- _]. by eapply IH.
Qed.

(** *** The reset, the metrics, and the whole run *)

Lemma reset_body_inv (events : list nat) (x : nat) (l : list nat)
    (w w' : world) (c : completion unit) :
  (grid_inv w ∧ fresh_names (sched w) ∧ ∀ e, e ∈ events → e ∉ x :: l → idle w e) →
  reset_body x w = (w', c) →
  match c with
  | Ret _ => grid_inv w' ∧ fresh_names (sched w') ∧ ∀ e, e ∈ events → e ∉ l → idle w' e
  | Throw _ => grid_inv w'
  end.
Proof.
  intros (Hg & Hfr & Hidle). unfold reset_body.
  destruct (heap w !! x) as [ev|] eqn:Hev; intros [= <- <-]; [|done].
  split; [|split; [done|]].
  - eapply grid_inv_frame; [| |exact Hg]; [done|].
    intros e ev' He Hpl _. destruct (decide (e = x)) as [->|Hne].
    + rewrite heap_upd_event, Hev in He. injection He as <-. done.
    + left. by rewrite heap_upd_event_ne in He.
  - intros e He Hnl. destruct (decide (e = x)) as [->|Hne].
    + exists (reset ev). by rewrite heap_upd_event, Hev.
    + destruct (Hidle e He) as (ev' & ? & ? & ?).
      { intros [?|?]%elem_of_cons; done. }
      exists ev'. by rewrite heap_upd_event_ne.
Qed.

Lemma reset_all_inv (events : list nat) (w w' : world) (c : completion unit) :
  grid_inv w → fresh_names (sched w) →
  for_of reset_body events w = (w', c) →
  match c with Ret _ => run_inv w' events | Throw _ => grid_inv w' end.
Proof.
  intros Hg Hfr Hf.
  pose proof (for_of_inv reset_body
    (λ l w, grid_inv w ∧ fresh_names (sched w) ∧ ∀ e, e ∈ events → e ∉ l → idle w e)
    grid_inv (reset_body_inv events) events w w' c) as H.
  destruct c as [[]|ex].
  - destruct H as (? & ? & Hi); [|done|].
    + split; [done|]. split; [done|]. intros e He Hn. done.
    + split; [done|]. split; [done|]. intros e He. apply Hi; [done|].
      apply not_elem_of_nil.
  - apply H; [|done]. split; [done|]. split; [done|]. intros e He Hn. done.
Qed.

Lemma metrics_body_inv (x : option nat) (l : list (option nat))
    (s s' : world * (Z * Z * Z * Z)) (c : completion unit) :
  grid_inv s.1 → metrics_body x s = (s', c) →
  match c with Ret _ => grid_inv s'.1 | Throw _ => grid_inv s'.1 end.
Proof.
  destruct s as [w t]. simpl. intros Hg. unfold metrics_body.
  destruct (x ≫= _) as [[e ev]|] eqn:Hx; [|by intros [= <- <-]].
  assert (Hev : heap w !! e = Some ev).
  { destruct x as [e'|]; [|done]. simpl in Hx.
    destruct (heap w !! e') as [ev'|] eqn:He'; [|done].
    simpl in Hx. by injection Hx as <- <-. }
  destruct (String.eqb _ _); intros [= <- <-]; [done|].
  assert (grid_inv (upd_event e (set_metric (tier (sched w) ev)) w)); [|done].
  eapply grid_inv_frame; [| |exact Hg]; [done|].
  intros e' ev' He' _ _. destruct (decide (e' = e)) as [->|Hne].
  - right. exists ev. rewrite heap_upd_event, Hev in He'. injection He' as <-. done.
  - left. by rewrite heap_upd_event_ne in He'.
Qed.

Lemma calculateMetrics_inv (w w' : world) (evs : jsarray) (c : completion unit) :
  grid_inv w → calculateMetrics w evs = (w', c) → grid_inv w'.
Proof.
  intros Hg. unfold calculateMetrics.
  destruct (for_of metrics_body _ _) as [[w1 t1] c1] eqn:Hf.
  pose proof (for_of_inv metrics_body (λ _ s, grid_inv s.1) (λ s, grid_inv s.1)
                metrics_body_inv (elems evs) (w, (0, 0, 0, 0)) (w1, t1) c1 Hg Hf) as H.
  destruct c1 as [[]|ex]; intros [= <- <-]; [|done].
  intros e ev k He Hpl Hk. simpl in *. by apply H.
Qed.

Lemma grid_inv_no_overlap (w : world) : grid_inv w → no_overlap w.
Proof.
  intros Hg e1 e2 ev1 ev2 r k H1 H2 (Hp1 & Hr1 & Hk1) (Hp2 & Hr2 & Hk2).
  destruct (Hg e1 ev1 k H1 Hp1 Hk1) as (arr1 & Ha1 & _ & Ho1).
  destruct (Hg e2 ev2 k H2 Hp2 Hk2) as (arr2 & Ha2 & _ & Ho2).
  rewrite Hr1 in Ha1. rewrite Hr2 in Ha2. congruence.
Qed.

(** No-overlap holds after every run, completed or ended by an exception,
    that starts from a state in which it holds and in which no grid exists
    under the name of an overflow room that the run will make. *)
Theorem createSchedule_no_overlap (w w' : world) (events : list nat)
    (seed : option Z) (entropy : Z) (c : completion result) :
  grid_inv w → fresh_names (sched w) → NoDup events →
  createSchedule w events seed entropy = Some (w', c) →
  grid_inv w' ∧ no_overlap w'.
Proof.
  intros Hg Hfr Hnd Hrun.
  assert (grid_inv w'); [|split; [done|by apply grid_inv_no_overlap]].
  unfold createSchedule in Hrun.
  destruct (for_of reset_body events w) as [w0 c0] eqn:H0.
  pose proof (reset_all_inv events w w0 c0 Hg Hfr H0) as I0.
  destruct c0 as [[]|ex]; [|by injection Hrun as <- <-].
  destruct (Random.shuffle _ (arr_of events)) as [rng1 evs] eqn:Hs1.
  destruct (shuffle_defined (Random.new seed entropy) events Hnd) as [Hn1 Hsub1].
  rewrite Hs1 in Hn1, Hsub1. cbn [snd] in Hn1, Hsub1.
  (* phase 1 *)
  destruct (for_of phase1_body _ _) as [[w1 p1] c1] eqn:H1.
  assert (J1 : phase1_inv (elems evs) (w0, mkPools 0 (arr_of []) (arr_of []) [])).
  { exists [], []. simpl. rewrite !app_nil_r. repeat split; try done; try apply I0.
    intros e He. apply I0. by apply Hsub1. }
  pose proof (for_of_inv phase1_body phase1_inv (λ s, grid_inv s.1)
                phase1_body_inv _ _ _ c1 J1 H1) as I1.
  destruct c1 as [[]|ex]; [|by injection Hrun as <- <-].
  destruct I1 as (W & F & HW & HF & HU & Hinv1 & Hnd1). simpl in *.
  (* phase 2 *)
  rewrite HW in Hrun.
  destruct (Random.shuffle rng1 (arr_of W)) as [rng2 wl] eqn:Hs2.
  apply NoDup_app in Hnd1 as (HndW & HWF & HndF).
  destruct (shuffle_defined rng1 W HndW) as [Hn2 Hsub2].
  rewrite Hs2 in Hn2, Hsub2. cbn [snd] in Hn2, Hsub2.
  destruct (for_of phase2_body _ _) as [[w2 p2] c2] eqn:H2.
  assert (J2 : phase2_inv (elems wl)
                 (w1, mkPools (failures p1) wl (finalList p1) (unscheduled p1))).
  { exists F. simpl. split; [done|]. split; [done|]. split.
    - eapply run_inv_subset; [exact Hinv1|].
      intros x [Hx|Hx]%elem_of_app; apply elem_of_app; [left; by apply Hsub2|by right].
    - apply NoDup_app. split; [done|]. split; [|done].
      intros x Hx. apply HWF. by apply Hsub2. }
  pose proof (for_of_inv phase2_body phase2_inv (λ s, grid_inv s.1)
                phase2_body_inv _ _ _ c2 J2 H2) as I2.
  destruct c2 as [[]|ex]; [|by injection Hrun as <- <-].
  destruct I2 as (F2 & HF2 & HU2 & Hinv2 & Hnd2). simpl in *.
  (* phase 3 *)
  rewrite HF2 in Hrun.
  destruct (Random.shuffle rng2 (arr_of F2)) as [rng3 fl] eqn:Hs3.
  destruct (shuffle_defined rng2 F2 Hnd2) as [Hn3 Hsub3].
  rewrite Hs3 in Hn3, Hsub3. cbn [snd] in Hn3, Hsub3.
  destruct (for_of phase3_body _ _) as [[w3 p3] c3] eqn:H3.
  assert (J3 : phase3_inv (elems fl)
                 (w2, mkPools (failures p2) (waitingList p2) fl (unscheduled p2))).
  { split; simpl; rewrite HU2, app_nil_r; [|done].
    eapply run_inv_subset; [exact Hinv2|]. intros x Hx. by apply Hsub3. }
  pose proof (for_of_inv phase3_body phase3_inv (λ s, grid_inv s.1)
                phase3_body_inv _ _ _ c3 J3 H3) as I3.
  destruct c3 as [[]|ex]; [|by injection Hrun as <- <-].
  destruct I3 as (Hinv3 & Hnd3). simpl in *.
  (* phase 4 *)
  destruct (overflow_loop _ w3 _) as [[[w4 c4] n4]|] eqn:H4; [|done].
  pose proof (overflow_loop_run_inv _ _ _ _ _ _ Hinv3 Hnd3 H4) as I4.
  destruct c4 as [u4|ex]; [|by injection Hrun as <- <-].
  destruct (calculateMetrics w4 evs) as [w5 c5] eqn:H5.
  pose proof (calculateMetrics_inv _ _ _ _ I4 H5) as I5.
  by destruct c5 as [[]|ex]; injection Hrun as <- <-.
Qed.

Lemma fill_grid_lookup (ls : list Location) (wi : num)
    (acc g : gmap string (list cell)) (k : string) :
  fill_grid ls wi acc = Ret g →
  is_Some (g !! k) → is_Some (acc !! k) ∨ ∃ l, l ∈ ls ∧ name l = k.
Proof.
  revert acc. induction ls as [|l ls IH]; intros acc; simpl.
  - intros [= <-]. by left.
  - destruct (new_array wi) as [arr|]; [|done].
    intros Hf Hk. destruct (IH _ Hf Hk) as [Hacc|(l' & Hl' & Hn)].
    + destruct (decide (name l = k)) as [Heq|Hne].
      * right. exists l. split; [by left|done].
      * left. by rewrite lookup_insert_ne in Hacc.
    + right. exists l'. split; [by right|done].
Qed.

(** X1: on the engine as [generateSchedule] builds it (a new [Schedule],
    new event objects without a placement) and with no room supplied under
    the name of an overflow room, after a run of [createSchedule], however it
    ends, no two distinct placed activities hold the same slot of a location. *)
Corollary fresh_world_no_overlap (locs : list Location) (startMin_ endMin_ : Z)
    (activeDays : list string) (interval_ timeGap_ : Z) (evs : list Event)
    (seed : option Z) (entropy : Z) (w w' : world) (c : completion result) :
  fresh_world locs startMin_ endMin_ activeDays interval_ timeGap_ evs = Ret w →
  (∀ l n, l ∈ locs → name l ≠ overflow_name n) →
  (∀ ev, ev ∈ evs → placedLocation ev = EmptyString) →
  createSchedule w (seq 0 (length evs)) seed entropy = Some (w', c) →
  no_overlap w'.
Proof.
  unfold fresh_world, Schedule_new.
  destruct (fill_grid locs _ ∅) as [g|] eqn:Hfill; [|done].
  intros [= <-] Hnames Hevs Hrun.
  eapply createSchedule_no_overlap; [| | |exact Hrun].
  - intros e ev k He Hpl. simpl in He.
    exfalso. apply Hpl, Hevs. by eapply list_elem_of_lookup_2.
  - intros n _. simpl.
    destruct (g !! overflow_name n) as [arr|] eqn:Hg; [|done].
    destruct (fill_grid_lookup _ _ _ _ (overflow_name n) Hfill) as [Hacc|(l & Hl & Hn)].
    + by rewrite Hg.
    + rewrite lookup_empty in Hacc. by destruct Hacc.
    + by destruct (Hnames l n Hl).
  - apply NoDup_seq.
Qed.

(** ** The range of the generator *)

Lemma rne_bounds (n d : Z) : 0 < d → n / d ≤ rne n d ≤ n / d + 1.
Proof.
  intros Hd. unfold rne.
  destruct (2 * (n mod d) <? d); [lia|].
  destruct (d <? 2 * (n mod d)); [lia|].
  destruct (Z.even (n / d)); lia.
Qed.

Lemma fl53_small (z : Z) : Z.abs z < 2 ^ 53 → fl53 z = z.
Proof. intros H. unfold fl53. by destruct (Z.ltb_spec (Z.abs z) (2 ^ 53)); [|lia]. Qed.

(** Beyond 2^53 a double is even. *)
Lemma fl53_big (z : Z) :
  2 ^ 53 ≤ Z.abs z → ∃ q, fl53 z = Z.sgn z * (2 * q) ∧ 2 ^ 52 ≤ q.
Proof.
  intros H. unfold fl53.
  destruct (Z.ltb_spec (Z.abs z) (2 ^ 53)); [lia|].
  set (x := Z.abs z) in *.
  assert (Hlog : 53 ≤ Z.log2 x).
  { change 53 with (Z.log2 (2 ^ 53)). by apply Z.log2_le_mono. }
  set (e := Z.log2 x - 52).
  assert (He : 1 ≤ e) by (subst e; lia).
  assert (Hpow : 2 ^ e = 2 * 2 ^ (e - 1)).
  { replace e with (1 + (e - 1)) at 1 by lia. rewrite Z.pow_add_r by lia. done. }
  assert (Hpos : 0 < 2 ^ (e - 1)) by (apply Z.pow_pos_nonneg; lia).
  assert (Hx : 2 ^ 52 * 2 ^ e ≤ x).
  { rewrite <- Z.pow_add_r by lia. replace (52 + e) with (Z.log2 x) by (subst e; lia).
    apply Z.log2_spec. lia. }
  assert (Hq : 2 ^ 52 ≤ x / 2 ^ e) by (apply Z.div_le_lower_bound; lia).
  pose proof (rne_bounds x (2 ^ e) ltac:(lia)) as [Hr _].
  exists (rne x (2 ^ e) * 2 ^ (e - 1)). split; [rewrite Hpow; ring|nia].
Qed.

Lemma fl53_sign (z : Z) : (0 ≤ z → 0 ≤ fl53 z) ∧ (z ≤ 0 → fl53 z ≤ 0).
Proof.
  destruct (Z.lt_ge_cases (Z.abs z) (2 ^ 53)) as [Hs|Hb].
  - rewrite fl53_small by done. lia.
  - destruct (fl53_big z Hb) as (q & -> & Hq). split; intros Hz.
    + assert (0 ≤ Z.sgn z) by lia. nia.
    + assert (Z.sgn z ≤ 0) by lia. nia.
Qed.

(** From a state that is not negative [nextInt] never yields [m - 1]: the
    state that would, 230538014, has a product beyond 2^53, which is
    rounded to an even number. *)
Lemma nextInt_nonneg (st : Z) :
  0 ≤ st → 0 ≤ Random.nextInt st < Random.m - 1.
Proof.
  intros Hst. unfold Random.nextInt, Random.a, Random.c, Random.m.
  set (p := fl53 (1103515245 * st)).
  set (q := fl53 (p + 12345)).
  assert (Hp : 0 ≤ p) by (apply fl53_sign; lia).
  assert (Hq : 0 ≤ q) by (apply fl53_sign; lia).
  rewrite Z.rem_mod_nonneg by lia.
  pose proof (Z.mod_pos_bound q 2147483648 ltac:(lia)) as Hb.
  split; [lia|].
  assert (Hne : q mod 2147483648 ≠ 2147483647); [|lia].
  pose proof (Z.div_mod q 2147483648 ltac:(lia)) as Hdm.
  intros Hm. rewrite Hm in Hdm.
  destruct (Z.lt_ge_cases (1103515245 * st + 12345) (2 ^ 53)) as [Hs|Hbig].
  - assert (p = 1103515245 * st) as Ep by (subst p; apply fl53_small; lia).
    assert (q = 1103515245 * st + 12345) as Eq by (subst q; rewrite Ep; apply fl53_small; lia).
    lia.
  - assert (Hpq : 2 ^ 53 ≤ Z.abs (p + 12345)).
    { destruct (Z.lt_ge_cases (1103515245 * st) (2 ^ 53)) as [Hs'|Hb'].
      - assert (p = 1103515245 * st) as -> by (subst p; apply fl53_small; lia). lia.
      - destruct (fl53_big (1103515245 * st) ltac:(lia)) as (r & Hr & Hr2).
        fold p in Hr. assert (Z.sgn (1103515245 * st) = 1) by lia. lia. }
    destruct (fl53_big (p + 12345) Hpq) as (r & Hr & _). fold q in Hr.
    assert (Z.sgn (p + 12345) = 1) by lia. lia.
Qed.

Lemma nextInt_neg (st : Z) : st < 0 → Random.nextInt st ≤ 0.
Proof.
  intros Hst. unfold Random.nextInt, Random.a, Random.c, Random.m.
  set (p := fl53 (1103515245 * st)).
  assert (Hp : p + 12345 ≤ 0).
  { destruct (Z.lt_ge_cases (Z.abs (1103515245 * st)) (2 ^ 53)) as [Hs|Hb].
    - subst p. rewrite fl53_small by done. lia.
    - destruct (fl53_big _ Hb) as (r & Hr & Hr2). fold p in Hr.
      assert (Z.sgn (1103515245 * st) = -1) by lia. lia. }
  pose proof (proj2 (fl53_sign (p + 12345)) Hp) as Hq.
  pose proof (Z.rem_nonpos (fl53 (p + 12345)) 2147483648 ltac:(lia) Hq). lia.
Qed.

Lemma rne_nonneg (n d : Z) : 0 ≤ n → 0 < d → 0 ≤ rne n d.
Proof.
  intros Hn Hd. pose proof (rne_bounds n d Hd). pose proof (Z.div_pos n d Hn Hd). lia.
Qed.

Lemma ilog2_below_unit (s d : Z) :
  0 < s → s < d → d < 2 ^ 31 → 2 ^ 30 ≤ d → ilog2 s d ≤ -1.
Proof.
  intros Hs Hsd Hd Hd'. unfold ilog2.
  assert (Z.log2 d = 30).
  { apply Z.log2_unique; lia. }
  assert (Z.log2 s ≤ 30).
  { assert (Z.log2 s < 31); [|lia]. apply Z.log2_lt_pow2; lia. }
  destruct (Z.leb_spec 0 (Z.log2 s - Z.log2 d)) as [Hge|Hlt].
  - replace (Z.log2 s - Z.log2 d) with 0 by lia.
    destruct (Z.leb_spec (d * 2 ^ 0) s); lia.
  - destruct (d <=? _); lia.
Qed.


Lemma fl64_nonpos (q : Q) : Qnum q ≤ 0 → (fl64 q <= 0)%Q.
Proof.
  intros Hq. unfold fl64.
  destruct (Z.eqb_spec (Qnum q) 0); [done|].
  destruct (Z.ltb_spec (Qnum q) 0); [|lia].
  set (sh := 52 - _).
  rewrite Qred_correct.
  destruct (Z.leb_spec 0 sh).
  - pose proof (rne_nonneg (Z.abs (Qnum q) * 2 ^ sh) (Z.pos (Qden q))
                  ltac:(pose proof (Z.pow_nonneg 2 sh); nia) ltac:(lia)).
    unfold Qle, Qopp. cbn [Qnum Qden]. lia.
  - assert (0 < 2 ^ (- sh)) by (apply Z.pow_pos_nonneg; lia).
    pose proof (rne_nonneg (Z.abs (Qnum q)) (Z.pos (Qden q) * 2 ^ (- sh))
                  ltac:(lia) ltac:(nia)).
    unfold Qle, Qopp, inject_Z. cbn [Qnum Qden]. nia.
Qed.




(** ** [shuffle] from a state that is not negative *)

Lemma rne_half (n d : Z) : 0 < d → 2 * d * rne n d ≤ 2 * n + d.
Proof.
  intros Hd. unfold rne.
  pose proof (Z.div_mod n d ltac:(lia)).
  pose proof (Z.mod_pos_bound n d Hd).
  destruct (Z.ltb_spec (2 * (n mod d)) d); [nia|].
  destruct (Z.ltb_spec d (2 * (n mod d))); [nia|].
  destruct (Z.even (n / d)); nia.
Qed.

Lemma ilog2_lower (n d : Z) :
  0 < n → 0 < d →
  (0 ≤ ilog2 n d → d * 2 ^ ilog2 n d ≤ n)
  ∧ (ilog2 n d < 0 → d ≤ n * 2 ^ (- ilog2 n d)).
Proof.
  intros Hn Hd. unfold ilog2.
  set (e0 := Z.log2 n - Z.log2 d).
  pose proof (Z.log2_spec n Hn) as [Hn1 _].
  pose proof (Z.log2_spec d Hd) as [_ Hd2].
  pose proof (Z.log2_nonneg n). pose proof (Z.log2_nonneg d).
  destruct (Z.leb_spec 0 e0) as [He|He].
  - destruct (Z.leb_spec (d * 2 ^ e0) n) as [Ht|Ht]; [split; [done|lia]|].
    split; intros He1.
    + assert (d * 2 ^ (e0 - 1) ≤ 2 ^ Z.succ (Z.log2 d) * 2 ^ (e0 - 1)).
      { apply Z.mul_le_mono_nonneg_r; [apply Z.pow_nonneg|]; lia. }
      rewrite <- Z.pow_add_r in H1 by lia.
      replace (Z.succ (Z.log2 d) + (e0 - 1)) with (Z.log2 n) in H1 by (subst e0; lia).
      lia.
    + assert (e0 = 0) as E0 by lia. rewrite E0. change (2 ^ (- (0 - 1))) with 2.
      assert (Z.log2 n = Z.log2 d) as El by (subst e0; lia).
      rewrite Z.pow_succ_r in Hd2 by lia. rewrite <- El in Hd2. lia.
  - destruct (Z.leb_spec d (n * 2 ^ (- e0))) as [Ht|Ht]; [split; [lia|done]|].
    split; intros He1; [lia|].
    assert (2 ^ Z.log2 n * 2 ^ (- (e0 - 1)) ≤ n * 2 ^ (- (e0 - 1))).
    { apply Z.mul_le_mono_nonneg_r; [apply Z.pow_nonneg|]; lia. }
    rewrite <- Z.pow_add_r in H1 by lia.
    replace (Z.log2 n + - (e0 - 1)) with (Z.succ (Z.log2 d)) in H1 by (subst e0; lia).
    lia.
Qed.

(** The index that [shuffle] draws: with a float [q / N] of at most
    [1 - 2^-32], scaled by [N], the rounded product has a floor below [N]. *)
Lemma fl64_floor_lt (q : Q) (N : Z) :
  0 < N < 2 ^ 32 →
  0 ≤ Qnum q →
  Qnum q * 2 ^ 32 ≤ N * (2 ^ 32 - 1) * Z.pos (Qden q) →
  0 ≤ Qfloor (fl64 q) < N.
Proof.
  intros HN Hq0 Hq. unfold fl64.
  destruct (Z.eqb_spec (Qnum q) 0) as [|Hnz]; [change (Qfloor 0%Q) with 0; lia|].
  destruct (Z.ltb_spec (Qnum q) 0); [lia|].
  replace (Z.abs (Qnum q)) with (Qnum q) by lia.
  set (n := Qnum q) in *. set (d := Z.pos (Qden q)) in *.
  assert (Hd : 0 < d) by (subst d; lia).
  pose proof (ilog2_lower n d ltac:(lia) Hd) as [Hl1 Hl2].
  set (e := ilog2 n d) in *. set (sh := 52 - e).
  rewrite (Qfloor_comp _ _ (Qred_correct _)).
  destruct (Z.leb_spec 0 sh) as [Hsh|Hsh].
  - set (P := 2 ^ sh). assert (HP : 0 < P) by (apply Z.pow_pos_nonneg; lia).
    set (r := rne (n * P) d).
    pose proof (rne_half (n * P) d Hd) as Hr. fold r in Hr.
    pose proof (rne_nonneg (n * P) d ltac:(nia) Hd) as Hr0. fold r in Hr0.
    assert (Hscaled : 2 ^ 52 * d ≤ n * P).
    { subst P sh. destruct (Z.lt_ge_cases e 0) as [Hneg|Hpos].
      - specialize (Hl2 Hneg).
        replace (52 - e) with (52 + - e) by lia. rewrite Z.pow_add_r by lia. nia.
      - specialize (Hl1 Hpos).
        assert (2 ^ 52 = 2 ^ (52 - e) * 2 ^ e) as E52.
        { rewrite <- Z.pow_add_r by lia. f_equal. lia. }
        rewrite E52. assert (0 < 2 ^ (52 - e)) by (apply Z.pow_pos_nonneg; lia). nia. }
    assert (Hlt : r < N * P).
    { destruct (Z.lt_ge_cases r (N * P)) as [|Hge]; [done|]. exfalso.
      assert (K1 : 2 * (d * (N * P)) ≤ 2 * (n * P) + d) by nia.
      assert (K2 : (n * P) * 2 ^ 32 ≤ (2 ^ 32 - 1) * (d * (N * P))) by nia.
      assert (K3 : 0 < d * (N * P)) by nia.
      lia. }
    unfold Qfloor. cbn [Qnum Qden]. rewrite Z2Pos.id by lia.
    split.
    + apply Z.div_pos; lia.
    + apply Z.div_lt_upper_bound; lia.
  - exfalso. assert (He : 52 < e) by (subst sh; lia).
    specialize (Hl1 ltac:(lia)).
    assert (2 ^ 53 ≤ 2 ^ e) by (apply Z.pow_le_mono_r; lia).
    nia.
Qed.

Lemma nextFloat_scaled (st : Z) :
  0 ≤ st →
  0 ≤ Qnum (snd (Random.nextFloat st))
  ∧ Qnum (snd (Random.nextFloat st)) * 2 ^ 32
    ≤ (2 ^ 32 - 1) * Z.pos (Qden (snd (Random.nextFloat st))).
Proof.
  intros Hst. pose proof (nextInt_nonneg st Hst) as Hn.
  unfold Random.nextFloat. cbn [snd]. set (s := Random.nextInt st) in *.
  unfold Random.m in *. unfold fl64. cbn [Qnum Qden].
  change (Z.pos (Z.to_pos (2147483648 - 1))) with 2147483647.
  destruct (Z.eqb_spec s 0) as [->|Hnz]; [simpl; lia|].
  replace (Z.abs s) with s by lia.
  pose proof (ilog2_below_unit s 2147483647 ltac:(lia) ltac:(lia) ltac:(lia) ltac:(lia)) as Hl.
  set (sh := 52 - ilog2 s 2147483647) in *.
  destruct (Z.leb_spec 0 sh); [|lia].
  destruct (Z.ltb_spec s 0); [lia|].
  set (P := 2 ^ sh).
  assert (HP : 2 ^ 53 ≤ P) by (apply Z.pow_le_mono_r; lia).
  set (r := rne (s * P) 2147483647).
  pose proof (rne_half (s * P) 2147483647 ltac:(lia)) as Hr. fold r in Hr.
  pose proof (rne_nonneg (s * P) 2147483647 ltac:(nia) ltac:(lia)) as Hr0. fold r in Hr0.
  assert (HA : s * P ≤ 2147483646 * P) by nia.
  assert (Hb : r * 2 ^ 32 ≤ (2 ^ 32 - 1) * P) by lia.
  pose proof (Qred_correct (Qmake r (Z.to_pos P))) as Hred.
  unfold Qeq in Hred. cbn [Qnum Qden] in Hred. rewrite Z2Pos.id in Hred by lia.
  set (Fn := Qnum (Qred _)) in *. set (Fd := Z.pos (Qden (Qred _))) in *.
  assert (0 < Fd) by (subst Fd; lia).
  split; nia.
Qed.






Lemma shuffle_loop_S (n : nat) (x : Z * jsarray) :
  Random.shuffle_loop (S n) x = Random.shuffle_loop n (Random.shuffle_step (S n) x).
Proof. reflexivity. Qed.





(** ** The engine on new objects *)

Lemma fresh_world_no_overlap_witness :
  let locs := [mkLocation "R 1" 10] in
  let evs := [Event_new "CS 1" 5 480 540 ["M"%string] "R" "1";
              Event_new "CS 2" 5 480 540 ["M"%string] "R" "1"] in
  let w := built two_for_one_room in
  let r := createSchedule w (seq 0 (length evs)) (Some 7) 0 in
  let w' := default w (fst <$> r) in
  let c := default (Throw TypeError) (snd <$> r) in
  fresh_world locs 480 600 ["Monday"%string] 60 0 evs = Ret w
  ∧ (∀ l n, l ∈ locs → name l ≠ overflow_name n)
  ∧ (∀ ev, ev ∈ evs → placedLocation ev = EmptyString)
  ∧ r = Some (w', c)
  ∧ no_overlap w'.
Proof.
  intros locs evs w r w' c.
  assert (H1 : fresh_world locs 480 600 ["Monday"%string] 60 0 evs = Ret w)
    by (vm_compute; reflexivity).
  assert (H2 : ∀ l n, l ∈ locs → name l ≠ overflow_name n).
  { intros l n Hl. apply list_elem_of_singleton in Hl as ->. discriminate. }
  assert (H3 : ∀ ev, ev ∈ evs → placedLocation ev = EmptyString).
  { intros ev Hev. subst evs.
    apply elem_of_cons in Hev as [->|Hev]; [reflexivity|].
    apply list_elem_of_singleton in Hev as ->. reflexivity. }
  assert (H4 : r = Some (w', c)) by (vm_compute; reflexivity).
  split; [exact H1|]. split; [exact H2|]. split; [exact H3|]. split; [exact H4|].
  exact (fresh_world_no_overlap locs 480 600 ["Monday"%string] 60 0 evs
           (Some 7) 0 w w' c H1 H2 H3 H4).
Defined.

(** ** What the constructor builds *)

Lemma fill_grid_spec (ls : list Location) (wi : num)
    (acc g : gmap string (list cell)) (k : string) :
  fill_grid ls wi acc = Ret g →
  g !! k = if decide (k ∈ name <$> ls)
           then match new_array wi with Ret arr => Some arr | Throw _ => None end
           else acc !! k.
Proof.
  revert acc. induction ls as [|l ls IH]; intros acc; cbn [fill_grid fmap list_fmap].
  - intros [= <-]. destruct (decide _) as [H|]; [|done]. by apply elem_of_nil in H.
  - destruct (new_array wi) as [arr|] eqn:Harr; [|done].
    intros Hf. rewrite (IH _ Hf).
    destruct (decide (k ∈ name <$> ls)) as [Hin|Hnin].
    + rewrite decide_True; [done|by right].
    + destruct (decide (k = name l)) as [->|Hne].
      * rewrite lookup_insert_eq. rewrite decide_True; [done|by left].
      * rewrite lookup_insert_ne by done.
        rewrite decide_False; [done|]. intros [?|?]%elem_of_cons; done.
Qed.

Lemma new_array_Ret (wi : num) (arr : list cell) :
  new_array wi = Ret arr →
  ∃ n, wi = Fin n ∧ 0 ≤ n < 2 ^ 32 ∧ arr = replicate (Z.to_nat n) Zero.
Proof.
  destruct wi as [z| | |]; cbn [new_array]; try done.
  destruct (Z.leb_spec 0 z), (Z.ltb_spec z (2 ^ 32)); cbn [andb]; try done.
  intros [= <-]. exists z. by repeat split.
Qed.

(** X5: a constructor call that returns keeps the locations it was given
    and gives them grids only: one under each name, all of the common
    length [weekIntervals], below 2^32, and holding 0 in every slot. *)
Theorem Schedule_new_grids (locs : list Location) (startMin_ endMin_ : Z)
    (activeDays : list string) (interval_ timeGap_ : Z) (s : Schedule) :
  Schedule_new locs startMin_ endMin_ activeDays interval_ timeGap_ = Ret s →
  locations s = locs ∧ unscheduledCount s = 0%nat
  ∧ (∀ k, is_Some (scheduleGrid s !! k) ↔ k ∈ name <$> locs)
  ∧ (∀ k arr, scheduleGrid s !! k = Some arr →
       ∃ n, weekIntervals s = Fin n ∧ 0 ≤ n < 2 ^ 32
            ∧ arr = replicate (Z.to_nat n) Zero).
Proof.
  unfold Schedule_new.
  destruct (fill_grid locs _ ∅) as [g|] eqn:Hfill; [|done].
  intros [= <-]. cbn [locations unscheduledCount scheduleGrid weekIntervals].
  split; [done|]. split; [done|]. split.
  - intros k. rewrite (fill_grid_spec _ _ _ _ k Hfill).
    destruct (decide (k ∈ name <$> locs)) as [Hin|Hnin].
    + split; [done|]. intros _.
      destruct locs as [|l ls]; [by apply elem_of_nil in Hin|].
      cbn [fill_grid] in Hfill. by destruct (new_array _).
    + rewrite lookup_empty. split; [by intros []|done].
  - intros k arr. rewrite (fill_grid_spec _ _ _ _ k Hfill).
    destruct (decide _); [|by rewrite lookup_empty].
    destruct (new_array _) as [arr'|] eqn:Harr; [|done].
    intros [= <-]. by apply new_array_Ret.
Qed.

Lemma Schedule_new_grids_witness :
  let s := sched (built two_rooms) in
  Schedule_new [mkLocation "R 1" 10; mkLocation "R 2" 10] 480 600 ["Monday"%string] 60 0 = Ret s
  ∧ locations s = [mkLocation "R 1" 10; mkLocation "R 2" 10] ∧ unscheduledCount s = 0%nat
  ∧ (∀ k, is_Some (scheduleGrid s !! k) ↔ k ∈ name <$> [mkLocation "R 1" 10; mkLocation "R 2" 10])
  ∧ (∀ k arr, scheduleGrid s !! k = Some arr →
       ∃ n, weekIntervals s = Fin n ∧ 0 ≤ n < 2 ^ 32
            ∧ arr = replicate (Z.to_nat n) Zero).
Proof.
  intros s.
  assert (H : Schedule_new [mkLocation "R 1" 10; mkLocation "R 2" 10] 480 600
                ["Monday"%string] 60 0 = Ret s) by (vm_compute; reflexivity).
  split; [exact H|].
  exact (Schedule_new_grids _ 480 600 ["Monday"%string] 60 0 s H).
Defined.




(** ** The contract of [placeEvent] *)



(** ** The metrics *)

Lemma tier_range (s : Schedule) (ev : Event) : 1 ≤ tier s ev ≤ 4.
Proof.
  unfold tier. repeat (match goal with |- context [if ?b then _ else _] => destruct b end);
    lia.
Qed.

Lemma tier_set_metric (s : Schedule) (ev : Event) (x : Z) :
  tier s (set_metric x ev) = tier s ev.
Proof. done. Qed.

Lemma count_tier_total (t : Z) (c : Z * Z * Z * Z) :
  total (count_tier t c) = total c + 1.
Proof.
  destruct c as [[[d sm] pf] wr]. unfold count_tier, total.
  destruct (t =? 1); [lia|]. destruct (t =? 2); [lia|]. destruct (t =? 3); lia.
Qed.

Lemma is_placed_upd_metric (w : world) (e : nat) (t : Z) (x : option nat) :
  is_placed (upd_event e (set_metric t) w) x = is_placed w x.
Proof.
  unfold is_placed. destruct x as [e'|]; [|done]. cbn [mbind option_bind].
  destruct (decide (e = e')) as [->|Hne].
  - rewrite heap_upd_event. by destruct (heap w !! e').
  - by rewrite heap_upd_event_ne.
Qed.

Lemma filter_iff {A : Type} (P Q : A → Prop) `{!∀ x, Decision (P x)}
    `{!∀ x, Decision (Q x)} (l : list A) :
  (∀ x, P x ↔ Q x) → filter P l = filter Q l.
Proof.
  intros HPQ. induction l as [|x l IH]; [done|].
  rewrite !filter_cons, IH.
  destruct (decide (P x)) as [HP|HP], (decide (Q x)) as [HQ|HQ]; try done.
  - by apply HPQ in HP.
  - by apply HPQ in HQ.
Qed.

Lemma metrics_loop_total (l : list (option nat)) (w w' : world) (c c' : Z * Z * Z * Z) :
  for_of metrics_body l (w, c) = ((w', c'), Ret tt) →
  sched w' = sched w
  ∧ total c' = total c + Z.of_nat (length (filter (λ x, is_placed w x = true) l)).
Proof.
  revert w c. induction l as [|x l IH]; intros w c; cbn [for_of].
  - intros [= <- <-]. split; [done|]. rewrite filter_nil. cbn [length]. lia.
  - destruct (metrics_body x (w, c)) as [[w1 c1] [[]|ex]] eqn:Hb; [|done].
    intros Hl. destruct (IH _ _ Hl) as [Hs Ht]. rewrite Hs, Ht. clear IH Hl Hs Ht.
    unfold metrics_body in Hb. rewrite filter_cons.
    destruct x as [e|]; [|done]. cbn [mbind option_bind] in *.
    destruct (heap w !! e) as [ev|] eqn:Hev; [|done].
    cbn [fmap option_fmap option_map] in Hb.
    assert (Hp : is_placed w (Some e) = negb (String.eqb (placedLocation ev) "")).
    { unfold is_placed. cbn [mbind option_bind]. by rewrite Hev. }
    destruct (String.eqb (placedLocation ev) "") eqn:Hpl; cbn [negb] in Hp.
    + injection Hb as <- <-. rewrite decide_False by (by rewrite Hp). done.
    + injection Hb as <- <-. rewrite decide_True by done.
      split; [done|]. rewrite count_tier_total. cbn [length].
      rewrite (filter_iff _ (λ x, is_placed w x = true)); [lia|].
      intros x. by rewrite is_placed_upd_metric.
Qed.

Lemma count_tier_nonneg (t : Z) (c : Z * Z * Z * Z) :
  (let '(d, sm, pf, wr) := c in 0 ≤ d ∧ 0 ≤ sm ∧ 0 ≤ pf ∧ 0 ≤ wr) →
  let '(d, sm, pf, wr) := count_tier t c in 0 ≤ d ∧ 0 ≤ sm ∧ 0 ≤ pf ∧ 0 ≤ wr.
Proof.
  destruct c as [[[d sm] pf] wr]. unfold count_tier.
  destruct (t =? 1); [lia|]. destruct (t =? 2); [lia|]. destruct (t =? 3); lia.
Qed.

Lemma metrics_loop_nonneg (l : list (option nat)) (w w' : world) (c c' : Z * Z * Z * Z) :
  for_of metrics_body l (w, c) = ((w', c'), Ret tt) →
  (let '(d, sm, pf, wr) := c in 0 ≤ d ∧ 0 ≤ sm ∧ 0 ≤ pf ∧ 0 ≤ wr) →
  let '(d, sm, pf, wr) := c' in 0 ≤ d ∧ 0 ≤ sm ∧ 0 ≤ pf ∧ 0 ≤ wr.
Proof.
  revert w c. induction l as [|x l IH]; intros w c; cbn [for_of].
  - by intros [= <- <-].
  - destruct (metrics_body x (w, c)) as [[w1 c1] [[]|ex]] eqn:Hb; [|done].
    intros Hl Hc. apply (IH _ _ Hl). clear IH Hl.
    unfold metrics_body in Hb.
    destruct (x ≫= _) as [[e ev]|]; [|done].
    destruct (String.eqb (placedLocation ev) ""); injection Hb as <- <-; [done|].
    by apply count_tier_nonneg.
Qed.

(** X8: when [calculateMetrics] returns, the four counters it stores are
    not negative and add up to the number of elements of the array that are
    placed activities (an activity that occurs twice in the array counts
    twice); of the schedule only the counters change. *)
Theorem calculateMetrics_total (w w' : world) (evs : jsarray) :
  calculateMetrics w evs = (w', Ret tt) →
  sched w' = set_metrics (metrics (sched w')) (sched w)
  ∧ total (metrics (sched w'))
    = Z.of_nat (length (filter (λ x, is_placed w x = true) (elems evs)))
  ∧ let '(d, sm, pf, wr) := metrics (sched w') in 0 ≤ d ∧ 0 ≤ sm ∧ 0 ≤ pf ∧ 0 ≤ wr.
Proof.
  unfold calculateMetrics.
  destruct (for_of metrics_body (elems evs) (w, (0, 0, 0, 0))) as [[w1 c1] [[]|ex]] eqn:Hl;
    [|done].
  intros [= <-]. destruct (metrics_loop_total _ _ _ _ _ Hl) as [Hs Ht].
  pose proof (metrics_loop_nonneg _ _ _ _ _ Hl ltac:(cbn; lia)) as Hn.
  cbn [upd_sched sched set_metrics metrics]. rewrite Hs.
  split; [done|]. split; [by rewrite Ht|done].
Qed.

Lemma calculateMetrics_total_witness :
  let w := fst (placeEvent (built two_for_one_room) 0 (mkLocation "R 1" 10) false) in
  let evs := arr_of [1; 0]%nat in
  let w' := fst (calculateMetrics w evs) in
  calculateMetrics w evs = (w', Ret tt)
  ∧ sched w' = set_metrics (metrics (sched w')) (sched w)
  ∧ total (metrics (sched w'))
    = Z.of_nat (length (filter (λ x, is_placed w x = true) (elems evs)))
  ∧ let '(d, sm, pf, wr) := metrics (sched w') in 0 ≤ d ∧ 0 ≤ sm ∧ 0 ≤ pf ∧ 0 ≤ wr.
Proof.
  intros w evs w'.
  assert (H : calculateMetrics w evs = (w', Ret tt)) by (vm_compute; reflexivity).
  split; [exact H|]. exact (calculateMetrics_total w w' evs H).
Defined.

Lemma metrics_loop_events (l : list (option nat)) (w w' : world)
    (c c' : Z * Z * Z * Z) (e : nat) (ev : Event) :
  for_of metrics_body l (w, c) = ((w', c'), Ret tt) →
  heap w !! e = Some ev →
  heap w' !! e
  = Some (set_metric (if decide (Some e ∈ l ∧ placedLocation ev ≠ EmptyString)
                      then tier (sched w) ev else metric ev) ev).
Proof.
  revert w c ev. induction l as [|x l IH]; intros w c ev; cbn [for_of].
  - intros [= <- <-] Hev. rewrite decide_False; [by destruct ev|].
    intros [H _]. by apply elem_of_nil in H.
  - destruct (metrics_body x (w, c)) as [[w1 c1] [[]|ex]] eqn:Hb; [|done].
    intros Hl Hev. unfold metrics_body in Hb.
    destruct x as [e0|]; [|done]. cbn [mbind option_bind] in Hb.
    destruct (heap w !! e0) as [ev0|] eqn:Hev0; [|done].
    cbn [fmap option_fmap option_map] in Hb.
    destruct (String.eqb_spec (placedLocation ev0) "") as [Hpl|Hpl].
    + injection Hb as <- <-. rewrite (IH _ _ _ Hl Hev). f_equal. f_equal.
      destruct (decide (Some e ∈ l ∧ _)) as [[Hin Hp]|Hn].
      * rewrite decide_True; [done|]. split; [by right|done].
      * rewrite decide_False; [done|]. intros [Hin Hp]. apply Hn. split; [|done].
        apply elem_of_cons in Hin as [[= ->]|Hin]; [|done]. congruence.
    + injection Hb as <- <-.
      destruct (decide (e0 = e)) as [->|Hne].
      * assert (ev0 = ev) as -> by congruence.
        assert (H1 : heap (upd_event e (set_metric (tier (sched w) ev)) w) !! e
                     = Some (set_metric (tier (sched w) ev) ev))
          by (by rewrite heap_upd_event, Hev).
        rewrite (IH _ _ _ Hl H1). f_equal.
        rewrite (decide_True (P := Some e ∈ Some e :: l ∧ _)) by (split; [by left|done]).
        cbn [upd_event sched]. rewrite tier_set_metric.
        destruct (decide _); by destruct ev.
      * assert (H1 : heap (upd_event e0 (set_metric (tier (sched w) ev0)) w) !! e = Some ev)
          by (by rewrite heap_upd_event_ne).
        rewrite (IH _ _ _ Hl H1). f_equal. f_equal. cbn [upd_event sched].
        destruct (decide (Some e ∈ l ∧ _)) as [[Hin Hp]|Hn].
        -- rewrite decide_True; [done|]. split; [by right|done].
        -- rewrite decide_False; [done|]. intros [Hin Hp]. apply Hn. split; [|done].
           apply elem_of_cons in Hin as [[= ->]|Hin]; done.
Qed.

(** X9: when [calculateMetrics] returns, an activity differs from what it
    was in its [metric] only; the metric of an activity of the array that
    is placed is its tier, a number from 1 to 4, and the metric of every
    other activity is what it was. *)
Theorem calculateMetrics_tiers (w w' : world) (evs : jsarray) (e : nat) (ev : Event) :
  calculateMetrics w evs = (w', Ret tt) →
  heap w !! e = Some ev →
  ∃ m, heap w' !! e = Some (set_metric m ev)
       ∧ (Some e ∈ elems evs → placedLocation ev ≠ EmptyString →
          m = tier (sched w) ev ∧ 1 ≤ m ≤ 4)
       ∧ (Some e ∉ elems evs ∨ placedLocation ev = EmptyString → m = metric ev).
Proof.
  unfold calculateMetrics.
  destruct (for_of metrics_body (elems evs) (w, (0, 0, 0, 0))) as [[w1 c1] [[]|ex]] eqn:Hl;
    [|done].
  intros [= <-] Hev. eexists. split.
  - cbn [upd_sched heap]. by apply (metrics_loop_events _ _ _ _ _ _ _ Hl).
  - split.
    + intros Hin Hp. rewrite decide_True by done. split; [done|apply tier_range].
    + intros Hn. rewrite decide_False; [done|]. intros [Hin Hp]. by destruct Hn.
Qed.

Lemma calculateMetrics_tiers_witness :
  let w := fst (placeEvent (built two_for_one_room) 0 (mkLocation "R 1" 10) false) in
  let evs := arr_of [1; 0]%nat in
  let w' := fst (calculateMetrics w evs) in
  let ev := set_placedLocation "R 1"
              (set_indices [(Fin 0, Fin 1)] (Event_new "CS 1" 5 480 540 ["M"%string] "R" "1")) in
  calculateMetrics w evs = (w', Ret tt)
  ∧ heap w !! 0%nat = Some ev
  ∧ ∃ m, heap w' !! 0%nat = Some (set_metric m ev)
         ∧ (Some 0%nat ∈ elems evs → placedLocation ev ≠ EmptyString →
            m = tier (sched w) ev ∧ 1 ≤ m ≤ 4)
         ∧ (Some 0%nat ∉ elems evs ∨ placedLocation ev = EmptyString → m = metric ev).
Proof.
  intros w evs w' ev.
  assert (H1 : calculateMetrics w evs = (w', Ret tt)) by (vm_compute; reflexivity).
  assert (H2 : heap w !! 0%nat = Some ev) by (vm_compute; reflexivity).
  split; [exact H1|]. split; [exact H2|].
  exact (calculateMetrics_tiers w w' evs 0 ev H1 H2).
Defined.

(** ** Looking locations up *)

Lemma head_split_prefix (s : string) :
  ∃ h t, split_space s = h :: t ∧ String.prefix h s = true.
Proof.
  induction s as [|ch s (h & t & Hs & Hp)]; cbn [split_space].
  - by exists EmptyString, [].
  - destruct (Ascii.eqb ch " ").
    + by exists EmptyString, (split_space s).
    + rewrite Hs. exists (String ch h), t. split; [done|].
      cbn [String.prefix]. by destruct (ascii_dec ch ch).
Qed.

Lemma building_prefix (l : Location) : String.prefix (building l) (name l) = true.
Proof.
  unfold building. destruct (head_split_prefix (name l)) as (h & t & -> & Hp). done.
Qed.

Lemma filter_sublist {A : Type} (P Q : A → Prop) `{!∀ x, Decision (P x)}
    `{!∀ x, Decision (Q x)} (l : list A) :
  (∀ x, P x → Q x) → filter P l `sublist_of` filter Q l.
Proof.
  intros HPQ. induction l as [|x l IH]; [done|].
  rewrite !filter_cons.
  destruct (decide (P x)) as [HP|HP], (decide (Q x)) as [HQ|HQ].
  - by apply sublist_skip.
  - by destruct HQ; apply HPQ.
  - by apply sublist_cons.
  - done.
Qed.

(** X10: the locations that [findLocsByBldg] returns for a building code
    include, in the order of [locations], every location whose [building]
    (the part of its name before the first space) is that code. *)
Theorem findLocsByBldg_includes_building (s : Schedule) (bldg : string) :
  same_building_locs s bldg `sublist_of` findLocsByBldg s bldg.
Proof.
  unfold same_building_locs, findLocsByBldg. apply fmap_sublist.
  apply filter_sublist. intros [i l] Hb. cbn [snd] in *. subst bldg.
  apply building_prefix.
Qed.

Lemma split_space_app (b r : string) :
  has_space b = false →
  split_space (b +:+ " " +:+ r) = b :: split_space r.
Proof.
  induction b as [|ch b IH]; cbn [has_space]; intros Hb.
  - done.
  - apply orb_false_iff in Hb as [Hch Hb].
    change (String ch b +:+ " " +:+ r) with (String ch (b +:+ " " +:+ r)).
    cbn [split_space]. rewrite Hch, IH by done. done.
Qed.

(** X11: [findLoc] looks a name whose room part is "00" or "000" up
    under the room "0" of the same building. *)
Theorem findLoc_zero_room (s : Schedule) (bldg : string) :
  has_space bldg = false →
  findLoc s (bldg +:+ " " +:+ "00") = findLoc s (bldg +:+ " " +:+ "0")
  ∧ findLoc s (bldg +:+ " " +:+ "000") = findLoc s (bldg +:+ " " +:+ "0").
Proof.
  intros Hb. unfold findLoc. rewrite !split_space_app by done. done.
Qed.

Lemma findLoc_zero_room_witness :
  has_space "SCI" = false
  ∧ findLoc (sched (built two_rooms)) ("SCI" +:+ " " +:+ "00")
    = findLoc (sched (built two_rooms)) ("SCI" +:+ " " +:+ "0")
  ∧ findLoc (sched (built two_rooms)) ("SCI" +:+ " " +:+ "000")
    = findLoc (sched (built two_rooms)) ("SCI" +:+ " " +:+ "0").
Proof.
  assert (H : has_space "SCI" = false) by reflexivity.
  split; [exact H|]. exact (findLoc_zero_room (sched (built two_rooms)) "SCI" H).
Defined.

(** ** Overflow rooms *)

(** X12: when no grid exists yet under the name of an overflow room still
    to be made, a call of [addUnscheduledLocation] that returns appends one
    location of 9999 seats under the next name, gives it a grid of
    [weekIntervals] slots that hold 0, keeps every grid that existed, and
    leaves the names of the overflow rooms still to be made unused. *)
Theorem addUnscheduledLocation_adds (s s' : Schedule) :
  fresh_names s →
  addUnscheduledLocation s = (s', Ret tt) →
  let nm := overflow_name (unscheduledCount s) in
  locations s' = locations s ++ [mkLocation nm 9999]
  ∧ unscheduledCount s' = S (unscheduledCount s)
  ∧ scheduleGrid s !! nm = None
  ∧ (∃ n, weekIntervals s = Fin n ∧ 0 ≤ n < 2 ^ 32
          ∧ scheduleGrid s' !! nm = Some (replicate (Z.to_nat n) Zero))
  ∧ (∀ k, k ≠ nm → scheduleGrid s' !! k = scheduleGrid s !! k)
  ∧ fresh_names s'.
Proof.
  intros Hfresh. unfold addUnscheduledLocation. cbv zeta.
  fold (overflow_name (unscheduledCount s)).
  destruct (new_array (weekIntervals s)) as [arr|] eqn:Harr; [|done].
  intros [= <-].
  cbn [locations set_unscheduledCount set_scheduleGrid set_locations unscheduledCount
       scheduleGrid].
  split; [done|]. split; [done|]. split; [by apply Hfresh|]. split.
  - destruct (new_array_Ret _ _ Harr) as (n & Hn & Hr & ->).
    exists n. split; [done|]. split; [done|]. by rewrite lookup_insert_eq.
  - split; [by intros k Hk; rewrite lookup_insert_ne|].
    intros n Hn.
    cbn [unscheduledCount scheduleGrid set_unscheduledCount set_scheduleGrid set_locations] in *.
    rewrite lookup_insert_ne; [apply Hfresh; lia|].
    intros Heq. apply overflow_name_inj in Heq. lia.
Qed.

Lemma addUnscheduledLocation_adds_witness :
  let s := sched (built two_rooms) in
  let s' := fst (addUnscheduledLocation s) in
  let nm := overflow_name (unscheduledCount s) in
  fresh_names s
  ∧ addUnscheduledLocation s = (s', Ret tt)
  ∧ locations s' = locations s ++ [mkLocation nm 9999]
  ∧ unscheduledCount s' = S (unscheduledCount s)
  ∧ scheduleGrid s !! nm = None
  ∧ (∃ n, weekIntervals s = Fin n ∧ 0 ≤ n < 2 ^ 32
          ∧ scheduleGrid s' !! nm = Some (replicate (Z.to_nat n) Zero))
  ∧ (∀ k, k ≠ nm → scheduleGrid s' !! k = scheduleGrid s !! k)
  ∧ fresh_names s'.
Proof.
  intros s s' nm.
  assert (H1 : fresh_names s).
  { intros n _.
    destruct (scheduleGrid s !! overflow_name n) as [arr|] eqn:Hg; [|reflexivity].
    assert (Hfill : fill_grid [mkLocation "R 1" 10; mkLocation "R 2" 10] (Fin 2) ∅
                    = Ret (scheduleGrid s)) by (vm_compute; reflexivity).
    destruct (fill_grid_lookup _ _ _ _ (overflow_name n) Hfill) as [Hacc|(l & Hl & Hk)];
      [rewrite Hg; by eexists|rewrite lookup_empty in Hacc; by destruct Hacc|].
    apply elem_of_cons in Hl as [->|Hl]; [discriminate|].
    apply list_elem_of_singleton in Hl as ->. discriminate. }
  assert (H2 : addUnscheduledLocation s = (s', Ret tt)) by (vm_compute; reflexivity).
  split; [exact H1|]. split; [exact H2|].
  exact (addUnscheduledLocation_adds s s' H1 H2).
Defined.

(** ** The scheduling state of an activity *)

(** X13: [updateIndices] records ranges once: on an activity without
    ranges it records the ranges given and returns [true]; if these are not
    empty, a further call returns [false] and changes nothing, until
    [reset] clears the ranges, the location and the metric. *)
Theorem updateIndices_once (r1 r2 : list (num * num)) (ev : Event) :
  indices ev = [] → r1 ≠ [] →
  updateIndices r1 ev = (set_indices r1 ev, true)
  ∧ updateIndices r2 (set_indices r1 ev) = (set_indices r1 ev, false)
  ∧ updateIndices r2 (reset (set_indices r1 ev)) = (set_indices r2 (reset ev), true)
  ∧ reset (reset ev) = reset ev.
Proof.
  intros Hix Hr1. unfold updateIndices. rewrite Hix. cbn [length Nat.eqb negb].
  split; [done|]. cbn [set_indices indices reset set_metric set_placedLocation].
  destruct r1 as [|r r1]; [done|]. done.
Qed.

Lemma updateIndices_once_witness :
  let ev := Event_new "CS 1" 5 480 540 ["M"%string] "R" "1" in
  let r1 := [(Fin 0, Fin 1)] in
  let r2 := [(Fin 1, Fin 2)] in
  indices ev = [] ∧ r1 ≠ []
  ∧ updateIndices r1 ev = (set_indices r1 ev, true)
  ∧ updateIndices r2 (set_indices r1 ev) = (set_indices r1 ev, false)
  ∧ updateIndices r2 (reset (set_indices r1 ev)) = (set_indices r2 (reset ev), true)
  ∧ reset (reset ev) = reset ev.
Proof.
  intros ev r1 r2.
  assert (H1 : indices ev = []) by reflexivity.
  assert (H2 : r1 ≠ []) by discriminate.
  split; [exact H1|]. split; [exact H2|].
  exact (updateIndices_once r1 r2 ev H1 H2).
Defined.

(** ** The length of a shuffled array *)

Lemma shuffle_index_le (st : Z) (i : nat) :
  Z.of_nat i + 1 < 2 ^ 32 →
  Qfloor (fl64 (snd (Random.nextFloat st) * inject_Z (Z.of_nat i + 1))) ≤ Z.of_nat i.
Proof.
  intros Hi. set (N := Z.of_nat i + 1) in *.
  destruct (Z.lt_ge_cases st 0) as [Hneg|Hpos].
  - pose proof (nextInt_neg st Hneg) as Hs.
    assert (Hf : (snd (Random.nextFloat st) <= 0)%Q).
    { unfold Random.nextFloat. cbn [snd]. apply fl64_nonpos. cbn [Qnum]. lia. }
    set (f := snd (Random.nextFloat st)) in *.
    assert (Hq : Qnum f ≤ 0).
    { unfold Qle in Hf. cbn [Qnum Qden] in Hf. lia. }
    assert (Hx : (fl64 (f * inject_Z N) <= 0)%Q).
    { apply fl64_nonpos. unfold Qmult, inject_Z. cbn [Qnum Qden]. nia. }
    apply Qfloor_resp_le in Hx. change (Qfloor 0) with 0 in Hx. lia.
  - pose proof (nextFloat_scaled st Hpos) as [Hf0 Hf1].
    set (f := snd (Random.nextFloat st)) in *.
    pose proof (fl64_floor_lt (f * inject_Z N) N ltac:(lia)) as Hj.
    destruct Hj as [Hj0 Hj1]; [| |lia].
    + unfold Qmult, inject_Z. cbn [Qnum Qden]. nia.
    + unfold Qmult, inject_Z. cbn [Qnum Qden]. rewrite Pos.mul_1_r. nia.
Qed.

Lemma arr_set_length (a : jsarray) (k : Z) (v : option nat) :
  k < Z.of_nat (length (elems a)) → length (elems (arr_set a k v)) = length (elems a).
Proof.
  intros Hk. unfold arr_set. destruct (Z.ltb_spec k 0); [done|].
  destruct (Nat.ltb_spec (Z.to_nat k) (length (elems a))); [|lia].
  cbn [elems]. apply length_insert.
Qed.

Lemma shuffle_step_length (i : nat) (st : Z) (arr : jsarray) :
  (i < length (elems arr))%nat → Z.of_nat (length (elems arr)) < 2 ^ 32 →
  length (elems (snd (Random.shuffle_step i (st, arr)))) = length (elems arr).
Proof.
  intros Hi Hlen. unfold Random.shuffle_step. cbn [fst snd].
  pose proof (shuffle_index_le st i ltac:(lia)) as Hj.
  destruct (Random.nextFloat st) as [s f]. cbn [snd] in *.
  rewrite arr_set_length; rewrite arr_set_length; lia.
Qed.

Lemma shuffle_loop_length (n : nat) (st : Z) (arr : jsarray) :
  (n < length (elems arr))%nat → Z.of_nat (length (elems arr)) < 2 ^ 32 →
  length (elems (snd (Random.shuffle_loop n (st, arr)))) = length (elems arr).
Proof.
  revert st arr. induction n as [|n IH]; intros st arr Hn Hlen; [done|].
  rewrite shuffle_loop_S.
  pose proof (shuffle_step_length (S n) st arr Hn Hlen) as Hs.
  destruct (Random.shuffle_step (S n) (st, arr)) as [st1 arr1]. cbn [snd] in Hs.
  rewrite IH; lia.
Qed.

Lemma shuffle_elems_length (st : Z) (arr : jsarray) :
  Z.of_nat (length (elems arr)) < 2 ^ 32 →
  length (elems (snd (Random.shuffle st arr))) = length (elems arr).
Proof.
  intros Hlen. unfold Random.shuffle.
  destruct (decide (length (elems arr) = 0%nat)) as [E0|Hne].
  - rewrite E0. cbn [Nat.sub Random.shuffle_loop snd]. done.
  - apply shuffle_loop_length; [lia|done].
Qed.

(** X14: what [shuffle] keeps whatever the state of the generator, also a
    negative one: the length of the array (the index it draws is never
    beyond the index it swaps with, and a negative index is the key of a
    property and no element); and, for an array of distinct references, no
    reference occurs twice among the elements and none is new. *)
Theorem shuffle_any_state (st : Z) (l : list nat) :
  NoDup l → Z.of_nat (length l) < 2 ^ 32 →
  length (elems (snd (Random.shuffle st (arr_of l)))) = length l
  ∧ NoDup (defined (elems (snd (Random.shuffle st (arr_of l)))))
  ∧ ∀ v, v ∈ defined (elems (snd (Random.shuffle st (arr_of l)))) → v ∈ l.
Proof.
  intros Hnd Hlen. split; [|by apply shuffle_defined].
  rewrite shuffle_elems_length; unfold arr_of; cbn [elems]; rewrite length_fmap; done.
Qed.

Lemma shuffle_any_state_witness :
  NoDup [10; 11; 12]%nat ∧ Z.of_nat (length [10; 11; 12]%nat) < 2 ^ 32
  ∧ length (elems (snd (Random.shuffle (-1) (arr_of [10; 11; 12]%nat)))) = length [10; 11; 12]%nat
  ∧ NoDup (defined (elems (snd (Random.shuffle (-1) (arr_of [10; 11; 12]%nat)))))
  ∧ ∀ v, v ∈ defined (elems (snd (Random.shuffle (-1) (arr_of [10; 11; 12]%nat))))
         → v ∈ [10; 11; 12]%nat.
Proof.
  assert (H1 : NoDup [10; 11; 12]%nat) by (apply (NoDup_seq 10 3)).
  assert (H2 : Z.of_nat (length [10; 11; 12]%nat) < 2 ^ 32) by (vm_compute; reflexivity).
  split; [exact H1|]. split; [exact H2|].
  exact (shuffle_any_state (-1) [10; 11; 12]%nat H1 H2).
Defined.

(** ** The failure count *)

Lemma for_of_count {A S : Type} (body : A → S → S * completion unit) (μ : S → Z) :
  (∀ x s s', body x s = (s', Ret tt) → μ s ≤ μ s' ≤ μ s + 1) →
  ∀ l s s', for_of body l s = (s', Ret tt) →
    μ s ≤ μ s' ≤ μ s + Z.of_nat (length l).
Proof.
  intros Hstep l. induction l as [|x l IH]; intros s s'; cbn [for_of].
  - intros [= <-]. cbn [length]. lia.
  - destruct (body x s) as [s1 [[]|ex]] eqn:Hb; [|done].
    intros Hl. specialize (IH _ _ Hl). specialize (Hstep _ _ _ Hb).
    cbn [length]. lia.
Qed.

Lemma arr_push_length (a : jsarray) (e : nat) :
  length (elems (arr_push a e)) = S (length (elems a)).
Proof. unfold arr_push. cbn [elems]. rewrite length_app. cbn [length]. lia. Qed.

Local Ltac count_pools :=
  cbn [fst snd failures waitingList finalList fail_to_waiting];
  rewrite ?arr_push_length; lia.

Lemma phase1_body_counts (x : option nat) (s s' : world * pools) :
  phase1_body x s = (s', Ret tt) →
  let lenW := λ st : world * pools, Z.of_nat (length (elems (waitingList st.2))) in
  let lenF := λ st : world * pools, Z.of_nat (length (elems (finalList st.2))) in
  lenW s - failures s.2 ≤ lenW s' - failures s'.2 ≤ lenW s - failures s.2 + 1
  ∧ lenW s + lenF s ≤ lenW s' + lenF s' ≤ lenW s + lenF s + 1
  ∧ failures s.2 ≤ failures s'.2 ≤ failures s.2 + 1.
Proof.
  destruct s as [w p]. unfold phase1_body.
  destruct (x ≫= _) as [[e ev]|]; [|done].
  destruct (is_unknown (bldgCode ev)).
  { intros [= <-]. count_pools. }
  destruct (is_unknown (roomNumber ev)).
  { intros [= <-]. count_pools. }
  destruct (findLoc _ _) as [loc|].
  - destruct (placeEvent w e loc false) as [w1 [[|]|ex]]; intros [= <-]; count_pools.
  - intros [= <-]. count_pools.
Qed.

Lemma phase2_body_counts (x : option nat) (s s' : world * pools) :
  phase2_body x s = (s', Ret tt) →
  failures s.2 ≤ failures s'.2 ≤ failures s.2 + 1
  ∧ Z.of_nat (length (elems (finalList s.2)))
    ≤ Z.of_nat (length (elems (finalList s'.2)))
    ≤ Z.of_nat (length (elems (finalList s.2))) + 1.
Proof.
  destruct s as [w p]. unfold phase2_body.
  destruct (x ≫= _) as [[e ev]|]; [|done].
  destruct (length _ =? 0)%nat.
  { intros [= <-]. count_pools. }
  destruct (try_locs _ _ _) as [w1 [[|]|ex]]; intros [= <-]; count_pools.
Qed.

Lemma phase3_body_counts (x : option nat) (s s' : world * pools) :
  phase3_body x s = (s', Ret tt) →
  failures s.2 ≤ failures s'.2 ≤ failures s.2 + 1.
Proof.
  destruct s as [w p]. unfold phase3_body.
  destruct (x ≫= _) as [[e ev]|]; [|done].
  destruct (try_locs _ _ _) as [w1 [[|]|ex]]; intros [= <-]; count_pools.
Qed.

(** X15: a run that completes reports a failure count between 0 and three
    times the number of activities (an activity fails at most once in each
    of the phases 1 to 3), and returns an array as long as the one it was
    given. *)
Theorem createSchedule_failures_bound (w w' : world) (events : list nat)
    (seed : option Z) (entropy : Z) (r : result) :
  Z.of_nat (length events) < 2 ^ 32 →
  createSchedule w events seed entropy = Some (w', Ret r) →
  0 ≤ res_failures r ≤ 3 * Z.of_nat (length events)
  ∧ length (elems (res_events r)) = length events.
Proof.
  intros Hn. unfold createSchedule.
  destruct (for_of reset_body events w) as [w0 [[]|ex]]; [|done].
  pose proof (shuffle_elems_length (Random.new seed entropy) (arr_of events)) as Hevs.
  destruct (Random.shuffle _ (arr_of events)) as [rng1 evs]. cbn [snd] in Hevs.
  unfold arr_of in Hevs at 1 2. cbn [elems] in Hevs. rewrite length_fmap in Hevs.
  specialize (Hevs Hn).
  destruct (for_of phase1_body _ _) as [[w1 p1] [[]|ex]] eqn:H1; [|done].
  pose proof (for_of_count phase1_body
    (λ st, Z.of_nat (length (elems (waitingList st.2))) - failures st.2)
    (λ x s s' H, proj1 (phase1_body_counts x s s' H)) _ _ _ H1) as Ha.
  pose proof (for_of_count phase1_body
    (λ st, Z.of_nat (length (elems (waitingList st.2)))
           + Z.of_nat (length (elems (finalList st.2))))
    (λ x s s' H, proj1 (proj2 (phase1_body_counts x s s' H))) _ _ _ H1) as Hb.
  pose proof (for_of_count phase1_body (λ st, failures st.2)
    (λ x s s' H, proj2 (proj2 (phase1_body_counts x s s' H))) _ _ _ H1) as Hb'.
  cbn in Ha, Hb, Hb'. rewrite Hevs in Ha, Hb, Hb'.
  pose proof (shuffle_elems_length rng1 (waitingList p1) ltac:(lia)) as Hwl.
  destruct (Random.shuffle rng1 (waitingList p1)) as [rng2 wl]. cbn [snd] in Hwl.
  destruct (for_of phase2_body _ _) as [[w2 p2] [[]|ex]] eqn:H2; [|done].
  pose proof (for_of_count phase2_body (λ st, failures st.2)
    (λ x s s' H, proj1 (phase2_body_counts x s s' H)) _ _ _ H2) as Hc.
  pose proof (for_of_count phase2_body
    (λ st, Z.of_nat (length (elems (finalList st.2))))
    (λ x s s' H, proj2 (phase2_body_counts x s s' H)) _ _ _ H2) as Hd.
  cbn in Hc, Hd. rewrite Hwl in Hc, Hd.
  pose proof (shuffle_elems_length rng2 (finalList p2) ltac:(lia)) as Hfl.
  destruct (Random.shuffle rng2 (finalList p2)) as [rng3 fl]. cbn [snd] in Hfl.
  destruct (for_of phase3_body _ _) as [[w3 p3] [[]|ex]] eqn:H3; [|done].
  pose proof (for_of_count phase3_body (λ st, failures st.2)
    phase3_body_counts _ _ _ H3) as He.
  cbn in He. rewrite Hfl in He.
  destruct (overflow_loop _ _ _) as [[[w4 [uns|ex]] k]|]; [|done|done].
  destruct (calculateMetrics w4 evs) as [w5 [[]|ex]]; [|done].
  intros [= <- <-]. cbn [res_failures res_events]. split; [lia|done].
Qed.

Lemma createSchedule_failures_bound_witness :
  let w := built two_for_one_room in
  let r := createSchedule w [0; 1]%nat (Some 7) 0 in
  let w' := default w (fst <$> r) in
  let res := match snd <$> r with Some (Ret x) => x | _ => mkResult 0 (arr_of []) end in
  Z.of_nat (length [0; 1]%nat) < 2 ^ 32
  ∧ r = Some (w', Ret res)
  ∧ 0 ≤ res_failures res ≤ 3 * Z.of_nat (length [0; 1]%nat)
  ∧ length (elems (res_events res)) = length [0; 1]%nat.
Proof.
  intros w r w' res.
  assert (H1 : Z.of_nat (length [0; 1]%nat) < 2 ^ 32) by (vm_compute; reflexivity).
  assert (H2 : r = Some (w', Ret res)) by (vm_compute; reflexivity).
  split; [exact H1|]. split; [exact H2|].
  exact (createSchedule_failures_bound w w' [0; 1]%nat (Some 7) 0 res H1 H2).
Defined.

(** ** Activities that cannot be placed *)

Lemma same_request_refl (ev : Event) : same_request ev ev.
Proof. by destruct ev. Qed.

Lemma same_request_step (ev ev' : Event) (f : Event → Event) :
  same_request ev ev' → (∀ x, same_request x (f x)) → same_request ev (f ev').
Proof.
  unfold same_request. intros H Hf. specialize (Hf ev').
  destruct (f ev') as [c1 s1 t1 p1 b1 r1 i1 l1 m1 d1].
  destruct ev' as [c2 s2 t2 p2 b2 r2 i2 l2 m2 d2]. destruct ev.
  unfold set_metric, set_placedLocation, set_indices in *. cbn in *. congruence.
Qed.

Lemma stuck_upd_other (ev : Event) (e e' : nat) (f : Event → Event) (w : world) :
  e' ≠ e → stuck ev e w → stuck ev e (upd_event e' f w).
Proof.
  intros Hne (ev' & H1 & H2 & H3 & H4). exists ev'.
  by rewrite heap_upd_event_ne.
Qed.

Lemma stuck_upd_sched (ev : Event) (e : nat) (f : Schedule → Schedule) (w : world) :
  (∀ s t, getIndicesForEvent (f s) t = getIndicesForEvent s t) →
  (∀ s, schStartMin (f s) = schStartMin s ∧ schEndMin (f s) = schEndMin s) →
  stuck ev e w → stuck ev e (upd_sched f w).
Proof.
  intros Hg Hb (ev' & H1 & H2 & H3 & H4). exists ev'.
  split; [done|]. split; [done|]. split; [done|].
  unfold unplaceable in *. cbn [upd_sched sched].
  rewrite Hg. destruct (Hb (sched w)) as [-> ->]. done.
Qed.

Lemma placeEvent_stuck (ev : Event) (e : nat) (w w' : world) (e' : nat)
    (loc : Location) (force : bool) (c : completion bool) :
  stuck ev e w → placeEvent w e' loc force = (w', c) →
  stuck ev e w' ∧ (e' = e → c = Ret false).
Proof.
  intros Hst Hp. destruct (decide (e' = e)) as [->|Hne].
  - destruct Hst as (ev' & H1 & H2 & H3 & H4).
    assert (Ht : timeObj ev' = timeObj ev) by (by rewrite H2).
    unfold placeEvent in Hp. rewrite H1, Ht in Hp.
    destruct (Z.ltb_spec (startMin (timeObj ev)) (schStartMin (sched w))) as [|Hs];
      cbn [orb] in Hp.
    { injection Hp as <- <-. split; [by exists ev'|done]. }
    destruct (Z.ltb_spec (schEndMin (sched w)) (endMin (timeObj ev))) as [|He].
    { injection Hp as <- <-. split; [by exists ev'|done]. }
    destruct H4 as [?|[?|Hnil]]; [lia|lia|].
    rewrite Hnil in Hp. cbn [length Nat.eqb] in Hp. injection Hp as <- <-.
    split; [|done].
    exists (fst (updateIndices [] ev')). rewrite heap_upd_event, H1.
    split; [done|]. unfold updateIndices.
    destruct (negb _); cbn [fst].
    + split; [done|]. split; [done|]. by right; right.
    + split; [by apply same_request_step|]. split; [done|]. by right; right.
  - split; [|done]. unfold placeEvent in Hp.
    destruct (heap w !! e') as [ev0|]; [|by injection Hp as <- <-].
    destruct (_ || _); [by injection Hp as <- <-|].
    set (ranges := getIndicesForEvent (sched w) (timeObj ev0)) in *.
    assert (Hw1 : stuck ev e (upd_event e' (λ x, fst (updateIndices ranges x)) w))
      by (by apply stuck_upd_other).
    set (w1 := upd_event e' _ w) in *.
    destruct (length ranges =? 0)%nat; [by injection Hp as <- <-|].
    assert (Hplace : ∀ w2 c2,
      match flat_map slots ranges, scheduleGrid (sched w) !! name loc with
      | [], _ => (upd_event e' (set_placedLocation (name loc)) w1, Ret true)
      | _ :: _, None => (w1, Throw TypeError)
      | ks, Some arr =>
          (upd_event e' (set_placedLocation (name loc))
             (upd_sched (set_scheduleGrid
                (<[name loc := foldl (arr_write (Occ e')) arr ks]> (scheduleGrid (sched w)))) w1),
           Ret true)
      end = (w2, c2) → stuck ev e w2).
    { intros w2 c2 H.
      destruct (flat_map slots ranges) as [|k0 ks].
      - injection H as <- <-. by apply stuck_upd_other.
      - destruct (scheduleGrid (sched w) !! name loc) as [arr|].
        + injection H as <- <-. apply stuck_upd_other; [done|].
          by apply stuck_upd_sched.
        + by injection H as <- <-. }
    destruct force; [by eapply Hplace|].
    destruct (capacity loc <? seats ev0).
    { injection Hp as <- <-. by apply stuck_upd_other. }
    destruct (first_hit _) as [[|]|ex].
    + injection Hp as <- <-. by apply stuck_upd_other.
    + by eapply Hplace.
    + by injection Hp as <- <-.
Qed.

Lemma try_locs_stuck (ev : Event) (e : nat) (ls : list Location) (w w' : world)
    (e' : nat) (c : completion bool) :
  stuck ev e w → try_locs w e' ls = (w', c) → stuck ev e w'.
Proof.
  revert w. induction ls as [|l ls IH]; intros w Hst; cbn [try_locs].
  - by intros [= <- <-].
  - destruct (placeEvent w e' l false) as [w1 c1] eqn:Hp.
    destruct (placeEvent_stuck _ _ _ _ _ _ _ _ Hst Hp) as [Hst1 _].
    destruct c1 as [[|]|ex]; [by intros [= <- <-]|by apply IH|by intros [= <- <-]].
Qed.

Lemma phase1_body_stuck (ev : Event) (e : nat) (x : option nat)
    (s s' : world * pools) (c : completion unit) :
  stuck ev e s.1 → phase1_body x s = (s', c) → stuck ev e s'.1.
Proof.
  destruct s as [w p]. cbn [fst]. intros Hst. unfold phase1_body.
  destruct (x ≫= _) as [[e' ev']|]; [|by intros [= <- <-]].
  destruct (is_unknown (bldgCode ev')); [by intros [= <- <-]|].
  destruct (is_unknown (roomNumber ev')); [by intros [= <- <-]|].
  destruct (findLoc _ _) as [loc|]; [|by intros [= <- <-]].
  destruct (placeEvent w e' loc false) as [w1 c1] eqn:Hp.
  destruct (placeEvent_stuck _ _ _ _ _ _ _ _ Hst Hp) as [Hst1 _].
  by destruct c1 as [[|]|ex]; intros [= <- <-].
Qed.

Lemma phase2_body_stuck (ev : Event) (e : nat) (x : option nat)
    (s s' : world * pools) (c : completion unit) :
  stuck ev e s.1 → phase2_body x s = (s', c) → stuck ev e s'.1.
Proof.
  destruct s as [w p]. cbn [fst]. intros Hst. unfold phase2_body.
  destruct (x ≫= _) as [[e' ev']|]; [|by intros [= <- <-]].
  destruct (length _ =? 0)%nat; [by intros [= <- <-]|].
  destruct (try_locs _ _ _) as [w1 c1] eqn:Hp.
  pose proof (try_locs_stuck _ _ _ _ _ _ _ Hst Hp) as Hst1.
  by destruct c1 as [[|]|ex]; intros [= <- <-].
Qed.

Lemma phase3_body_stuck (ev : Event) (e : nat) (x : option nat)
    (s s' : world * pools) (c : completion unit) :
  stuck ev e s.1 → phase3_body x s = (s', c) → stuck ev e s'.1.
Proof.
  destruct s as [w p]. cbn [fst]. intros Hst. unfold phase3_body.
  destruct (x ≫= _) as [[e' ev']|]; [|by intros [= <- <-]].
  destruct (try_locs _ _ _) as [w1 c1] eqn:Hp.
  pose proof (try_locs_stuck _ _ _ _ _ _ _ Hst Hp) as Hst1.
  by destruct c1 as [[|]|ex]; intros [= <- <-].
Qed.

Lemma phase4_body_stuck (ev : Event) (e : nat) (newLoc : Location) (x : nat)
    (s s' : world * list nat) (c : completion unit) :
  stuck ev e s.1 → phase4_body newLoc x s = (s', c) → stuck ev e s'.1.
Proof.
  destruct s as [w uns]. cbn [fst]. intros Hst. unfold phase4_body.
  destruct (placeEvent w x newLoc false) as [w1 c1] eqn:Hp.
  destruct (placeEvent_stuck _ _ _ _ _ _ _ _ Hst Hp) as [Hst1 _].
  by destruct c1 as [[|]|ex]; intros [= <- <-].
Qed.

Lemma for_of_keeps {A S : Type} (body : A → S → S * completion unit) (P : S → Prop) :
  (∀ x s s' c, P s → body x s = (s', c) → P s') →
  ∀ l s s' c, P s → for_of body l s = (s', c) → P s'.
Proof.
  intros Hb l. induction l as [|x l IH]; intros s s' c Hs; cbn [for_of].
  - by intros [= <- <-].
  - destruct (body x s) as [s1 [[]|ex]] eqn:Hx.
    + apply IH. by eapply Hb.
    + intros [= <- <-]. by eapply Hb.
Qed.

Lemma overflow_body_stuck (ev : Event) (e : nat) (w w' : world) (uns : list nat)
    (c : completion (list nat)) :
  stuck ev e w → overflow_body w uns = (w', c) → stuck ev e w'.
Proof.
  intros Hst. unfold overflow_body, addUnscheduledLocation.
  assert (H1 : stuck ev e (mkWorld (set_locations (locations (sched w) ++
                [mkLocation ("UN " +:+ decimal (unscheduledCount (sched w))) 9999]) (sched w))
                (heap w))).
  { destruct Hst as (ev' & ? & ? & ? & ?). by exists ev'. }
  destruct (new_array _) as [arr|]; [|by intros [= <- <-]].
  set (s1 := set_unscheduledCount _ _).
  assert (H2 : stuck ev e (mkWorld s1 (heap w))).
  { destruct Hst as (ev' & ? & ? & ? & ?). by exists ev'. }
  destruct (last (locations s1)) as [newLoc|]; [|by intros [= <- <-]].
  destruct (for_of _ _ _) as [[w2 uns2] c2] eqn:Hl.
  pose proof (for_of_keeps (phase4_body newLoc) (λ st, stuck ev e st.1)
    (phase4_body_stuck ev e newLoc) _ (_, _) _ _ H2 Hl) as H3. cbn [fst] in H3.
  by destruct c2; intros [= <- <-].
Qed.

Lemma overflow_loop_stuck (ev : Event) (e : nat) (fuel : nat) (w w' : world)
    (uns : list nat) (c : completion (list nat)) (n : nat) :
  stuck ev e w → overflow_loop fuel w uns = Some (w', c, n) → stuck ev e w'.
Proof.
  revert w w' uns c n. induction fuel as [|fuel IH]; intros w w' uns c n Hst;
    destruct uns as [|u uns]; cbn [overflow_loop]; try by intros [= <- <- <-].
  destruct (overflow_body w (u :: uns)) as [w1 [uns1|ex]] eqn:Hb;
    pose proof (overflow_body_stuck _ _ _ _ _ _ Hst Hb) as H1;
    [|by intros [= <- <- <-]].
  destruct (_ =? _)%nat; [by intros [= <- <- <-]|].
  destruct (overflow_loop fuel w1 uns1) as [[[w2 c2] n2]|] eqn:Hl; [|done].
  intros [= <- <- <-]. by eapply IH.
Qed.

Lemma reset_body_stuck (ev : Event) (e : nat) (x : nat) (w w' : world)
    (c : completion unit) :
  stuck ev e w → reset_body x w = (w', c) → stuck ev e w'.
Proof.
  intros Hst. unfold reset_body.
  destruct (heap w !! x) as [ev0|] eqn:Hx; [|by intros [= <- <-]].
  intros [= <- <-]. destruct (decide (x = e)) as [->|Hne]; [|by apply stuck_upd_other].
  destruct Hst as (ev' & H1 & H2 & H3 & H4). exists (reset ev').
  rewrite heap_upd_event, H1. split; [done|].
  split; [by apply same_request_step|]. done.
Qed.

Lemma metrics_body_stuck (ev : Event) (e : nat) (x : option nat)
    (s s' : world * (Z * Z * Z * Z)) (c : completion unit) :
  stuck ev e s.1 → metrics_body x s = (s', c) → stuck ev e s'.1.
Proof.
  destruct s as [w k]. cbn [fst]. intros Hst. unfold metrics_body.
  destruct x as [e'|]; [|by intros [= <- <-]]. cbn [mbind option_bind].
  destruct (heap w !! e') as [ev0|] eqn:He'; [|by intros [= <- <-]].
  cbn [fmap option_fmap option_map].
  destruct (String.eqb_spec (placedLocation ev0) "") as [Hpl|Hpl]; [by intros [= <- <-]|].
  intros [= <- <-]. cbn [fst]. apply stuck_upd_other; [|done].
  intros ->. destruct Hst as (ev' & H1 & _ & H3 & _). congruence.
Qed.

(** X16: an activity that is not placed and that no location can take (its
    window leaves the window of the schedule, or it has no range) is still
    not placed when [createSchedule] ends, however it ends: every call of
    [placeEvent] for it returns [false], also in the overflow rooms. *)
Theorem createSchedule_leaves_unplaceable (w w' : world) (events : list nat)
    (seed : option Z) (entropy : Z) (c : completion result) (e : nat) (ev : Event) :
  heap w !! e = Some ev →
  placedLocation ev = EmptyString →
  unplaceable (sched w) ev →
  createSchedule w events seed entropy = Some (w', c) →
  ∃ ev', heap w' !! e = Some ev' ∧ same_request ev ev'
         ∧ placedLocation ev' = EmptyString.
Proof.
  intros Hev Hpl Hun Hrun.
  assert (H0 : stuck ev e w).
  { exists ev. split; [done|]. split; [apply same_request_refl|done]. }
  assert (Hend : stuck ev e w'); [|by destruct Hend as (ev' & ? & ? & ? & ?); exists ev'].
  unfold createSchedule in Hrun.
  destruct (for_of reset_body events w) as [w0 c0] eqn:Hr.
  pose proof (for_of_keeps reset_body (stuck ev e) (reset_body_stuck ev e) _ _ _ _ H0 Hr) as S0.
  destruct c0 as [[]|ex]; [|by injection Hrun as <- <-].
  destruct (Random.shuffle _ (arr_of events)) as [rng1 evs].
  destruct (for_of phase1_body _ _) as [[w1 p1] c1] eqn:H1.
  pose proof (for_of_keeps phase1_body (λ st, stuck ev e st.1) (phase1_body_stuck ev e)
                _ (_, _) _ _ S0 H1) as S1. cbn [fst] in S1.
  destruct c1 as [[]|ex]; [|by injection Hrun as <- <-].
  destruct (Random.shuffle rng1 _) as [rng2 wl].
  destruct (for_of phase2_body _ _) as [[w2 p2] c2] eqn:H2.
  pose proof (for_of_keeps phase2_body (λ st, stuck ev e st.1) (phase2_body_stuck ev e)
                _ (_, _) _ _ S1 H2) as S2. cbn [fst] in S2.
  destruct c2 as [[]|ex]; [|by injection Hrun as <- <-].
  destruct (Random.shuffle rng2 _) as [rng3 fl].
  destruct (for_of phase3_body _ _) as [[w3 p3] c3] eqn:H3.
  pose proof (for_of_keeps phase3_body (λ st, stuck ev e st.1) (phase3_body_stuck ev e)
                _ (_, _) _ _ S2 H3) as S3. cbn [fst] in S3.
  destruct c3 as [[]|ex]; [|by injection Hrun as <- <-].
  destruct (overflow_loop _ _ _) as [[[w4 c4] k]|] eqn:H4; [|done].
  pose proof (overflow_loop_stuck _ _ _ _ _ _ _ _ S3 H4) as S4.
  destruct c4 as [uns|ex]; [|by injection Hrun as <- <-].
  unfold calculateMetrics in Hrun.
  destruct (for_of metrics_body _ _) as [[w5 k5] c5] eqn:H5.
  pose proof (for_of_keeps metrics_body (λ st, stuck ev e st.1) (metrics_body_stuck ev e)
                _ (_, _) _ _ S4 H5) as S5. cbn [fst] in S5.
  destruct c5 as [[]|ex]; injection Hrun as <- <-; [|done].
  destruct S5 as (ev' & ? & ? & ? & ?). by exists ev'.
Qed.

Lemma createSchedule_leaves_unplaceable_witness :
  let w := built negative_interval in
  let ev := Event_new "CS 1" 5 480 540 ["M"%string] "R" "1" in
  let r := createSchedule w [0%nat] (Some 7) 0 in
  let w' := default w (fst <$> r) in
  let c := default (Throw TypeError) (snd <$> r) in
  heap w !! 0%nat = Some ev
  ∧ placedLocation ev = EmptyString
  ∧ unplaceable (sched w) ev
  ∧ r = Some (w', c)
  ∧ ∃ ev', heap w' !! 0%nat = Some ev' ∧ same_request ev ev'
           ∧ placedLocation ev' = EmptyString.
Proof.
  intros w ev r w' c.
  assert (H1 : heap w !! 0%nat = Some ev) by (vm_compute; reflexivity).
  assert (H2 : placedLocation ev = EmptyString) by reflexivity.
  assert (H3 : unplaceable (sched w) ev) by (right; right; vm_compute; reflexivity).
  assert (H4 : r = Some (w', c)) by (vm_compute; reflexivity).
  split; [exact H1|]. split; [exact H2|]. split; [exact H3|]. split; [exact H4|].
  exact (createSchedule_leaves_unplaceable w w' [0%nat] (Some 7) 0 c 0 ev H1 H2 H3 H4).
Defined.

(** ** Runs that do not throw *)





























(** ** Activities that fit are placed *)





























Lemma Schedule_new_fields (locs : list Location) (startMin_ endMin_ : Z)
    (activeDays : list string) (interval_ timeGap_ : Z) (s : Schedule) :
  Schedule_new locs startMin_ endMin_ activeDays interval_ timeGap_ = Ret s →
  locations s = locs ∧ fill_grid locs (weekIntervals s) ∅ = Ret (scheduleGrid s).
Proof.
  unfold Schedule_new.
  destruct (fill_grid locs _ ∅) as [g|] eqn:Hfill; [|done].
  by intros [= <-].
Qed.



(** ** Placement with override *)

Lemma arr_write_keeps (v : cell) (arr : list cell) (k : Z) (i : nat) :
  arr !! i = Some v → arr_write v arr k !! i = Some v.
Proof.
  intros Hi. unfold arr_write. destruct (k <? 0); [done|].
  destruct (Nat.ltb_spec (Z.to_nat k) (length arr)).
  - destruct (decide (i = Z.to_nat k)) as [->|Hne].
    + by rewrite list_lookup_insert_eq.
    + by rewrite list_lookup_insert_ne.
  - by rewrite lookup_app_l by (by eapply lookup_lt_Some).
Qed.

Lemma arr_write_at (v : cell) (arr : list cell) (k : Z) :
  0 ≤ k → arr_write v arr k !! Z.to_nat k = Some v.
Proof.
  intros Hk. unfold arr_write. destruct (Z.ltb_spec k 0); [lia|].
  destruct (Nat.ltb_spec (Z.to_nat k) (length arr)).
  - by rewrite list_lookup_insert_eq.
  - rewrite lookup_app_r by lia. rewrite lookup_app_r by (rewrite length_replicate; lia).
    rewrite length_replicate. by rewrite Nat.sub_diag.
Qed.

Lemma arr_write_length (v : cell) (arr : list cell) (k : Z) :
  (length arr ≤ length (arr_write v arr k))%nat.
Proof.
  unfold arr_write. destruct (k <? 0); [done|].
  destruct (Nat.ltb_spec (Z.to_nat k) (length arr)).
  - by rewrite length_insert.
  - rewrite length_app. lia.
Qed.

Lemma foldl_arr_write_keeps (v : cell) (ks : list Z) (arr : list cell) (i : nat) :
  arr !! i = Some v → foldl (arr_write v) arr ks !! i = Some v.
Proof.
  revert arr. induction ks as [|k ks IH]; intros arr Hi; cbn [foldl]; [done|].
  apply IH. by apply arr_write_keeps.
Qed.

Lemma foldl_arr_write_at (v : cell) (ks : list Z) (arr : list cell) (k : Z) :
  k ∈ ks → 0 ≤ k → foldl (arr_write v) arr ks !! Z.to_nat k = Some v.
Proof.
  revert arr. induction ks as [|k0 ks IH]; intros arr Hk Hk0; cbn [foldl].
  - by apply elem_of_nil in Hk.
  - apply elem_of_cons in Hk as [->|Hk]; [|by apply IH].
    apply foldl_arr_write_keeps. by apply arr_write_at.
Qed.

Lemma foldl_arr_write_length (v : cell) (ks : list Z) (arr : list cell) :
  (length arr ≤ length (foldl (arr_write v) arr ks))%nat.
Proof.
  revert arr. induction ks as [|k ks IH]; intros arr; cbn [foldl]; [done|].
  etransitivity; [apply (arr_write_length v arr k)|apply IH].
Qed.

(** X19: with the override, [placeEvent] places an activity that lies
    within the schedule window and has a range in any location that has a
    grid, whatever the capacity of the location and whatever its slots hold:
    every slot of the ranges that is not negative holds the activity
    afterwards, the grid being extended where a slot lies beyond it. *)
Theorem placeEvent_force_overrides (w : world) (e : nat) (ev : Event) (loc : Location)
    (arr : list cell) :
  heap w !! e = Some ev →
  scheduleGrid (sched w) !! name loc = Some arr →
  schStartMin (sched w) ≤ startMin (timeObj ev) →
  endMin (timeObj ev) ≤ schEndMin (sched w) →
  getIndicesForEvent (sched w) (timeObj ev) ≠ [] →
  ∃ w', placeEvent w e loc true = (w', Ret true)
        ∧ (placedLocation <$> heap w' !! e) = Some (name loc)
        ∧ (flat_map slots (getIndicesForEvent (sched w) (timeObj ev)) ≠ [] →
           ∃ arr', scheduleGrid (sched w') !! name loc = Some arr'
                   ∧ (length arr ≤ length arr')%nat
                   ∧ ∀ k, k ∈ flat_map slots (getIndicesForEvent (sched w) (timeObj ev)) →
                          0 ≤ k → arr' !! Z.to_nat k = Some (Occ e)).
Proof.
  intros Hev Hg Hs He Hr. unfold placeEvent. rewrite Hev, Hg.
  destruct (Z.ltb_spec (startMin (timeObj ev)) (schStartMin (sched w))); [lia|].
  destruct (Z.ltb_spec (schEndMin (sched w)) (endMin (timeObj ev))); [lia|].
  cbn [orb].
  set (ranges := getIndicesForEvent (sched w) (timeObj ev)) in *.
  destruct (Nat.eqb_spec (length ranges) 0) as [Hlen|_];
    [by apply nil_length_inv in Hlen|].
  destruct (flat_map slots ranges) as [|k0 ks] eqn:Hks.
  - eexists. split; [done|]. split; [|done].
    rewrite !heap_upd_event, Hev. done.
  - eexists. split; [done|]. split.
    + rewrite heap_upd_event. cbn [upd_sched heap]. rewrite heap_upd_event, Hev. done.
    + intros _. eexists. split; [cbn; by rewrite lookup_insert_eq|].
      split; [apply (foldl_arr_write_length (Occ e) (k0 :: ks) arr)|].
      intros k Hk Hk0. exact (foldl_arr_write_at (Occ e) (k0 :: ks) arr k Hk Hk0).
Qed.

Lemma placeEvent_force_overrides_witness :
  let w := fst (placeEvent (built two_for_one_room) 0 (mkLocation "R 1" 10) false) in
  let ev := Event_new "CS 2" 5 480 540 ["M"%string] "R" "1" in
  let loc := mkLocation "R 1" 1 in
  let arr := [Occ 0; Zero] in
  heap w !! 1%nat = Some ev
  ∧ scheduleGrid (sched w) !! name loc = Some arr
  ∧ schStartMin (sched w) ≤ startMin (timeObj ev)
  ∧ endMin (timeObj ev) ≤ schEndMin (sched w)
  ∧ getIndicesForEvent (sched w) (timeObj ev) ≠ []
  ∧ ∃ w', placeEvent w 1 loc true = (w', Ret true)
          ∧ (placedLocation <$> heap w' !! 1%nat) = Some (name loc)
          ∧ (flat_map slots (getIndicesForEvent (sched w) (timeObj ev)) ≠ [] →
             ∃ arr', scheduleGrid (sched w') !! name loc = Some arr'
                     ∧ (length arr ≤ length arr')%nat
                     ∧ ∀ k, k ∈ flat_map slots (getIndicesForEvent (sched w) (timeObj ev)) →
                            0 ≤ k → arr' !! Z.to_nat k = Some (Occ 1)).
Proof.
  intros w ev loc arr.
  assert (H1 : heap w !! 1%nat = Some ev) by (vm_compute; reflexivity).
  assert (H2 : scheduleGrid (sched w) !! name loc = Some arr) by (vm_compute; reflexivity).
  assert (H3 : schStartMin (sched w) ≤ startMin (timeObj ev)) by (vm_compute; discriminate).
  assert (H4 : endMin (timeObj ev) ≤ schEndMin (sched w)) by (vm_compute; discriminate).
  assert (H5 : getIndicesForEvent (sched w) (timeObj ev) ≠ []) by (vm_compute; discriminate).
  split; [exact H1|]. split; [exact H2|]. split; [exact H3|]. split; [exact H4|].
  split; [exact H5|].
  exact (placeEvent_force_overrides w 1 ev loc arr H1 H2 H3 H4 H5).
Defined.

(** ** The generator as a linear congruential generator *)



(** ** Departments and tiers *)

Lemma take_upper_run (s : string) :
  ∃ post, s = take_upper s +:+ post
          ∧ all_chars is_upper (take_upper s) = true
          ∧ first_char (λ ch, negb (is_upper ch)) post = true.
Proof.
  induction s as [|ch s (post & Hs & Ha & Hp)]; cbn [take_upper].
  - by exists EmptyString.
  - destruct (is_upper ch) eqn:Hch.
    + exists post. cbn [all_chars]. rewrite Hch, Ha. split; [|done].
      change (String ch (take_upper s) +:+ post) with (String ch (take_upper s +:+ post)).
      by rewrite <- Hs.
    + exists (String ch s). cbn [first_char]. by rewrite Hch.
Qed.

(** X21: the department that [getDept] extracts is the first run of capital
    letters of the code, taken as far as it goes: nothing before it is a
    capital letter, it consists of capital letters, what follows it does not
    begin with one, and it is empty only if the code has no capital
    letter. *)
Theorem getDept_first_run (code : string) :
  ∃ pre post,
    code = pre +:+ getDept code +:+ post
    ∧ all_chars (λ ch, negb (is_upper ch)) pre = true
    ∧ all_chars is_upper (getDept code) = true
    ∧ first_char (λ ch, negb (is_upper ch)) post = true
    ∧ (getDept code = EmptyString → post = EmptyString).
Proof.
  induction code as [|ch s (pre & post & Hs & Hpre & Hd & Hpost & He)].
  - by exists EmptyString, EmptyString.
  - cbn [getDept]. destruct (is_upper ch) eqn:Hch.
    + destruct (take_upper_run (String ch s)) as (post' & Hs' & Ha' & Hp').
      exists EmptyString, post'. split; [exact Hs'|]. split; [done|].
      split; [done|]. split; [done|].
      cbn [take_upper]. by rewrite Hch.
    + exists (String ch pre), post. split.
      * change (String ch pre +:+ getDept s +:+ post)
          with (String ch (pre +:+ getDept s +:+ post)). by rewrite <- Hs.
      * cbn [all_chars]. rewrite Hch. done.
Qed.

Lemma split_no_space (r : string) : has_space r = false → split_space r = [r].
Proof.
  induction r as [|ch r IH]; cbn [has_space split_space]; [done|].
  intros [Hch Hr]%orb_false_iff. rewrite Hch, IH by done. done.
Qed.

(** X22: [calculateMetrics] gives tier 1 to an activity placed in the room
    its historical building and room name; but an activity whose historical
    room is "00" or "000", which phase 1 places in the room "0" of the
    building, gets tier 2 there. *)
Theorem tier_historical_room (s : Schedule) (ev : Event) :
  has_space (bldgCode ev) = false → has_space (roomNumber ev) = false →
  (placedLocation ev = bldgCode ev +:+ " " +:+ roomNumber ev → tier s ev = 1)
  ∧ (bldgCode ev ≠ "nan"%string → bldgCode ev ≠ EmptyString →
     roomNumber ev = "00"%string ∨ roomNumber ev = "000"%string →
     placedLocation ev = bldgCode ev +:+ " " +:+ "0" → tier s ev = 2).
Proof.
  intros Hb Hr. unfold tier. split.
  - intros ->. rewrite split_space_app, split_no_space by done.
    cbn [head default lookup list_lookup].
    destruct (_ || _); [done|]. rewrite String.eqb_refl. cbn [andb].
    by rewrite bool_decide_eq_true_2.
  - intros Hnan Hemp Hroom ->. rewrite split_space_app by done.
    cbn [split_space Ascii.eqb Bool.eqb head default lookup list_lookup].
    apply String.eqb_neq in Hnan, Hemp. rewrite Hnan, Hemp. cbn [orb].
    rewrite String.eqb_refl. cbn [andb].
    rewrite bool_decide_eq_false_2 by (destruct Hroom as [-> | ->]; discriminate).
    by destruct Hroom as [-> | ->].
Qed.

Lemma tier_historical_room_witness :
  let ev := set_placedLocation "R 1" (Event_new "CS 1" 5 480 540 ["M"%string] "R" "1") in
  let s := sched (built two_rooms) in
  has_space (bldgCode ev) = false ∧ has_space (roomNumber ev) = false
  ∧ (placedLocation ev = bldgCode ev +:+ " " +:+ roomNumber ev → tier s ev = 1)
  ∧ (bldgCode ev ≠ "nan"%string → bldgCode ev ≠ EmptyString →
     roomNumber ev = "00"%string ∨ roomNumber ev = "000"%string →
     placedLocation ev = bldgCode ev +:+ " " +:+ "0" → tier s ev = 2).
Proof.
  intros ev s.
  assert (H1 : has_space (bldgCode ev) = false) by reflexivity.
  assert (H2 : has_space (roomNumber ev) = false) by reflexivity.
  split; [exact H1|]. split; [exact H2|]. exact (tier_historical_room s ev H1 H2).
Defined.

(** ** The chart *)

Lemma drawn_app (e : nat) (nm : string) (r1 r2 : list bar) :
  drawn e nm (r1 ++ r2) = drawn e nm r1 + drawn e nm r2.
Proof.
  unfold drawn. induction r1 as [|b r1 IH]; cbn [app foldr]; [lia|].
  rewrite IH. destruct (decide _); lia.
Qed.

Lemma held_cons (e : nat) (c : cell) (grid : list cell) :
  held e (c :: grid) = (if decide (c = Occ e) then 1 else 0) + held e grid.
Proof.
  unfold held. rewrite filter_cons. destruct (decide (c = Occ e)); cbn [length]; lia.
Qed.

(** The length still to be drawn for [e] when the scan is at index [i]. *)
Lemma close_segment_drawn (w : world) (nm : string) (cur : option cell)
    (st i : Z) (rows rows' : list bar) (e : nat) (y : string) :
  close_segment w nm cur st i rows = Ret rows' →
  drawn e y rows'
  = drawn e y rows
    + (if decide (y = nm ∧ cur = Some (Occ e)) then (i - st) * interval (sched w) else 0).
Proof.
  unfold close_segment. destruct cur as [[|e'|]|].
  - intros [= <-]. rewrite decide_False by (by intros [_ ?]). lia.
  - destruct (heap w !! e') as [ev|]; [|done]. intros [= <-].
    rewrite drawn_app. unfold drawn at 2. cbn [foldr bar_y bar_event bar_x].
    destruct (decide (nm = y ∧ e' = e)) as [[-> ->]|Hn].
    + rewrite decide_True by done. lia.
    + rewrite decide_False; [lia|]. intros [-> [= ->]]. by apply Hn.
  - done.
  - intros [= <-]. rewrite decide_False by (by intros [_ ?]). lia.
Qed.

Lemma scan_drawn (w : world) (nm : string) (cells : list cell) (i : Z)
    (cur : option cell) (st : Z) (rows rows' : list bar) (e : nat) (y : string) :
  scan w nm cells i cur st rows = Ret rows' →
  drawn e y rows'
  = drawn e y rows
    + (if decide (y = nm)
       then interval (sched w)
            * (held e cells + (if decide (cur = Some (Occ e)) then i - st else 0))
       else 0).
Proof.
  revert i cur st rows. induction cells as [|c cells IH]; intros i cur st rows; cbn [scan].
  - destruct cur as [c|].
    + intros H. rewrite (close_segment_drawn _ _ _ _ _ _ _ e y H).
      unfold held. rewrite filter_nil. cbn [length].
      destruct (decide (y = nm)) as [->|Hy].
      * destruct (decide (Some c = Some (Occ e))) as [Hc|Hc].
        -- rewrite decide_True by done. lia.
        -- rewrite decide_False by (by intros [_ ?]). lia.
      * rewrite decide_False by (by intros [? _]). lia.
    + intros [= <-]. unfold held. rewrite filter_nil. cbn [length].
      destruct (decide (y = nm)); [|lia]. rewrite decide_False by done. lia.
  - rewrite held_cons. destruct (decide (Some c = cur)) as [<-|Hne].
    + intros H. rewrite (IH _ _ _ _ H).
      destruct (decide (y = nm)); [|done].
      destruct (decide (c = Occ e)) as [->|Hc].
      * rewrite !decide_True by done. lia.
      * rewrite !decide_False by congruence. lia.
    + destruct (close_segment w nm cur st i rows) as [rows1|] eqn:Hcl; [|done].
      intros H. rewrite (IH _ _ _ _ H), (close_segment_drawn _ _ _ _ _ _ _ e y Hcl).
      destruct (decide (y = nm)) as [->|Hy].
      * destruct (decide (c = Occ e)) as [->|Hc].
        -- rewrite (decide_True (P := Some (Occ e) = Some (Occ e))) by done.
           destruct (decide (cur = Some (Occ e))) as [->|Hcur]; [done|].
           rewrite decide_False by (by intros [_ ?]). lia.
        -- rewrite (decide_False (P := Some c = Some (Occ e))) by congruence.
           destruct (decide (cur = Some (Occ e))) as [->|Hcur].
           ++ rewrite decide_True by done. lia.
           ++ rewrite decide_False by (by intros [_ ?]). lia.
      * rewrite decide_False by (by intros [? _]). lia.
Qed.

Lemma plot_locations_drawn (w : world) (names : list string) (rows rows' : list bar)
    (e : nat) (y : string) :
  plot_locations w names rows = Ret rows' →
  drawn e y rows'
  = drawn e y rows
    + interval (sched w) * Z.of_nat (length (filter (λ nm, nm = y) names))
      * held e (default [] (scheduleGrid (sched w) !! y)).
Proof.
  revert rows. induction names as [|nm names IH]; intros rows; cbn [plot_locations].
  - intros [= <-]. rewrite filter_nil. cbn [length]. lia.
  - destruct (plot_location w nm rows) as [rows1|] eqn:Hp; [|done].
    intros H. rewrite (IH _ H). rewrite filter_cons. unfold plot_location in Hp.
    destruct (decide (nm = y)) as [->|Hne].
    + destruct (scheduleGrid (sched w) !! y) as [grid|].
      * rewrite (scan_drawn _ _ _ _ _ _ _ _ e y Hp).
        rewrite decide_True by done. rewrite decide_False by done.
        change (default [] (Some grid)) with grid. cbn [length].
        rewrite Nat2Z.inj_succ. ring.
      * injection Hp as <-. cbn [default]. unfold held. rewrite filter_nil.
        cbn [length]. ring.
    + destruct (scheduleGrid (sched w) !! nm) as [grid|].
      * rewrite (scan_drawn _ _ _ _ _ _ _ _ e y Hp).
        rewrite decide_False by done. lia.
      * injection Hp as <-. lia.
Qed.

(** X23: in the chart that [getPlotlyData] returns, the bars of an activity
    in the row of a location add up to the interval times the number of
    slots of the grid of that location that hold the activity, once for each
    location of that name. *)
Theorem getPlotlyData_drawn (w : world) (rows : list bar) (e : nat) (y : string) :
  getPlotlyData w = Ret rows →
  drawn e y rows
  = interval (sched w)
    * Z.of_nat (length (filter (λ l, name l = y) (locations (sched w))))
    * held e (default [] (scheduleGrid (sched w) !! y)).
Proof.
  unfold getPlotlyData. intros H. rewrite (plot_locations_drawn _ _ _ _ e y H).
  unfold drawn at 1. cbn [foldr]. unfold sortedLocs.
  assert (Hlen : length (filter (λ nm, nm = y)
                   (merge_sort name_le (name <$> locations (sched w))))
                 = length (filter (λ l, name l = y) (locations (sched w)))).
  { rewrite (Permutation_length
      (filter_Permutation _ _ _ (merge_sort_Permutation name_le _))).
    induction (locations (sched w)) as [|l ls IH]; [done|].
    cbn [fmap list_fmap]. rewrite !filter_cons.
    destruct (decide (name l = y)); cbn [length]; by rewrite IH. }
  rewrite Hlen. lia.
Qed.

Lemma getPlotlyData_drawn_witness :
  let w := default (built two_for_one_room)
             (fst <$> createSchedule (built two_for_one_room) [0; 1]%nat (Some 7) 0) in
  let rows := match getPlotlyData w with Ret r => r | Throw _ => [] end in
  getPlotlyData w = Ret rows
  ∧ drawn 0 "R 1" rows
    = interval (sched w)
      * Z.of_nat (length (filter (λ l, name l = "R 1"%string) (locations (sched w))))
      * held 0 (default [] (scheduleGrid (sched w) !! "R 1"%string)).
Proof.
  intros w rows.
  assert (H : getPlotlyData w = Ret rows) by (vm_compute; reflexivity).
  split; [exact H|]. exact (getPlotlyData_drawn w rows 0 "R 1" H).
Defined.

Lemma close_segment_exn (w : world) (nm : string) (cur : option cell) (st i : Z)
    (rows : list bar) (ex : exn) :
  close_segment w nm cur st i rows = Throw ex → ex = TypeError.
Proof.
  unfold close_segment. destruct cur as [[|e|]|]; try done.
  - destruct (heap w !! e); [done|]. by intros [= <-].
  - by intros [= <-].
Qed.

Lemma scan_exn (w : world) (nm : string) (cells : list cell) (i : Z)
    (cur : option cell) (st : Z) (rows : list bar) (ex : exn) :
  scan w nm cells i cur st rows = Throw ex → ex = TypeError.
Proof.
  revert i cur st rows. induction cells as [|c cells IH]; intros i cur st rows; cbn [scan].
  - destruct cur; [apply close_segment_exn|done].
  - destruct (decide (Some c = cur)); [apply IH|].
    destruct (close_segment w nm cur st i rows) eqn:Hc; [apply IH|].
    intros [= <-]. by eapply close_segment_exn.
Qed.



Lemma plot_locations_exn (w : world) (names : list string) (rows : list bar) (ex : exn) :
  plot_locations w names rows = Throw ex → ex = TypeError.
Proof.
  revert rows. induction names as [|nm names IH]; intros rows; cbn [plot_locations]; [done|].
  destruct (plot_location w nm rows) as [rows1|ex1] eqn:Hp; [apply IH|].
  intros [= <-]. unfold plot_location in Hp.
  destruct (scheduleGrid (sched w) !! nm); [by eapply scan_exn|done].
Qed.




(** *** The chart of a completed run *)

Lemma close_segment_tidy (w : world) (nm : string) (c : cell) (st i : Z) (rows : list bar) :
  (c = Zero ∨ ∃ e, c = Occ e ∧ is_Some (heap w !! e)) →
  ∃ rows', close_segment w nm (Some c) st i rows = Ret rows'.
Proof.
  intros [->|(e & -> & [ev Hev])]; cbn [close_segment]; [by eexists|].
  rewrite Hev. by eexists.
Qed.

Lemma scan_tidy (w : world) (nm : string) (cells : list cell) (i : Z)
    (cur : option cell) (st : Z) (rows : list bar) :
  (∀ c, c ∈ cells → c = Zero ∨ ∃ e, c = Occ e ∧ is_Some (heap w !! e)) →
  (∀ c, cur = Some c → c = Zero ∨ ∃ e, c = Occ e ∧ is_Some (heap w !! e)) →
  ∃ rows', scan w nm cells i cur st rows = Ret rows'.
Proof.
  revert i cur st rows. induction cells as [|c cells IH]; intros i cur st rows Hc Hcur;
    cbn [scan].
  - destruct cur as [c|]; [|by eexists]. by apply close_segment_tidy, Hcur.
  - assert (Hc' : ∀ c', c' ∈ cells → c' = Zero ∨ ∃ e, c' = Occ e ∧ is_Some (heap w !! e))
      by (intros c' Hc'; apply Hc; by right).
    destruct (decide (Some c = cur)); [by apply IH|].
    assert (Hcl : ∃ rows1, close_segment w nm cur st i rows = Ret rows1).
    { destruct cur as [c0|]; [by apply close_segment_tidy, Hcur|by eexists]. }
    destruct Hcl as [rows1 ->]. apply IH; [done|].
    intros c' [= <-]. apply Hc. by left.
Qed.

Lemma getPlotlyData_tidy (w : world) : tidy w → ∃ rows, getPlotlyData w = Ret rows.
Proof.
  intros Ht. unfold getPlotlyData. generalize (sortedLocs (sched w)) (@nil bar).
  intros names. induction names as [|nm names IH]; intros rows; cbn [plot_locations];
    [by eexists|].
  unfold plot_location. destruct (scheduleGrid (sched w) !! nm) as [grid|] eqn:Hg; [|apply IH].
  destruct (scan_tidy w nm grid 0 None (-1) rows) as [rows1 ->]; [|done|apply IH].
  intros c Hc. by eapply Ht.
Qed.

Lemma tidy_upd_event (w : world) (e : nat) (f : Event → Event) :
  tidy w → tidy (upd_event e f w).
Proof.
  intros Ht nm grid c Hg Hc. destruct (Ht nm grid c Hg Hc) as [?|(e' & -> & [ev Hev])];
    [by left|]. right. exists e'. split; [done|].
  destruct (decide (e = e')) as [->|Hne].
  - rewrite heap_upd_event, Hev. by eexists.
  - rewrite heap_upd_event_ne by done. by eexists.
Qed.

Lemma placeEvent_tidy (w w' : world) (e : nat) (loc : Location) (c : completion bool) :
  tidy w → placeEvent w e loc false = (w', c) → tidy w'.
Proof.
  intros Ht. unfold placeEvent.
  destruct (heap w !! e) as [ev|] eqn:Hev; [|by intros [= <- <-]].
  destruct (_ || _); [by intros [= <- <-]|].
  set (ranges := getIndicesForEvent (sched w) (timeObj ev)).
  assert (H1 : tidy (upd_event e (λ x, fst (updateIndices ranges x)) w))
    by (by apply tidy_upd_event).
  set (w1 := upd_event e _ w) in *.
  destruct (length ranges =? 0)%nat; [by intros [= <- <-]|].
  destruct (capacity loc <? seats ev); [intros [= <- <-]; by apply tidy_upd_event|].
  destruct (first_hit _) as [[|]|ex] eqn:Hf;
    [intros [= <- <-]; by apply tidy_upd_event| |by intros [= <- <-]].
  destruct (flat_map slots ranges) as [|k0 ks] eqn:Hks.
  { intros [= <- <-]. by apply tidy_upd_event. }
  destruct (scheduleGrid (sched w) !! name loc) as [arr|] eqn:Hg; [|by intros [= <- <-]].
  intros [= <- <-]. apply tidy_upd_event.
  assert (Hin : ∀ k, k ∈ k0 :: ks → 0 ≤ k < Z.of_nat (length arr)).
  { intros k Hk. rewrite <- Hks in Hk.
    destruct (checks_passed _ _ _ k Hf Hk) as (arr0 & [= <-] & Hk0 & Hz).
    apply lookup_lt_Some in Hz. lia. }
  intros nm grid c' Hgrid Hc'.
  cbn [upd_sched sched set_scheduleGrid scheduleGrid] in Hgrid.
  destruct (decide (nm = name loc)) as [->|Hne].
  - rewrite lookup_insert_eq in Hgrid. injection Hgrid as <-.
    apply list_elem_of_lookup in Hc' as [j Hj].
    change (foldl (arr_write (Occ e)) arr (k0 :: ks) !! j = Some c') in Hj.
    rewrite foldl_arr_write_lookup in Hj by exact Hin.
    destruct (decide (Z.of_nat j ∈ k0 :: ks)).
    + destruct (decide (j < length arr)%nat); [|done]. injection Hj as <-.
      right. exists e. split; [done|]. subst w1. cbn [upd_sched heap].
      rewrite heap_upd_event, Hev. by eexists.
    + apply (H1 (name loc) arr c'); [exact Hg|]. by eapply list_elem_of_lookup_2.
  - rewrite lookup_insert_ne in Hgrid by done. by apply (H1 nm grid c').
Qed.

Lemma try_locs_tidy (ls : list Location) (w w' : world) (e : nat) (c : completion bool) :
  tidy w → try_locs w e ls = (w', c) → tidy w'.
Proof.
  revert w. induction ls as [|l ls IH]; intros w Ht; cbn [try_locs].
  - by intros [= <- <-].
  - destruct (placeEvent w e l false) as [w1 c1] eqn:Hp.
    pose proof (placeEvent_tidy _ _ _ _ _ Ht Hp) as H1.
    destruct c1 as [[|]|ex]; [by intros [= <- <-]|by apply IH|by intros [= <- <-]].
Qed.

Lemma phase1_body_tidy (x : option nat) (s s' : world * pools) (c : completion unit) :
  tidy s.1 → phase1_body x s = (s', c) → tidy s'.1.
Proof.
  destruct s as [w p]. cbn [fst]. intros Ht. unfold phase1_body.
  destruct (x ≫= _) as [[e' ev']|]; [|by intros [= <- <-]].
  destruct (is_unknown (bldgCode ev')); [by intros [= <- <-]|].
  destruct (is_unknown (roomNumber ev')); [by intros [= <- <-]|].
  destruct (findLoc _ _) as [loc|]; [|by intros [= <- <-]].
  destruct (placeEvent w e' loc false) as [w1 c1] eqn:Hp.
  pose proof (placeEvent_tidy _ _ _ _ _ Ht Hp) as H1.
  by destruct c1 as [[|]|ex]; intros [= <- <-].
Qed.

Lemma phase2_body_tidy (x : option nat) (s s' : world * pools) (c : completion unit) :
  tidy s.1 → phase2_body x s = (s', c) → tidy s'.1.
Proof.
  destruct s as [w p]. cbn [fst]. intros Ht. unfold phase2_body.
  destruct (x ≫= _) as [[e' ev']|]; [|by intros [= <- <-]].
  destruct (length _ =? 0)%nat; [by intros [= <- <-]|].
  destruct (try_locs _ _ _) as [w1 c1] eqn:Hp.
  pose proof (try_locs_tidy _ _ _ _ _ Ht Hp) as H1.
  by destruct c1 as [[|]|ex]; intros [= <- <-].
Qed.

Lemma phase3_body_tidy (x : option nat) (s s' : world * pools) (c : completion unit) :
  tidy s.1 → phase3_body x s = (s', c) → tidy s'.1.
Proof.
  destruct s as [w p]. cbn [fst]. intros Ht. unfold phase3_body.
  destruct (x ≫= _) as [[e' ev']|]; [|by intros [= <- <-]].
  destruct (try_locs _ _ _) as [w1 c1] eqn:Hp.
  pose proof (try_locs_tidy _ _ _ _ _ Ht Hp) as H1.
  by destruct c1 as [[|]|ex]; intros [= <- <-].
Qed.

Lemma phase4_body_tidy (newLoc : Location) (x : nat) (s s' : world * list nat)
    (c : completion unit) :
  tidy s.1 → phase4_body newLoc x s = (s', c) → tidy s'.1.
Proof.
  destruct s as [w uns]. cbn [fst]. intros Ht. unfold phase4_body.
  destruct (placeEvent w x newLoc false) as [w1 c1] eqn:Hp.
  pose proof (placeEvent_tidy _ _ _ _ _ Ht Hp) as H1.
  by destruct c1 as [[|]|ex]; intros [= <- <-].
Qed.

Lemma overflow_body_tidy (w w' : world) (uns : list nat) (c : completion (list nat)) :
  tidy w → overflow_body w uns = (w', c) → tidy w'.
Proof.
  intros Ht. unfold overflow_body, addUnscheduledLocation.
  destruct (new_array _) as [arr|] eqn:Harr; [|by intros [= <- <-]].
  set (nm := ("UN " +:+ decimal (unscheduledCount (sched w)))%string).
  set (s1 := set_unscheduledCount _ _).
  assert (H2 : tidy (mkWorld s1 (heap w))).
  { intros k grid c' Hg Hc'. subst s1. cbn in Hg.
    destruct (decide (k = nm)) as [->|Hne].
    - rewrite lookup_insert_eq in Hg. injection Hg as <-.
      destruct (new_array_Ret _ _ Harr) as (n & _ & _ & ->).
      apply elem_of_replicate in Hc' as [-> _]. by left.
    - rewrite lookup_insert_ne in Hg by done. by apply (Ht k grid c'). }
  destruct (last (locations s1)) as [newLoc|]; [|by intros [= <- <-]].
  destruct (for_of _ _ _) as [[w2 uns2] c2] eqn:Hl.
  pose proof (for_of_keeps (phase4_body newLoc) (λ st, tidy st.1)
    (phase4_body_tidy newLoc) _ (_, _) _ _ H2 Hl) as H3. cbn [fst] in H3.
  by destruct c2; intros [= <- <-].
Qed.

Lemma overflow_loop_tidy (fuel : nat) (w w' : world) (uns : list nat)
    (c : completion (list nat)) (n : nat) :
  tidy w → overflow_loop fuel w uns = Some (w', c, n) → tidy w'.
Proof.
  revert w w' uns c n. induction fuel as [|fuel IH]; intros w w' uns c n Ht;
    destruct uns as [|u uns]; cbn [overflow_loop]; try by intros [= <- <- <-].
  destruct (overflow_body w (u :: uns)) as [w1 [uns1|ex]] eqn:Hb;
    pose proof (overflow_body_tidy _ _ _ _ Ht Hb) as H1;
    [|by intros [= <- <- <-]].
  destruct (_ =? _)%nat; [by intros [= <- <- <-]|].
  destruct (overflow_loop fuel w1 uns1) as [[[w2 c2] n2]|] eqn:Hl; [|done].
  intros [= <- <- <-]. by eapply IH.
Qed.

Lemma reset_body_tidy (x : nat) (w w' : world) (c : completion unit) :
  tidy w → reset_body x w = (w', c) → tidy w'.
Proof.
  intros Ht. unfold reset_body.
  destruct (heap w !! x); intros [= <- <-]; [by apply tidy_upd_event|done].
Qed.

Lemma metrics_body_tidy (x : option nat) (s s' : world * (Z * Z * Z * Z))
    (c : completion unit) :
  tidy s.1 → metrics_body x s = (s', c) → tidy s'.1.
Proof.
  destruct s as [w k]. cbn [fst]. intros Ht. unfold metrics_body.
  destruct (x ≫= _) as [[e ev]|]; [|by intros [= <- <-]].
  destruct (String.eqb _ _); intros [= <- <-]; [done|by apply tidy_upd_event].
Qed.

Lemma createSchedule_tidy (w w' : world) (events : list nat) (seed : option Z)
    (entropy : Z) (c : completion result) :
  tidy w → createSchedule w events seed entropy = Some (w', c) → tidy w'.
Proof.
  intros H0 Hrun. unfold createSchedule in Hrun.
  destruct (for_of reset_body events w) as [w0 c0] eqn:Hr.
  pose proof (for_of_keeps reset_body tidy reset_body_tidy _ _ _ _ H0 Hr) as S0.
  destruct c0 as [[]|ex]; [|by injection Hrun as <- <-].
  destruct (Random.shuffle _ (arr_of events)) as [rng1 evs].
  destruct (for_of phase1_body _ _) as [[w1 p1] c1] eqn:H1.
  pose proof (for_of_keeps phase1_body (λ st, tidy st.1) phase1_body_tidy
                _ (_, _) _ _ S0 H1) as S1. cbn [fst] in S1.
  destruct c1 as [[]|ex]; [|by injection Hrun as <- <-].
  destruct (Random.shuffle rng1 _) as [rng2 wl].
  destruct (for_of phase2_body _ _) as [[w2 p2] c2] eqn:H2.
  pose proof (for_of_keeps phase2_body (λ st, tidy st.1) phase2_body_tidy
                _ (_, _) _ _ S1 H2) as S2. cbn [fst] in S2.
  destruct c2 as [[]|ex]; [|by injection Hrun as <- <-].
  destruct (Random.shuffle rng2 _) as [rng3 fl].
  destruct (for_of phase3_body _ _) as [[w3 p3] c3] eqn:H3.
  pose proof (for_of_keeps phase3_body (λ st, tidy st.1) phase3_body_tidy
                _ (_, _) _ _ S2 H3) as S3. cbn [fst] in S3.
  destruct c3 as [[]|ex]; [|by injection Hrun as <- <-].
  destruct (overflow_loop _ _ _) as [[[w4 c4] k]|] eqn:H4; [|done].
  pose proof (overflow_loop_tidy _ _ _ _ _ _ S3 H4) as S4.
  destruct c4 as [uns|ex]; [|by injection Hrun as <- <-].
  unfold calculateMetrics in Hrun.
  destruct (for_of metrics_body _ _) as [[w5 k5] c5] eqn:H5.
  pose proof (for_of_keeps metrics_body (λ st, tidy st.1) metrics_body_tidy
                _ (_, _) _ _ S4 H5) as S5. cbn [fst] in S5.
  by destruct c5 as [[]|ex]; injection Hrun as <- <-.
Qed.

(** X25: after [createSchedule] on a new engine, however the run ends,
    [getPlotlyData] returns: the run leaves no hole in a grid, and every
    slot holds 0 or an activity that exists. *)
Theorem getPlotlyData_after_run (locs : list Location) (startMin_ endMin_ : Z)
    (activeDays : list string) (interval_ timeGap_ : Z) (evs : list Event)
    (events : list nat) (seed : option Z) (entropy : Z) (w w' : world)
    (c : completion result) :
  fresh_world locs startMin_ endMin_ activeDays interval_ timeGap_ evs = Ret w →
  createSchedule w events seed entropy = Some (w', c) →
  tidy w' ∧ ∃ rows, getPlotlyData w' = Ret rows.
Proof.
  unfold fresh_world.
  destruct (Schedule_new _ _ _ _ _ _) as [s|] eqn:HS; [|done].
  intros [= <-] Hrun.
  assert (Ht : tidy (mkWorld s evs)).
  { intros nm grid c' Hg Hc'. cbn [sched] in Hg. left.
    destruct (Schedule_new_fields _ _ _ _ _ _ _ HS) as [_ Hfill].
    rewrite (fill_grid_spec _ _ _ _ nm Hfill) in Hg.
    destruct (decide _); [|by rewrite lookup_empty in Hg].
    destruct (new_array _) as [arr|] eqn:Harr; [|done]. injection Hg as <-.
    destruct (new_array_Ret _ _ Harr) as (n & _ & _ & ->).
    by apply elem_of_replicate in Hc' as [-> _]. }
  pose proof (createSchedule_tidy _ _ _ _ _ _ Ht Hrun) as Ht'.
  split; [done|by apply getPlotlyData_tidy].
Qed.

Lemma getPlotlyData_after_run_witness :
  let w := built two_for_one_room in
  let r := createSchedule w [0; 1]%nat (Some 7) 0 in
  let w' := default w (fst <$> r) in
  let c := default (Throw TypeError) (snd <$> r) in
  fresh_world [mkLocation "R 1" 10] 480 600 ["Monday"%string] 60 0
    [Event_new "CS 1" 5 480 540 ["M"%string] "R" "1";
     Event_new "CS 2" 5 480 540 ["M"%string] "R" "1"] = Ret w
  ∧ r = Some (w', c)
  ∧ tidy w' ∧ ∃ rows, getPlotlyData w' = Ret rows.
Proof.
  intros w r w' c.
  assert (H1 : fresh_world [mkLocation "R 1" 10] 480 600 ["Monday"%string] 60 0
                 [Event_new "CS 1" 5 480 540 ["M"%string] "R" "1";
                  Event_new "CS 2" 5 480 540 ["M"%string] "R" "1"] = Ret w)
    by (vm_compute; reflexivity).
  assert (H2 : r = Some (w', c)) by (vm_compute; reflexivity).
  split; [exact H1|]. split; [exact H2|].
  exact (getPlotlyData_after_run _ 480 600 ["Monday"%string] 60 0 _ [0; 1]%nat
           (Some 7) 0 w w' c H1 H2).
Defined.

(** ** Times of day *)

Lemma split_on_app (sep : ascii) (a b : string) :
  occurs sep a = false →
  split_on sep (a +:+ String sep b) = a :: split_on sep b.
Proof.
  induction a as [|ch a IH]; cbn [occurs]; intros Ha.
  - change (EmptyString +:+ String sep b) with (String sep b).
    cbn [split_on]. by rewrite Ascii.eqb_refl.
  - apply orb_false_iff in Ha as [Hch Ha].
    change (String ch a +:+ String sep b) with (String ch (a +:+ String sep b)).
    cbn [split_on]. rewrite Hch, IH by done. done.
Qed.

Lemma split_on_none (sep : ascii) (b : string) :
  occurs sep b = false → split_on sep b = [b].
Proof.
  induction b as [|ch b IH]; cbn [occurs split_on]; [done|].
  intros [Hch Hb]%orb_false_iff. rewrite Hch, IH by done. done.
Qed.

Lemma occurs_app (sep : ascii) (a b : string) :
  occurs sep (a +:+ b) = occurs sep a || occurs sep b.
Proof.
  induction a as [|ch a IH]; [done|].
  change (String ch a +:+ b) with (String ch (a +:+ b)). cbn [occurs].
  rewrite IH. by rewrite orb_assoc.
Qed.

Lemma colon_in_digits (d : Decimal.uint) :
  occurs ":" (NilEmpty.string_of_uint d) = false.
Proof. induction d; cbn [NilEmpty.string_of_uint occurs]; done. Qed.

Local Ltac eval_digit :=
  repeat match goal with
  | |- context [digit_val ?c] =>
      let v := eval vm_compute in (digit_val c) in change (digit_val c) with v
  end;
  cbv beta iota;
  repeat match goal with
  | |- context [Z.ltb ?k 10] =>
      let v := eval vm_compute in (Z.ltb k 10) in change (Z.ltb k 10) with v
  end;
  cbv beta iota.

Lemma digits_decimal (d : Decimal.uint) (a : Z) :
  0 ≤ a →
  digits 10 (NilEmpty.string_of_uint d) (Some a)
  = Some (Z.of_nat (Nat.of_uint_acc d (Z.to_nat a))).
Proof.
  revert a. induction d as [|d IH|d IH|d IH|d IH|d IH|d IH|d IH|d IH|d IH|d IH];
    intros a Ha; cbn [NilEmpty.string_of_uint Nat.of_uint_acc digits];
    [f_equal; lia|..];
    (eval_digit; cbn [default id]; rewrite IH by lia; rewrite Nat.tail_mul_spec;
     do 3 f_equal; lia).
Qed.

Lemma skip_ws_digit (c : ascii) (r : string) :
  (48 <=? nat_of_ascii c)%nat && (nat_of_ascii c <=? 57)%nat = true →
  skip_ws (String c r) = String c r.
Proof.
  intros [H1 H2]%andb_true_iff. apply Nat.leb_le in H1, H2. cbn [skip_ws].
  set (n := nat_of_ascii c) in *.
  destruct (Nat.leb_spec 9 n), (Nat.leb_spec n 13), (Nat.eqb_spec n 32); try lia.
  cbn [andb orb].
  destruct (Nat.eqb_spec n 194), (Nat.eqb_spec n 225), (Nat.eqb_spec n 226),
    (Nat.eqb_spec n 227), (Nat.eqb_spec n 239); try lia. done.
Qed.

Lemma parseInt_decimal (d : Decimal.uint) :
  d ≠ Decimal.Nil →
  parseInt (NilEmpty.string_of_uint d) = Some (fl53 (Z.of_nat (Nat.of_uint d))).
Proof.
  intros Hd. unfold Nat.of_uint.
  destruct d as [|d|d|d|d|d|d|d|d|d|d]; [done|..];
    unfold parseInt; cbn [NilEmpty.string_of_uint];
    rewrite skip_ws_digit by done;
    try (cbn [digits]; eval_digit; cbn [default id]; rewrite digits_decimal by lia;
         cbn [Nat.of_uint_acc]; rewrite Nat.tail_mul_spec;
         match goal with |- Some (1 * ?x) = _ => by rewrite Z.mul_1_l end).
  destruct d as [|d|d|d|d|d|d|d|d|d|d]; cbn [NilEmpty.string_of_uint];
    cbn [digits]; eval_digit; cbn [default id digits]; eval_digit; cbn [default id];
    rewrite ?digits_decimal by lia; cbn [Nat.of_uint_acc];
    rewrite ?Nat.tail_mul_spec; by rewrite Z.mul_1_l.
Qed.

Lemma to_uint_nonnil (k : nat) : Nat.to_uint k ≠ Decimal.Nil.
Proof.
  intros H. pose proof (DecimalNat.Unsigned.of_to k) as Hk. rewrite H in Hk.
  cbn in Hk. subst k. done.
Qed.

Lemma parseInt_show (k : Z) : 0 ≤ k < 2 ^ 53 → parseInt (show_int k) = Some k.
Proof.
  intros Hk. unfold show_int. destruct (Z.ltb_spec k 0); [lia|]. unfold decimal.
  rewrite parseInt_decimal by apply to_uint_nonnil.
  rewrite DecimalNat.Unsigned.of_to, Z2Nat.id by lia.
  by rewrite fl53_small by lia.
Qed.

Lemma parseInt_padded (k : Z) :
  0 ≤ k < 2 ^ 53 → parseInt ("0" +:+ show_int k) = Some k.
Proof.
  intros Hk. unfold show_int. destruct (Z.ltb_spec k 0); [lia|]. unfold decimal.
  change ("0" +:+ NilEmpty.string_of_uint (Nat.to_uint (Z.to_nat k)))
    with (NilEmpty.string_of_uint (Decimal.D0 (Nat.to_uint (Z.to_nat k)))).
  rewrite parseInt_decimal by done.
  change (Nat.of_uint (Decimal.D0 (Nat.to_uint (Z.to_nat k))))
    with (Nat.of_uint (Nat.to_uint (Z.to_nat k))).
  rewrite DecimalNat.Unsigned.of_to, Z2Nat.id by lia.
  by rewrite fl53_small by lia.
Qed.

(** X26: for a count of minutes that is an integer from 0 to below 2^53,
    [timeToMinutes] reads back what [minutesToTime] prints. *)
Theorem timeToMinutes_minutesToTime (n : Z) :
  0 ≤ n < 2 ^ 53 → timeToMinutes (Some (minutesToTime n)) = Some n.
Proof.
  intros Hn. unfold timeToMinutes, minutesToTime.
  rewrite Z.rem_mod_nonneg by lia.
  pose proof (Z.mod_pos_bound n 60 ltac:(lia)) as Hm.
  pose proof (Z.div_mod n 60 ltac:(lia)) as Hdm.
  assert (Hh : 0 ≤ n / 60 < 2 ^ 53).
  { split; [apply Z.div_pos; lia|]. apply Z.div_lt_upper_bound; lia. }
  set (h := n / 60) in *. set (m := n mod 60) in *.
  set (tail := (if m <? 10 then "0" else "") +:+ show_int m).
  assert (Hcolon_h : occurs ":" (show_int h) = false).
  { unfold show_int. destruct (Z.ltb_spec h 0); [lia|]. apply colon_in_digits. }
  assert (Hcolon_t : occurs ":" tail = false).
  { subst tail. rewrite occurs_app. apply orb_false_iff. split.
    - by destruct (m <? 10).
    - unfold show_int. destruct (Z.ltb_spec m 0); [lia|]. apply colon_in_digits. }
  assert (Hne : String.eqb (show_int h +:+ ":" +:+ tail) "" = false).
  { unfold show_int. destruct (Z.ltb_spec h 0); [lia|]. unfold decimal.
    pose proof (to_uint_nonnil (Z.to_nat h)) as Hnn.
    by destruct (Nat.to_uint (Z.to_nat h)). }
  rewrite Hne.
  change (show_int h +:+ ":" +:+ tail) with (show_int h +:+ String ":" tail).
  rewrite split_on_app, split_on_none by done.
  cbn [head default lookup list_lookup id].
  rewrite parseInt_show by done.
  assert (Ht : parseInt tail = Some m).
  { subst tail. destruct (Z.ltb_spec m 10).
    - apply parseInt_padded. lia.
    - change ("" +:+ show_int m) with (show_int m). apply parseInt_show. lia. }
  rewrite Ht. f_equal.
  rewrite (fl53_small (h * 60)) by lia. rewrite fl53_small by lia. lia.
Qed.

Lemma timeToMinutes_minutesToTime_witness :
  0 ≤ 485 < 2 ^ 53 ∧ timeToMinutes (Some (minutesToTime 485)) = Some 485.
Proof.
  assert (H : 0 ≤ 485 < 2 ^ 53) by (split; [lia|vm_compute; reflexivity]).
  split; [exact H|]. exact (timeToMinutes_minutesToTime 485 H).
Defined.

(** X27: for a text that is not empty and has no colon, [timeToMinutes]
    returns NaN: the part after the colon is [undefined], which [parseInt]
    reads as the text "undefined". *)
Theorem timeToMinutes_no_colon (s : string) :
  s ≠ EmptyString → occurs ":" s = false → timeToMinutes (Some s) = None.
Proof.
  intros Hs Hc. unfold timeToMinutes.
  apply String.eqb_neq in Hs. rewrite Hs, split_on_none by done.
  cbn [head default lookup list_lookup id].
  change (parseInt "undefined") with (@None Z).
  by destruct (parseInt s).
Qed.

Lemma timeToMinutes_no_colon_witness :
  "8"%string ≠ EmptyString ∧ occurs ":" "8" = false ∧ timeToMinutes (Some "8"%string) = None.
Proof.
  assert (H1 : "8"%string ≠ EmptyString) by discriminate.
  assert (H2 : occurs ":" "8" = false) by reflexivity.
  split; [exact H1|]. split; [exact H2|]. exact (timeToMinutes_no_colon "8" H1 H2).
Defined.

(** ** The metrics of a completed run *)





(** ** The bars of the chart are the runs of the grids *)

Lemma close_segment_run (w : world) (nm : string) (grid : list cell) (n : nat)
    (cur : option cell) (st : Z) (rows rows' : list bar) :
  seg_inv grid n cur st → (n ≤ length grid)%nat → grid !! n ≠ cur →
  close_segment w nm cur st (Z.of_nat n) rows = Ret rows' →
  ∀ b, b ∈ rows' →
    b ∈ rows ∨ (bar_y b = nm ∧ is_run (interval (sched w)) grid b).
Proof.
  intros Hinv Hn Hnext. unfold close_segment. destruct cur as [[|e|]|].
  - intros [= <-] b Hb. by left.
  - destruct (heap w !! e) as [ev|]; [|done]. intros [= <-] b Hb.
    apply elem_of_app in Hb as [Hb|Hb]; [by left|right].
    apply list_elem_of_singleton in Hb as ->. cbn [bar_y]. split; [done|].
    destruct Hinv as (s & -> & Hs & Hfill & Hbefore).
    exists s, n. cbn [bar_base bar_x bar_event]. by repeat split; try lia.
  - done.
  - intros [= <-] b Hb. by left.
Qed.

Lemma scan_runs (w : world) (nm : string) (grid cells : list cell) (n : nat)
    (cur : option cell) (st : Z) (rows rows' : list bar) :
  drop n grid = cells → (n ≤ length grid)%nat → seg_inv grid n cur st →
  scan w nm cells (Z.of_nat n) cur st rows = Ret rows' →
  ∀ b, b ∈ rows' →
    b ∈ rows ∨ (bar_y b = nm ∧ is_run (interval (sched w)) grid b).
Proof.
  revert n cur st rows. induction cells as [|c cells IH]; intros n cur st rows Hd Hn Hinv;
    cbn [scan].
  - assert (Hnone : grid !! n = None).
    { apply lookup_ge_None. apply (f_equal length) in Hd.
      rewrite length_drop in Hd. cbn [length] in Hd. lia. }
    destruct cur as [c|].
    + apply (close_segment_run w nm grid n (Some c) st rows rows' Hinv Hn).
      by rewrite Hnone.
    + intros [= <-] b Hb. by left.
  - assert (Hc : grid !! n = Some c).
    { rewrite <- (Nat.add_0_r n), <- lookup_drop, Hd. done. }
    assert (Hd' : drop (S n) grid = cells).
    { replace (S n) with (n + 1)%nat by lia. by rewrite <- drop_drop, Hd. }
    assert (Hn' : (S n ≤ length grid)%nat) by (by apply lookup_lt_Some in Hc).
    replace (Z.of_nat n + 1) with (Z.of_nat (S n)) by lia.
    destruct (decide (Some c = cur)) as [<-|Hne].
    + apply IH; [done|done|].
      destruct Hinv as (s & -> & Hs & Hfill & Hbefore).
      exists s. split; [done|]. split; [lia|]. split; [|done].
      intros k Hk. destruct (decide (k = n)) as [->|]; [done|]. apply Hfill. lia.
    + destruct (close_segment w nm cur st (Z.of_nat n) rows) as [rows1|] eqn:Hcl; [|done].
      intros Hs b Hb.
      assert (Hnext : grid !! n ≠ cur) by (by rewrite Hc).
      pose proof (close_segment_run w nm grid n cur st rows rows1 Hinv
                    ltac:(lia) Hnext Hcl) as H1.
      assert (Hinv' : seg_inv grid (S n) (Some c) (Z.of_nat n)).
      { exists n. split; [done|]. split; [lia|]. split.
        - intros k Hk. by replace k with n by lia.
        - intros k Hk. destruct cur as [c0|].
          + destruct Hinv as (s & _ & Hs0 & Hfill & _).
            rewrite (Hfill k) by lia. congruence.
          + cbn in Hinv. lia. }
      destruct (IH (S n) (Some c) (Z.of_nat n) rows1 Hd' Hn' Hinv' Hs b Hb) as [Hb1|Hb1].
      * by apply H1.
      * by right.
Qed.

Lemma plot_locations_runs (w : world) (names : list string) (rows rows' : list bar) :
  plot_locations w names rows = Ret rows' →
  ∀ b, b ∈ rows' →
    b ∈ rows
    ∨ (bar_y b ∈ names
       ∧ ∃ grid, scheduleGrid (sched w) !! bar_y b = Some grid
                 ∧ is_run (interval (sched w)) grid b).
Proof.
  revert rows. induction names as [|nm names IH]; intros rows; cbn [plot_locations].
  - intros [= <-] b Hb. by left.
  - destruct (plot_location w nm rows) as [rows1|] eqn:Hp; [|done].
    intros H b Hb. destruct (IH _ H b Hb) as [Hb1|(Hy & Hrun)].
    + unfold plot_location in Hp.
      destruct (scheduleGrid (sched w) !! nm) as [grid|] eqn:Hg.
      * destruct (scan_runs w nm grid grid 0 None (-1) rows rows1 eq_refl
                    ltac:(lia) eq_refl Hp b Hb1) as [Hb0|[<- Hrun]].
        -- by left.
        -- right. split; [by left|]. by exists grid.
      * injection Hp as <-. by left.
    + right. split; [by right|done].
Qed.

(** X29: every bar of the chart that [getPlotlyData] returns stands in the
    row of a location of the engine and draws a maximal run of the grid of
    that location: it starts at the first slot of the run and is as long as
    the run (both times the interval), every slot of the run holds the
    activity of the bar, and the slots before and after the run do not. *)
Theorem getPlotlyData_bars_are_runs (w : world) (rows : list bar) (b : bar) :
  getPlotlyData w = Ret rows → b ∈ rows →
  (∃ l, l ∈ locations (sched w) ∧ name l = bar_y b)
  ∧ ∃ grid, scheduleGrid (sched w) !! bar_y b = Some grid
            ∧ is_run (interval (sched w)) grid b.
Proof.
  unfold getPlotlyData. intros H Hb.
  destruct (plot_locations_runs _ _ _ _ H b Hb) as [Hb0|[Hy Hrun]].
  - by apply elem_of_nil in Hb0.
  - split; [|done]. unfold sortedLocs in Hy.
    rewrite (merge_sort_Permutation name_le) in Hy.
    apply list_elem_of_fmap in Hy as (l & Hl & Hin). by exists l.
Qed.

Lemma getPlotlyData_bars_are_runs_witness :
  let w := default (built two_for_one_room)
             (fst <$> createSchedule (built two_for_one_room) [0; 1]%nat (Some 7) 0) in
  let rows := match getPlotlyData w with Ret r => r | Throw _ => [] end in
  let b := default (mkBar "" 0 0 0 "" "") (head rows) in
  let drawn_run (v : world) (x : bar) :=
    (∃ l, l ∈ locations (sched v) ∧ name l = bar_y x)
    ∧ ∃ grid, scheduleGrid (sched v) !! bar_y x = Some grid
              ∧ is_run (interval (sched v)) grid x in
  getPlotlyData w = Ret rows ∧ b ∈ rows ∧ drawn_run w b.
Proof.
  intros w rows b drawn_run.
  assert (H1 : getPlotlyData w = Ret rows) by (vm_compute; reflexivity).
  assert (H2 : b ∈ rows) by (vm_compute; left).
  split; [exact H1|]. split; [exact H2|].
  exact (getPlotlyData_bars_are_runs w rows b H1 H2).
Defined.
